(** * LinguaSync: segment merger, favourites, playback highlight, PCM decoding

    A shallow embedding of the pure and error-handling parts of the
    client (services/geminiService.ts, services/audioUtils.ts, App.tsx,
    components/TranscriptView.tsx) together with the properties the
    design document states about them.

    Conventions of the embedding
    - a JavaScript [number] is an IEEE-754 binary64 value: Rocq's
      primitive [float], with its own subtraction, division and
      comparisons (so NaN and the infinities behave as in the source);
    - a JavaScript string is a [string]; characters are code units below
      256, on which the regular-expression class \s is
      TAB, LF, VT, FF, CR, SPACE and NBSP;
    - an optional field ([isFavorite?: boolean]) is an [option];
    - [throw] / [catch] is the sum type [result]; the asynchronous
      functions are modelled by the value or the exception they settle
      with, and the requests they send by a log;
    - arrays are lists, read by position with stdpp's [!!] and written
      with [<[i:=x]>]; typed arrays over one buffer use the byte order of
      the platforms browsers run on, low byte first;
    - [JSON.parse] and the two providers are parameters. *)

From Stdlib Require Import ZArith Uint63 Floats String Ascii Bool Lia.
From stdpp Require Import base option list.

Local Open Scope string_scope.
Local Open Scope list_scope.

(** ** Data model (types.ts) *)

Record TranscriptionSegment : Type := mkSegment {
  start : float;
  end_ : float;
  text : string;
  translation : string;
  idiomatic : string;
  isFavorite : option bool
}.

Record TranscriptionMeta : Type := mkMeta {
  wordCount : float;
  estimatedLevel : string;
  speed : string
}.

Record TranscriptionResponse : Type := mkResponse {
  language : string;
  segments : list TranscriptionSegment;
  meta : TranscriptionMeta
}.

Record WordDefinition : Type := mkWordDefinition {
  word : string;
  definition : string;
  example : string;
  phonetic : option string
}.

(** ** Exceptions

    A thrown value is an error object: its constructor and its message.
    A computation that may throw returns a [result]. *)

Inductive exn : Type :=
  | Error (message : string)
  | TypeError (message : string)
  | RangeError (message : string)
  | SyntaxError (message : string)
  | InvalidCharacterError (message : string)
  | NotSupportedError (message : string).

Inductive result (A : Type) : Type :=
  | Ok (value : A)
  | Throw (e : exn).

Arguments Ok {A} value.
Arguments Throw {A} e.

(** ** Strings: the class \s and [String.prototype.split(/\s+/)] *)

Definition isSpace (c : ascii) : bool :=
  let n := nat_of_ascii c in
  ((9 <=? n) && (n <=? 13))%nat || (n =? 32)%nat || (n =? 160)%nat.

(** [splitLoop s piece inSep] scans [s] left to right. [piece] is the field
    being read and [inSep] tells that the previous character belonged to a
    separator (a maximal run of \s). The field before a separator is
    emitted when the separator starts, the last field when the text ends,
    even when it is empty: this is what [split] does with a pattern that
    cannot match the empty string. *)
Fixpoint splitLoop (s : string) (piece : string) (inSep : bool) : list string :=
  match s with
  | EmptyString => [piece]
  | String c s' =>
      if isSpace c then
        if inSep then splitLoop s' EmptyString true
        else piece :: splitLoop s' EmptyString true
      else splitLoop s' (piece ++ String c EmptyString) false
  end.

(** [text.split(/\s+/)] *)
Definition splitWhitespace (s : string) : list string :=
  splitLoop s EmptyString false.

(** Whether the last character of [s] is whitespace; [dflt] answers for the
    empty string. *)
Fixpoint lastIsSpace (s : string) (dflt : bool) : bool :=
  match s with
  | EmptyString => dflt
  | String c s' => lastIsSpace s' (isSpace c)
  end.

(** A word: at least one character, none of them whitespace. *)
Fixpoint noSpace (s : string) : bool :=
  match s with
  | EmptyString => true
  | String c s' => negb (isSpace c) && noSpace s'
  end.

Definition isWord (w : string) : Prop := w <> EmptyString /\ noSpace w = true.

(** ** Segment merger (geminiService.ts, mergeShortSegments) *)

Definition MIN_WORDS : nat := 4.

(** [x || y] on strings: the first operand unless it is the empty string. *)
Definition orElse (x y : string) : string :=
  match x with
  | EmptyString => y
  | _ => x
  end.

(** The test of the loop body, on the value of [current]. *)
Definition isShort (current : TranscriptionSegment) : bool :=
  let currentWordCount := length (splitWhitespace (text current)) in
  let duration := (end_ current - start current)%float in
  (currentWordCount <? MIN_WORDS)%nat && (duration <? 2.0)%float.

(** The object literal [{...current, end, text, translation, idiomatic}]. *)
Definition mergeInto (current next : TranscriptionSegment) : TranscriptionSegment :=
  {| start := start current;
     end_ := end_ next;
     text := text current ++ " " ++ text next;
     translation := translation current ++ " " ++ translation next;
     idiomatic := orElse (idiomatic next) (idiomatic current);
     isFavorite := isFavorite current |}.

(** One iteration of the [for] loop: the state is the pair of the local
    variables [merged] and [current]. *)
Definition mergeStep (st : list TranscriptionSegment * TranscriptionSegment)
    (next : TranscriptionSegment) : list TranscriptionSegment * TranscriptionSegment :=
  let '(merged, current) := st in
  if isShort current then (merged, mergeInto current next)
  else (merged ++ [current], next).

(** The loop [for (let i = 1; i < segments.length; i++)], with [n] the
    number of iterations left. *)
Fixpoint mergeLoop (segments : list TranscriptionSegment) (n i : nat)
    (st : list TranscriptionSegment * TranscriptionSegment)
    : list TranscriptionSegment * TranscriptionSegment :=
  match n with
  | O => st
  | S n' =>
      match segments !! i with
      | Some next => mergeLoop segments n' (S i) (mergeStep st next)
      | None => st
      end
  end.

Definition mergeShortSegments (segments : list TranscriptionSegment)
    : list TranscriptionSegment :=
  match segments !! 0%nat with
  | None => []
  | Some first =>
      let '(merged, current) :=
        mergeLoop segments (length segments - 1) 1 ([], first) in
      merged ++ [current]
  end.

(** *** The loop by recursion on the segments that remain

    The loop above as an accumulator fold, with the count of the code: the
    number of fields that [split(/\s+/)] gives, one more than the number of
    maximal runs of whitespace, so that whitespace at the start or at the
    end of the text adds an empty field. *)

Fixpoint countSeparators (s : string) (inSep : bool) : nat :=
  match s with
  | EmptyString => 0
  | String c s' =>
      if isSpace c then
        if inSep then countSeparators s' true else S (countSeparators s' true)
      else countSeparators s' false
  end.

Definition whitespaceDelimitedCount (s : string) : nat :=
  S (countSeparators s false).

Definition meetsMergeCondition (acc : TranscriptionSegment) : bool :=
  (whitespaceDelimitedCount (text acc) <? 4)%nat
  && (end_ acc - start acc <? 2.0)%float.

Definition mergedWith (acc next : TranscriptionSegment) : TranscriptionSegment :=
  {| start := start acc;
     end_ := end_ next;
     text := text acc ++ " " ++ text next;
     translation := translation acc ++ " " ++ translation next;
     idiomatic :=
       match idiomatic next with
       | EmptyString => idiomatic acc
       | String _ _ => idiomatic next
       end;
     isFavorite := isFavorite acc |}.

Fixpoint foldSegments (acc : TranscriptionSegment)
    (rest : list TranscriptionSegment) : list TranscriptionSegment :=
  match rest with
  | [] => [acc]
  | next :: rest' =>
      if meetsMergeCondition acc then foldSegments (mergedWith acc next) rest'
      else acc :: foldSegments next rest'
  end.

Definition segmentMerger (input : list TranscriptionSegment)
    : list TranscriptionSegment :=
  match input with
  | [] => []
  | first :: rest => foldSegments first rest
  end.

(** *** The merger as the design document words it

    The accumulator fold of the document with its word count: the number
    of words of the text, a word being a maximal run of characters that are
    not whitespace. *)

Fixpoint countWords (s : string) (inWord : bool) : nat :=
  match s with
  | EmptyString => 0
  | String c s' =>
      if isSpace c then countWords s' false
      else if inWord then countWords s' true else S (countWords s' true)
  end.

Definition numberOfWords (s : string) : nat := countWords s false.

Definition documentedMergeCondition (acc : TranscriptionSegment) : bool :=
  (numberOfWords (text acc) <? 4)%nat && (end_ acc - start acc <? 2.0)%float.

Fixpoint documentedFold (acc : TranscriptionSegment)
    (rest : list TranscriptionSegment) : list TranscriptionSegment :=
  match rest with
  | [] => [acc]
  | next :: rest' =>
      if documentedMergeCondition acc then documentedFold (mergedWith acc next) rest'
      else acc :: documentedFold next rest'
  end.

Definition documentedMerger (input : list TranscriptionSegment)
    : list TranscriptionSegment :=
  match input with
  | [] => []
  | first :: rest => documentedFold first rest
  end.

(** A text that starts with a word and ends with a word. *)
Definition wordsAtEnds (s : string) : bool :=
  match s with
  | EmptyString => false
  | String c _ => negb (isSpace c) && negb (lastIsSpace s false)
  end.

(** A segment that is not below the merge threshold: four words or more,
    or two seconds or more. *)
Definition atOrAboveThreshold (s : TranscriptionSegment) : Prop :=
  (MIN_WORDS <= length (splitWhitespace (text s)))%nat
  \/ (2.0 <=? end_ s - start s)%float = true.

(** ** Favourite toggle (App.tsx, handleToggleFavorite) *)

(** Truthiness of an optional boolean: [undefined] is falsy. *)
Definition truthy (b : option bool) : bool := default false b.

(** [{...segment, isFavorite: !segment.isFavorite}] *)
Definition withFavoriteInverted (segment : TranscriptionSegment)
    : TranscriptionSegment :=
  {| start := start segment;
     end_ := end_ segment;
     text := text segment;
     translation := translation segment;
     idiomatic := idiomatic segment;
     isFavorite := Some (negb (truthy (isFavorite segment))) |}.

(** The handler maps the [transcription] state to the next state. Without a
    transcription it returns at once; reading [isFavorite] of a position
    that holds no segment throws. *)
Definition handleToggleFavorite (index : nat)
    (transcription : option TranscriptionResponse)
    : result (option TranscriptionResponse) :=
  match transcription with
  | None => Ok None
  | Some tr =>
      let newSegments := segments tr in
      match newSegments !! index with
      | None => Throw (TypeError "Cannot read properties of undefined")
      | Some segment =>
          Ok (Some {| language := language tr;
                      segments := <[index := withFavoriteInverted segment]> newSegments;
                      meta := meta tr |})
      end
  end.

(** Two clicks on the same bookmark: the handler runs on the state that
    its first run produced. *)
Definition toggleTwice (index : nat)
    (transcription : option TranscriptionResponse)
    : result (option TranscriptionResponse) :=
  match handleToggleFavorite index transcription with
  | Ok next => handleToggleFavorite index next
  | Throw e => Throw e
  end.

(** The segment with its flag set to what the flag counts as. *)
Definition withFavoriteSet (segment : TranscriptionSegment) : TranscriptionSegment :=
  {| start := start segment;
     end_ := end_ segment;
     text := text segment;
     translation := translation segment;
     idiomatic := idiomatic segment;
     isFavorite := Some (truthy (isFavorite segment)) |}.

(** ** Active segment (TranscriptView.tsx) *)

(** [currentTime >= segment.start && currentTime < segment.end] *)
Definition isActive (currentTime : float) (segment : TranscriptionSegment) : bool :=
  (start segment <=? currentTime)%float && (currentTime <? end_ segment)%float.

(** The segments that the list renders as active. *)
Definition activeSegments (currentTime : float)
    (segs : list TranscriptionSegment) : list TranscriptionSegment :=
  List.filter (isActive currentTime) segs.

(** Two segments overlap when some time lies in both half-open intervals. *)
Definition overlap (a b : TranscriptionSegment) : Prop :=
  exists t : float, isActive t a = true /\ isActive t b = true.

Definition nonOverlapping (segs : list TranscriptionSegment) : Prop :=
  forall (i j : nat) (a b : TranscriptionSegment),
    i <> j -> segs !! i = Some a -> segs !! j = Some b -> ~ overlap a b.

(** A checkable sufficient condition: each segment ends before the later
    ones start. *)
Definition endsBeforeLaterStart (segs : list TranscriptionSegment) : Prop :=
  forall (i j : nat) (a b : TranscriptionSegment),
    (i < j)%nat -> segs !! i = Some a -> segs !! j = Some b ->
    (end_ a <=? start b)%float = true.

(** ** Response parsing (geminiService.ts, cleanAndParseJson) *)

(** What is left of [s] after a maximal run \s* at its start. *)
Fixpoint dropSpaces (s : string) : string :=
  match s with
  | EmptyString => EmptyString
  | String c s' => if isSpace c then dropSpaces s' else s
  end.

Fixpoint stripPrefix (p s : string) : option string :=
  match p, s with
  | EmptyString, _ => Some s
  | String a p', String b s' => if Ascii.eqb a b then stripPrefix p' s' else None
  | String _ _, EmptyString => None
  end.

Definition openingFence : string := "```json".
Definition closingFence : string := "```".

(** [text.replace(/^```json\s*/, '')]: the pattern is anchored at the start
    and its \s* is greedy. *)
Definition removeOpeningFence (text : string) : string :=
  match stripPrefix openingFence text with
  | Some rest => dropSpaces rest
  | None => text
  end.

(** The pattern \s*```$ matched from the first character of [s]: after the
    run of whitespace nothing but the three backquotes may remain. *)
Definition matchesClosingFence (s : string) : bool :=
  String.eqb (dropSpaces s) closingFence.

(** [s.replace(/\s*```$/, '')]: the first match is the one that starts
    leftmost, and it reaches the end of the text. *)
Fixpoint removeClosingFence (s : string) : string :=
  if matchesClosingFence s then EmptyString
  else match s with
       | EmptyString => EmptyString
       | String c s' => String c (removeClosingFence s')
       end.

Definition cleanText (text : string) : string :=
  removeClosingFence (removeOpeningFence text).

Definition parseFailure : exn := Error "Failed to parse AI response".

Section ResponseParsing.
(** [JSON.parse] followed by the cast to the expected type; [None] when
    it throws. *)
Context {T : Type}.
Variable JSON_parse : string -> option T.

Definition cleanAndParseJson (text : string) : result T :=
  match JSON_parse (cleanText text) with
  | Some value => Ok value
  | None => Throw parseFailure
  end.
End ResponseParsing.

(** Strings of whitespace, and the text without the whitespace at its two
    ends; used to state what the helper does with a fenced answer. *)
Fixpoint allSpace (s : string) : bool :=
  match s with
  | EmptyString => true
  | String c s' => isSpace c && allSpace s'
  end.

Fixpoint trimEnd (s : string) : string :=
  match s with
  | EmptyString => EmptyString
  | String c s' => if allSpace s then EmptyString else String c (trimEnd s')
  end.

Definition trim (s : string) : string := trimEnd (dropSpaces s).

Definition fenced (ws1 body ws2 : string) : string :=
  openingFence ++ ws1 ++ body ++ ws2 ++ closingFence.

Definition newline : string := String (ascii_of_nat 10) EmptyString.

Definition endsWithClosingFence (s : string) : Prop :=
  exists pre : string, s = (pre ++ closingFence)%string.

(** A stand-in for [JSON.parse] on the examples below: it accepts the empty
    object, with whitespace around it, and nothing else. *)
Definition parseEmptyObject (s : string) : option unit :=
  if String.eqb (trim s) "{}" then Some tt else None.

(** Three answers of a model that hold the empty object: fenced with the
    [json] tag, the same followed by a line break, and fenced without a
    tag. *)
Definition fencedAnswer : string := fenced newline "{}" newline.
Definition fencedAnswerThenNewline : string := fencedAnswer ++ newline.
Definition bareFencedAnswer : string :=
  closingFence ++ newline ++ "{}" ++ newline ++ closingFence.

(** ** Word definitions with a fallback provider (geminiService.ts) *)

Record ProcessEnv : Type := mkEnv {
  API_KEY : string;
  DEEPSEEK_API_KEY : string
}.

(** The requests that leave the client. *)
Inductive Request : Type :=
  | GeminiGenerateContent (apiKey model contents : string)
  | DeepSeekChatCompletion (apiKey systemPrompt userPrompt : string).

(** The answer to the chat-completion request: [response.ok],
    [response.statusText], and what reading
    [(await response.json()).choices[0].message.content] gives. *)
Record HttpResponse : Type := mkHttpResponse {
  ok : bool;
  statusText : string;
  messageContent : result string
}.

(** The two providers, as the client sees them: the primary one answers
    with [response.text] (possibly undefined) or fails, the secondary one
    answers the [fetch] or fails. *)
Record Services : Type := mkServices {
  generateContent : string -> string -> string -> result (option string);
  fetchChatCompletion : string -> string -> string -> result HttpResponse
}.

(** Computations that may throw and that log the requests they send. *)
Definition M (A : Type) : Type := list Request -> result A * list Request.

Definition ret {A : Type} (a : A) : M A := fun log => (Ok a, log).

Definition throw {A : Type} (e : exn) : M A := fun log => (Throw e, log).

Definition bind {A B : Type} (m : M A) (k : A -> M B) : M B :=
  fun log =>
    match m log with
    | (Ok a, log') => k a log'
    | (Throw e, log') => (Throw e, log')
    end.

Definition tryCatch {A : Type} (m : M A) (handler : exn -> M A) : M A :=
  fun log =>
    match m log with
    | (Ok a, log') => (Ok a, log')
    | (Throw e, log') => handler e log'
    end.

Definition send {A : Type} (r : Request) (answer : result A) : M A :=
  fun log => (answer, log ++ [r]).

Definition liftResult {A : Type} (r : result A) : M A := fun log => (r, log).

Notation "x <- m ;; k" := (bind m (fun x => k))
  (at level 100, m at next level, right associativity).

Definition isEmpty (s : string) : bool :=
  match s with
  | EmptyString => true
  | String _ _ => false
  end.

Definition dquote : string := String (ascii_of_nat 34) EmptyString.

Section WordDefinitions.
Variable JSON_parse : string -> option WordDefinition.
Variable env : ProcessEnv.
Variable services : Services.

(** [getAi]: the client is the key it was made with. *)
Definition getAi : M string :=
  let apiKey := API_KEY env in
  if isEmpty apiKey then
    throw (Error "API Key is missing. Please check your deployment environment variables.")
  else ret apiKey.

Definition callDeepSeek (systemPrompt userPrompt : string) : M string :=
  let deepSeekKey := DEEPSEEK_API_KEY env in
  if isEmpty deepSeekKey then throw (Error "DeepSeek API Key is missing")
  else
    response <- send (DeepSeekChatCompletion deepSeekKey systemPrompt userPrompt)
                     (fetchChatCompletion services deepSeekKey systemPrompt userPrompt) ;;
    if negb (ok response) then
      throw (Error ("DeepSeek API Error: " ++ statusText response))
    else liftResult (messageContent response).

Definition definitionPrompt (word contextSentence : string) : string :=
  "Define " ++ dquote ++ word ++ dquote ++ " in context: " ++ dquote
    ++ contextSentence ++ dquote
    ++ ". Return JSON with: word, definition (English), example, phonetic.".

(** [JSON.parse(response.text!)]: an undefined text does not parse. *)
Definition parseResponseText (responseText : option string) : M WordDefinition :=
  match responseText with
  | Some s =>
      match JSON_parse s with
      | Some value => ret value
      | None => throw (SyntaxError "Unexpected token")
      end
  | None => throw (SyntaxError "undefined is not valid JSON")
  end.

(** The body of the outer [try]. *)
Definition askGemini (prompt : string) : M WordDefinition :=
  ai <- getAi ;;
  responseText <- send (GeminiGenerateContent ai "gemini-2.5-flash" prompt)
                       (generateContent services ai "gemini-2.5-flash" prompt) ;;
  parseResponseText responseText.

(** The body of the inner [try]. *)
Definition askDeepSeek (prompt : string) : M WordDefinition :=
  let systemPrompt := "You are an English dictionary API. Output purely JSON." in
  responseText <- callDeepSeek systemPrompt prompt ;;
  liftResult (cleanAndParseJson JSON_parse responseText).

Definition getWordDefinition (word contextSentence : string) : M WordDefinition :=
  let prompt := definitionPrompt word contextSentence in
  tryCatch (askGemini prompt)
    (fun geminiError =>
       if negb (isEmpty (DEEPSEEK_API_KEY env)) then
         tryCatch (askDeepSeek prompt)
           (fun deepSeekError => throw deepSeekError)
       else throw geminiError).
End WordDefinitions.

Definition isDeepSeekRequest (r : Request) : bool :=
  match r with
  | DeepSeekChatCompletion _ _ _ => true
  | GeminiGenerateContent _ _ _ => false
  end.

(** The number of requests sent to the secondary provider. *)
Definition secondaryRequests (log : list Request) : nat :=
  length (List.filter isDeepSeekRequest log).

Definition dictionaryPrompt : string :=
  "You are an English dictionary API. Output purely JSON.".

(** A run in which both providers fail: the primary one answers 503, the
    request to the secondary one does not get through. *)
Module BothFail.
Definition env : ProcessEnv := mkEnv "primary-key" "secondary-key".
Definition primaryFailure : exn := Error "503 Service Unavailable".
Definition secondaryFailure : exn := TypeError "Failed to fetch".
Definition services : Services :=
  mkServices (fun _ _ _ => Throw primaryFailure)
             (fun _ _ _ => Throw secondaryFailure).
Definition JSON_parse (s : string) : option WordDefinition := None.
Definition run : result WordDefinition * list Request :=
  getWordDefinition JSON_parse env services "shadow" "Shadow the speaker." [].
End BothFail.

(** ** PCM playback (audioUtils.ts, playPcmData) *)

(** *** The platform's [atob]

    The forgiving base64 decoding of the browser: ASCII whitespace is
    dropped, one or two padding characters are accepted when the length is
    a multiple of four, a length of 1 modulo 4 or a character outside the
    alphabet is an error, and leftover bits are discarded. The result is a
    binary string: one character per byte. *)

Definition isAsciiWhitespace (c : ascii) : bool :=
  let n := nat_of_ascii c in
  (n =? 9)%nat || (n =? 10)%nat || (n =? 12)%nat || (n =? 13)%nat || (n =? 32)%nat.

Definition base64Value (c : ascii) : option Z :=
  let n := Z.of_nat (nat_of_ascii c) in
  if ((65 <=? n) && (n <=? 90))%Z then Some (n - 65)%Z
  else if ((97 <=? n) && (n <=? 122))%Z then Some (n - 71)%Z
  else if ((48 <=? n) && (n <=? 57))%Z then Some (n + 4)%Z
  else if (n =? 43)%Z then Some 62%Z
  else if (n =? 47)%Z then Some 63%Z
  else None.

Definition removeAsciiWhitespace (data : string) : list ascii :=
  List.filter (fun c => negb (isAsciiWhitespace c)) (list_ascii_of_string data).

Definition isPadding (c : ascii) : bool := (nat_of_ascii c =? 61)%nat.

Definition removePadding (data : list ascii) : list ascii :=
  if (length data mod 4 =? 0)%nat then
    match rev data with
    | p1 :: p2 :: r =>
        if isPadding p1 then (if isPadding p2 then rev r else rev (p2 :: r))
        else data
    | _ => data
    end
  else data.

Fixpoint sextets (data : list ascii) : option (list Z) :=
  match data with
  | [] => Some []
  | c :: data' =>
      match base64Value c, sextets data' with
      | Some v, Some vs => Some (v :: vs)
      | _, _ => None
      end
  end.

Definition byteOf (n : Z) (shift : Z) : Z := Z.land (Z.shiftr n shift) 255.

Fixpoint decodeSextets (vs : list Z) : list Z :=
  match vs with
  | a :: b :: c :: d :: rest =>
      let n := Z.lor (Z.shiftl a 18) (Z.lor (Z.shiftl b 12) (Z.lor (Z.shiftl c 6) d)) in
      byteOf n 16 :: byteOf n 8 :: byteOf n 0 :: decodeSextets rest
  | [a; b; c] =>
      let n := Z.shiftr (Z.lor (Z.shiftl a 12) (Z.lor (Z.shiftl b 6) c)) 2 in
      [byteOf n 8; byteOf n 0]
  | [a; b] =>
      let n := Z.shiftr (Z.lor (Z.shiftl a 6) b) 4 in
      [byteOf n 0]
  | _ => []
  end.

Definition binaryString (bytes : list Z) : string :=
  string_of_list_ascii (map (fun b => ascii_of_N (Z.to_N b)) bytes).

Definition atob (data : string) : result string :=
  let stripped := removePadding (removeAsciiWhitespace data) in
  if (length stripped mod 4 =? 1)%nat then
    Throw (InvalidCharacterError "The string to be decoded is not correctly encoded.")
  else
    match sextets stripped with
    | Some vs => Ok (binaryString (decodeSextets vs))
    | None =>
        Throw (InvalidCharacterError "The string to be decoded is not correctly encoded.")
    end.

(** *** The decoder *)

(** [bytes[i] = binaryString.charCodeAt(i)] for every position: the
    contents of the [Uint8Array]. *)
Definition charCodes (s : string) : list Z :=
  map (fun c => Z.of_nat (nat_of_ascii c)) (list_ascii_of_string s).

(** One element of the [Int16Array] view: two bytes, low byte first, read
    as a signed 16-bit integer. *)
Definition int16Of (lo hi : Z) : Z :=
  let u := Z.lor lo (Z.shiftl hi 8) in
  if (u <? 32768)%Z then u else (u - 65536)%Z.

Fixpoint int16Elements (bytes : list Z) : list Z :=
  match bytes with
  | lo :: hi :: rest => int16Of lo hi :: int16Elements rest
  | _ => []
  end.

Definition oddLength : exn :=
  RangeError "byte length of Int16Array should be a multiple of 2".

(** [new Int16Array(bytes.buffer)]: a buffer whose byte length is odd is
    refused with a [RangeError]. *)
Definition newInt16Array (bytes : list Z) : result (list Z) :=
  if Nat.even (length bytes) then Ok (int16Elements bytes)
  else Throw oddLength.

(** The [number] that holds a 16-bit integer. *)
Definition numberOfInt16 (v : Z) : float :=
  if (v <? 0)%Z then (- of_uint63 (of_Z (- v)))%float
  else of_uint63 (of_Z v).

(** [int16Data[i] / 32768.0]; the quotient has at most 16 significant bits,
    so storing it in the [Float32Array] does not change it. *)
Definition sampleOf (v : Z) : float := (numberOfInt16 v / 32768.0)%float.

Definition sampleInRange (x : float) : bool :=
  (-1 <=? x)%float && (x <? 1)%float.

(** The values a byte can take. *)
Definition byteValues : list Z := map Z.of_nat (seq 0 256).

Definition noFrames : exn :=
  NotSupportedError "The number of frames provided (0) is less than or equal to the minimum bound (0).".

(** [ctx.createBuffer(1, length, 24000)]: one channel of [length] frames,
    all zero; a buffer of no frames is refused with a [NotSupportedError]. *)
Definition createBuffer (numberOfFrames : nat) : result (list float) :=
  match numberOfFrames with
  | O => Throw noFrames
  | S _ => Ok (repeat 0%float numberOfFrames)
  end.

(** The loop [channelData[i] = int16Data[i] / 32768.0] over the positions
    of [int16Data]. *)
Fixpoint fillChannel (int16Data : list Z) (channelData : list float) : list float :=
  match int16Data, channelData with
  | v :: int16Data', _ :: channelData' => sampleOf v :: fillChannel int16Data' channelData'
  | _, _ => channelData
  end.

(** The function, up to the channel data of the buffer that it hands to
    the audio context. *)
Definition playPcmData (base64String : string) : result (list float) :=
  match atob base64String with
  | Throw e => Throw e
  | Ok decoded =>
      let bytes := charCodes decoded in
      match newInt16Array bytes with
      | Throw e => Throw e
      | Ok int16Data =>
          match createBuffer (length int16Data) with
          | Throw e => Throw e
          | Ok channelData => Ok (fillChannel int16Data channelData)
          end
      end
  end.

(** * The rest of the client

    The functions around the ones above: reading a file, the other calls
    to the primary provider, the word and idiom handlers of the transcript
    view, the upload check, the player, the shadowing view and the session
    state of the application. *)

(** ** [String.prototype.split] with a one-character separator *)

Fixpoint splitOnLoop (sep : ascii) (s piece : string) : list string :=
  match s with
  | EmptyString => [piece]
  | String c s' =>
      if Ascii.eqb c sep then piece :: splitOnLoop sep s' EmptyString
      else splitOnLoop sep s' (piece ++ String c EmptyString)
  end.

(** [s.split(sep)] *)
Definition splitOn (sep : ascii) (s : string) : list string :=
  splitOnLoop sep s EmptyString.

Definition comma : ascii := ascii_of_nat 44.
Definition space : ascii := ascii_of_nat 32.
Definition dot : ascii := ascii_of_nat 46.

Fixpoint contains (c : ascii) (s : string) : bool :=
  match s with
  | EmptyString => false
  | String d s' => Ascii.eqb d c || contains c s'
  end.

(** ** Files (geminiService.ts, fileToBase64) *)

(** A [File] or [Blob], as far as the client looks at it: its name, size
    and MIME type, and what a [FileReader] gives when it reads it as a data
    URL (the reader's error when it fails). *)
Record File : Type := mkFile {
  fileName : string;
  fileSize : Z;
  fileType : string;
  readAsDataURL : result string
}.

(** [result.split(',')[1] || result]: the second field when there is one
    and it is not empty, the whole result otherwise. *)
Definition base64OfDataURL (dataURL : string) : string :=
  orElse (nth 1 (splitOn comma dataURL) EmptyString) dataURL.

Definition fileToBase64 (file : File) : result string :=
  match readAsDataURL file with
  | Ok dataURL => Ok (base64OfDataURL dataURL)
  | Throw e => Throw e
  end.

(** ** Upload check (components/FileUpload.tsx, handleInputChange) *)

(** [toLowerCase] on code units below 256: the letters A-Z, and the
    upper-case letters of the second half of the range. *)
Definition lowerChar (c : ascii) : ascii :=
  let n := nat_of_ascii c in
  if ((65 <=? n) && (n <=? 90))%nat then ascii_of_nat (n + 32)
  else if ((192 <=? n) && (n <=? 222) && negb (n =? 215))%nat then ascii_of_nat (n + 32)
  else c.

Fixpoint toLowerCase (s : string) : string :=
  match s with
  | EmptyString => EmptyString
  | String c s' => String (lowerChar c) (toLowerCase s')
  end.

(** [s.startsWith(p)] *)
Definition startsWith (p s : string) : bool :=
  match stripPrefix p s with
  | Some _ => true
  | None => false
  end.

(** Whether [s] ends with [suffix]: a pattern [suffix$]. *)
Fixpoint endsWith (suffix s : string) : bool :=
  String.eqb s suffix
  || match s with
     | EmptyString => false
     | String _ s' => endsWith suffix s'
     end.

Definition validAudioTypes : list string :=
  ["audio/"; "application/ogg"; "video/mp4"; "video/webm"].

(** The alternatives of [/\.(mp3|wav|flac|m4a|aac|ogg|apk\.1)$/]. *)
Definition audioSuffixes : list string :=
  [".mp3"; ".wav"; ".flac"; ".m4a"; ".aac"; ".ogg"; ".apk.1"].

Definition isAudioByName (name : string) : bool :=
  let fileName := toLowerCase name in
  existsb (fun suffix => endsWith suffix fileName) audioSuffixes.

Definition isAudioByMime (mime : string) : bool :=
  existsb (fun prefix => startsWith prefix mime) validAudioTypes.

Definition invalidFileMessage : string :=
  "Please select a valid audio file (MP3, WAV, FLAC, M4A).".

(** The handler of the file input: the error message it leaves, and the
    file it hands to [onFileSelected], if any. *)
Definition handleInputChange (file : option File) : option string * option File :=
  match file with
  | None => (None, None)
  | Some f =>
      if isAudioByMime (fileType f) || isAudioByName (fileName f) then (None, Some f)
      else (Some invalidFileMessage, None)
  end.

(** ** Calls that carry audio (geminiService.ts) *)

Definition TRANSCRIPTION_MODEL : string := "gemini-2.5-flash".
Definition TTS_MODEL : string := "gemini-2.5-flash-preview-tts".

(** The requests of [transcribeAudio] and [generateSpeech]. *)
Inductive AudioRequest : Type :=
  | GenerateFromAudio (apiKey model mimeType data prompt : string)
  | GenerateSpeech (apiKey model voiceName contents : string).

(** The primary provider on these requests: [response.text] of the
    answer to the first, the inline audio data of the first candidate of the
    answer to the second (either may be undefined), or a failure. *)
Record AudioServices : Type := mkAudioServices {
  generateFromAudio : string -> string -> string -> string -> string -> result (option string);
  generateAudio : string -> string -> string -> string -> result (option string)
}.

(** Computations that may throw and that log the audio requests. *)
Definition Logged (A : Type) : Type :=
  list AudioRequest -> result A * list AudioRequest.

Definition pureL {A : Type} (a : A) : Logged A := fun log => (Ok a, log).

Definition throwL {A : Type} (e : exn) : Logged A := fun log => (Throw e, log).

Definition bindL {A B : Type} (m : Logged A) (k : A -> Logged B) : Logged B :=
  fun log =>
    match m log with
    | (Ok a, log') => k a log'
    | (Throw e, log') => (Throw e, log')
    end.

Definition catchL {A : Type} (m : Logged A) (handler : exn -> Logged A) : Logged A :=
  fun log =>
    match m log with
    | (Ok a, log') => (Ok a, log')
    | (Throw e, log') => handler e log'
    end.

Definition sendL {A : Type} (r : AudioRequest) (answer : result A) : Logged A :=
  fun log => (answer, log ++ [r]).

Definition liftL {A : Type} (r : result A) : Logged A := fun log => (r, log).

Notation "x <~ m ;; k" := (bindL m (fun x => k))
  (at level 100, m at next level, right associativity).

Definition missingApiKey : exn :=
  Error "API Key is missing. Please check your deployment environment variables.".

Definition emptyResponse : exn := Error "Empty response from Gemini".
Definition noAudioData : exn := Error "No audio data returned".

Definition transcribePrompt : string :=
  "Transcribe and analyze this audio for an English learner.".

Section AudioCalls.
Variable JSON_parse : string -> option TranscriptionResponse.
Variable env : ProcessEnv.
Variable services : AudioServices.

(** [getAi] for these calls. *)
Definition getAiL : Logged string :=
  let apiKey := API_KEY env in
  if isEmpty apiKey then throwL missingApiKey else pureL apiKey.

(** [parsed.segments = mergeShortSegments(parsed.segments)] *)
Definition withMergedSegments (parsed : TranscriptionResponse) : TranscriptionResponse :=
  {| language := language parsed;
     segments := mergeShortSegments (segments parsed);
     meta := meta parsed |}.

(** [JSON.parse(response.text)] for a text that is there. *)
Definition parseTranscription (responseText : string) : Logged TranscriptionResponse :=
  match JSON_parse responseText with
  | Some parsed => pureL (withMergedSegments parsed)
  | None => throwL (SyntaxError "Unexpected token")
  end.

Definition transcribeAudio (file : File) : Logged TranscriptionResponse :=
  base64Audio <~ liftL (fileToBase64 file) ;;
  catchL
    (ai <~ getAiL ;;
     responseText <~
       sendL (GenerateFromAudio ai TRANSCRIPTION_MODEL
                (orElse (fileType file) "audio/mp3") base64Audio transcribePrompt)
             (generateFromAudio services ai TRANSCRIPTION_MODEL
                (orElse (fileType file) "audio/mp3") base64Audio transcribePrompt) ;;
     match responseText with
     | Some (String c t) => parseTranscription (String c t)
     | Some EmptyString | None => throwL emptyResponse
     end)
    (fun error => throwL error).

Definition generateSpeech (contents : string) : Logged string :=
  catchL
    (ai <~ getAiL ;;
     audioData <~
       sendL (GenerateSpeech ai TTS_MODEL "Kore" contents)
             (generateAudio services ai TTS_MODEL "Kore" contents) ;;
     match audioData with
     | Some (String c t) => pureL (String c t)
     | Some EmptyString | None => throwL noAudioData
     end)
    (fun error => throwL error).
End AudioCalls.

(** ** Idiom playback with a cache (components/TranscriptView.tsx) *)

(** The object [audioCache], from text to base64 audio, by its own
    properties: the entry set last for a key is the one that is read. *)
Definition AudioCache : Type := list (string * string).

Fixpoint ownProperty (cache : AudioCache) (key : string) : option string :=
  match cache with
  | [] => None
  | (k, v) :: cache' => if String.eqb k key then Some v else ownProperty cache' key
  end.

(** The cache is a plain object, so a key that it does not hold itself is
    looked up in [Object.prototype]: these are the properties of the
    prototype, all of them functions but [__proto__], which reads as the
    prototype itself. *)
Definition objectPrototypeMembers : list string :=
  ["constructor"; "hasOwnProperty"; "isPrototypeOf"; "propertyIsEnumerable";
   "toLocaleString"; "toString"; "valueOf"; "__proto__"; "__defineGetter__";
   "__defineSetter__"; "__lookupGetter__"; "__lookupSetter__"].

Definition inheritsFromObject (key : string) : bool :=
  existsb (String.eqb key) objectPrototypeMembers.

(** What reading a key gives when it gives something: audio that was set
    for the key, or the member of the prototype of that name. *)
Inductive CacheValue : Type :=
  | Audio (data : string)
  | Inherited (member : string).

(** [audioCache[text]] *)
Definition cacheLookup (cache : AudioCache) (key : string) : option CacheValue :=
  match ownProperty cache key with
  | Some data => Some (Audio data)
  | None => if inheritsFromObject key then Some (Inherited key) else None
  end.

(** Truthiness of what was read: an object is truthy, a string unless it
    is empty. *)
Definition truthyValue (value : option CacheValue) : bool :=
  match value with
  | Some (Audio (String _ _)) | Some (Inherited _) => true
  | Some (Audio EmptyString) | None => false
  end.

(** The string that [atob] makes of a member of the prototype: the source
    text of a built-in function, and for [__proto__] that of an object.
    The text of a built-in function is written as V8 gives it; in every
    engine it has the parentheses and braces of the function syntax, which
    are not base64. *)
Definition inheritedText (member : string) : string :=
  if String.eqb member "__proto__" then "[object Object]"
  else if String.eqb member "constructor" then "function Object() { [native code] }"
  else "function " ++ member ++ "() { [native code] }".

(** [{...prev, [text]: audioData}] *)
Definition cacheSet (cache : AudioCache) (key value : string) : AudioCache :=
  (key, value) :: cache.

Record IdiomPlayback : Type := mkIdiomPlayback {
  audioCache : AudioCache;
  loadingIdiomText : option string;
  playingIdiomText : option string
}.

(** Truthiness of a string state that may be null. *)
Definition truthyText (t : option string) : bool :=
  match t with
  | Some (String _ _) => true
  | Some EmptyString | None => false
  end.

(** What one run of the handler leaves behind: the state, the log, and the
    samples handed to the audio context when the playback went through. *)
Record PlayOutcome : Type := mkPlayOutcome {
  playbackState : IdiomPlayback;
  requestLog : list AudioRequest;
  played : option (list float)
}.

Section IdiomHandler.
Variable env : ProcessEnv.
Variable services : AudioServices.

(** [await playPcmData(audioData)] inside the [try], then the [finally]:
    a failure of the playback is caught, resets the loading mark and plays
    nothing. *)
Definition playAndFinish (cache : AudioCache) (loading : option string)
    (audioData : string) (log : list AudioRequest) : PlayOutcome :=
  match playPcmData audioData with
  | Ok samples =>
      {| playbackState := mkIdiomPlayback cache loading None;
         requestLog := log; played := Some samples |}
  | Throw _ =>
      {| playbackState := mkIdiomPlayback cache None None;
         requestLog := log; played := None |}
  end.

(** [audioData = await generateSpeech(text)] and what follows it. *)
Definition fetchAndPlay (contents : string) (st : IdiomPlayback)
    (log : list AudioRequest) : PlayOutcome :=
  match generateSpeech env services contents log with
  | (Ok audioData, log') =>
      playAndFinish (cacheSet (audioCache st) contents audioData) None
        audioData log'
  | (Throw _, log') =>
      {| playbackState := mkIdiomPlayback (audioCache st) None None;
         requestLog := log'; played := None |}
  end.

(** The handler, run on the state of the render it belongs to; one handler
    runs at a time. What was read from the cache and is truthy goes to
    [playPcmData], a member of the prototype as the string [atob] makes of
    it. *)
Definition handlePlayIdiom (contents : string) (st : IdiomPlayback)
    (log : list AudioRequest) : PlayOutcome :=
  if truthyText (loadingIdiomText st) then
    {| playbackState := st; requestLog := log; played := None |}
  else
    match cacheLookup (audioCache st) contents with
    | Some (Audio (String c t)) =>
        playAndFinish (audioCache st) (loadingIdiomText st) (String c t) log
    | Some (Inherited member) =>
        playAndFinish (audioCache st) (loadingIdiomText st) (inheritedText member) log
    | Some (Audio EmptyString) | None => fetchAndPlay contents st log
    end.
End IdiomHandler.

(** What goes to [playPcmData] for a value read from the cache. *)
Definition playedText (value : CacheValue) : string :=
  match value with
  | Audio data => data
  | Inherited member => inheritedText member
  end.

(** ** Word lookup from the transcript (components/TranscriptView.tsx) *)

(** The class [\w] with the apostrophe: what [/[^\w']/g] leaves in place. *)
Definition isWordChar (c : ascii) : bool :=
  let n := nat_of_ascii c in
  ((48 <=? n) && (n <=? 57))%nat || ((65 <=? n) && (n <=? 90))%nat
  || ((97 <=? n) && (n <=? 122))%nat || (n =? 95)%nat || (n =? 39)%nat.

(** [word.replace(/[^\w']/g, "")] *)
Fixpoint cleanWord (w : string) : string :=
  match w with
  | EmptyString => EmptyString
  | String c w' => if isWordChar c then String c (cleanWord w') else cleanWord w'
  end.

Fixpoint allWordChars (w : string) : bool :=
  match w with
  | EmptyString => true
  | String c w' => isWordChar c && allWordChars w'
  end.

(** The words that the view renders for a segment: [segment.text.split(' ')]. *)
Definition renderedWords (segment : TranscriptionSegment) : list string :=
  splitOn space (text segment).

Section WordClick.
Variable JSON_parse : string -> option WordDefinition.
Variable env : ProcessEnv.
Variable services : Services.

(** The handler; its value is the [definition] state that it leaves. *)
Definition handleWordClick (clicked segmentText : string)
    (definition : option WordDefinition) : M (option WordDefinition) :=
  let cleaned := cleanWord clicked in
  if isEmpty cleaned then ret definition
  else
    tryCatch
      (def <- getWordDefinition JSON_parse env services cleaned segmentText ;;
       ret (Some def))
      (fun err => ret definition).
End WordClick.

(** ** Session state (App.tsx) *)

Inductive AppState : Type := IDLE | PROCESSING | READY | SHADOWING | ERROR.

Inductive Tab : Type := original | notes | favorites.

(** A blob URL is a string that the platform makes unique. The URL of a
    file is one that [handleFileSelected] created: the model keeps its
    number among the URLs that this component created. *)
Record AudioFileMetadata : Type := mkAudioFile {
  name : string;
  size : Z;
  type : string;
  url : nat;
  originalFile : File
}.

(** The state of the component, and the blob URLs that it created itself,
    one for each selected file: [liveUrls] are the ones among them that it
    has not revoked, [nextUrl] is the number of the next one. The URLs that
    the transcript view creates for recordings are not among them; they are
    in [recordingUrls] of that view. *)
Record Session : Type := mkSession {
  appState : AppState;
  audioFile : option AudioFileMetadata;
  transcription : option TranscriptionResponse;
  currentTime : float;
  activeTab : Tab;
  liveUrls : list nat;
  nextUrl : nat
}.

Definition initialSession : Session :=
  {| appState := IDLE; audioFile := None; transcription := None;
     currentTime := 0; activeTab := original; liveUrls := []; nextUrl := 0 |}.

(** [URL.revokeObjectURL] *)
Definition revokeObjectURL (u : nat) (live : list nat) : list nat :=
  List.filter (fun v => negb (Nat.eqb v u)) live.

(** The cleanup of the effect on [audioFile]: it runs when the file changes
    and on the file that it replaces. *)
Definition cleanupAudioFile (previous : option AudioFileMetadata)
    (live : list nat) : list nat :=
  match previous with
  | Some f => revokeObjectURL (url f) live
  | None => live
  end.

(** [handleFileSelected] up to its [await]. *)
Definition handleFileSelected (file : File) (s : Session) : Session :=
  let u := nextUrl s in
  {| appState := PROCESSING;
     audioFile := Some {| name := fileName file; size := fileSize file;
                          type := fileType file; url := u; originalFile := file |};
     transcription := transcription s;
     currentTime := currentTime s;
     activeTab := activeTab s;
     liveUrls := cleanupAudioFile (audioFile s) (u :: liveUrls s);
     nextUrl := S u |}.

(** [handleFileSelected] after its [await]: the transcription came back or
    the call threw. *)
Definition transcriptionSettled (outcome : result TranscriptionResponse)
    (s : Session) : Session :=
  match outcome with
  | Ok response =>
      {| appState := READY; audioFile := audioFile s;
         transcription := Some response; currentTime := currentTime s;
         activeTab := activeTab s; liveUrls := liveUrls s; nextUrl := nextUrl s |}
  | Throw _ =>
      {| appState := ERROR; audioFile := audioFile s;
         transcription := transcription s; currentTime := currentTime s;
         activeTab := activeTab s; liveUrls := liveUrls s; nextUrl := nextUrl s |}
  end.

Definition handleReset (s : Session) : Session :=
  {| appState := IDLE; audioFile := None; transcription := None;
     currentTime := 0; activeTab := activeTab s;
     liveUrls := cleanupAudioFile (audioFile s) (liveUrls s);
     nextUrl := nextUrl s |}.

Definition setAppState (a : AppState) (s : Session) : Session :=
  {| appState := a; audioFile := audioFile s; transcription := transcription s;
     currentTime := currentTime s; activeTab := activeTab s;
     liveUrls := liveUrls s; nextUrl := nextUrl s |}.

Definition setTranscription (t : option TranscriptionResponse) (s : Session) : Session :=
  {| appState := appState s; audioFile := audioFile s; transcription := t;
     currentTime := currentTime s; activeTab := activeTab s;
     liveUrls := liveUrls s; nextUrl := nextUrl s |}.

Definition setCurrentTime (t : float) (s : Session) : Session :=
  {| appState := appState s; audioFile := audioFile s;
     transcription := transcription s; currentTime := t;
     activeTab := activeTab s; liveUrls := liveUrls s; nextUrl := nextUrl s |}.

Definition setActiveTab (t : Tab) (s : Session) : Session :=
  {| appState := appState s; audioFile := audioFile s;
     transcription := transcription s; currentTime := currentTime s;
     activeTab := t; liveUrls := liveUrls s; nextUrl := nextUrl s |}.

(** What the user and the pending call can do to the session: the events
    that this component handles. What happens inside the transcript view
    (words, idioms, recordings) changes the state of that view, not the
    session. *)
Inductive Event : Type :=
  | FileSelected (file : File)
  | TranscriptionSettled (outcome : result TranscriptionResponse)
  | Reset
  | ToggleFavorite (index : nat)
  | TabClicked (t : Tab)
  | TimeChanged (t : float)
  | EnterShadowing
  | CloseShadowing.

(** A handler that throws leaves the state as it was. *)
Definition handleEvent (s : Session) (e : Event) : Session :=
  match e with
  | FileSelected file => handleFileSelected file s
  | TranscriptionSettled outcome => transcriptionSettled outcome s
  | Reset => handleReset s
  | ToggleFavorite index =>
      match handleToggleFavorite index (transcription s) with
      | Ok t => setTranscription t s
      | Throw _ => s
      end
  | TabClicked t => setActiveTab t s
  | TimeChanged t => setCurrentTime t s
  | EnterShadowing => setAppState SHADOWING s
  | CloseShadowing => setAppState READY s
  end.

Definition runEvents (s : Session) (events : list Event) : Session :=
  fold_left handleEvent events s.

(** [displayedSegments]: the favourites when that tab is open and there is
    a transcription, all the segments otherwise, none without a
    transcription. *)
Definition displayedSegments (s : Session) : list TranscriptionSegment :=
  match activeTab s, transcription s with
  | favorites, Some t => List.filter (fun seg => truthy (isFavorite seg)) (segments t)
  | _, Some t => segments t
  | _, None => []
  end.

(** What the component renders of the main parts. *)
Definition showsUpload (s : Session) : bool :=
  match appState s with IDLE => true | _ => false end.

Definition showsSpinner (s : Session) : bool :=
  match appState s with PROCESSING => true | _ => false end.

Definition showsContent (s : Session) : bool :=
  match appState s, transcription s, audioFile s with
  | READY, Some _, Some _ => true
  | _, _, _ => false
  end.

Definition showsPlayer (s : Session) : bool :=
  match appState s, audioFile s with
  | READY, Some _ => true
  | _, _ => false
  end.

Definition showsShadowing (s : Session) : bool :=
  match appState s, transcription s with
  | SHADOWING, Some _ => true
  | _, _ => false
  end.

(** ** Shadowing view (components/ShadowingView.tsx) *)

(** [Math.max(0, currentIndex - 1)] and
    [Math.min(segments.length - 1, currentIndex + 1)] *)
Definition prevIndex (currentIndex : Z) : Z := Z.max 0 (currentIndex - 1).

Definition nextIndex (len : nat) (currentIndex : Z) : Z :=
  Z.min (Z.of_nat len - 1) (currentIndex + 1).

Inductive Navigation : Type := Prev | Next.

Definition navigate (len : nat) (currentIndex : Z) (n : Navigation) : Z :=
  match n with
  | Prev => prevIndex currentIndex
  | Next => nextIndex len currentIndex
  end.

(** [segments[currentIndex]]; undefined outside the list. *)
Definition currentSegment (segs : list TranscriptionSegment) (currentIndex : Z)
    : option TranscriptionSegment :=
  if (currentIndex <? 0)%Z then None else segs !! Z.to_nat currentIndex.

(** ** Player (components/AudioPlayer.tsx) *)

Definition rates : list float := [0.75; 1; 1.25; 1.5]%float.

(** [rates.indexOf(x)]: strict equality of numbers, -1 when nothing is
    equal. *)
Fixpoint indexOfFrom (x : float) (l : list float) (i : Z) : Z :=
  match l with
  | [] => (-1)%Z
  | y :: l' => if (y =? x)%float then i else indexOfFrom x l' (i + 1)%Z
  end.

Definition indexOf (x : float) (l : list float) : Z := indexOfFrom x l 0.

(** [changeSpeed]: the new playback rate. *)
Definition changeSpeed (playbackRate : float) : float :=
  let nextIdx := ((indexOf playbackRate rates + 1) mod Z.of_nat (length rates))%Z in
  nth (Z.to_nat nextIdx) rates nan.

(** The effect on [currentTime]: the position of the audio element after
    it, given the position the element reports ([None] without an element)
    and the time of the session. *)
Definition syncAudioElement (elementTime : option float) (sessionTime : float)
    : option float :=
  match elementTime with
  | None => None
  | Some t =>
      if (0.5 <? abs (t - sessionTime))%float then Some sessionTime else Some t
  end.

(** ** A block of consecutive segments merged into one *)

(** The accumulator after it has taken in [others], one after the other. *)
Definition collapse (block : TranscriptionSegment * list TranscriptionSegment)
    : TranscriptionSegment :=
  fold_left mergeInto block.2 block.1.

Definition blockSegments (block : TranscriptionSegment * list TranscriptionSegment)
    : list TranscriptionSegment :=
  block.1 :: block.2.

(** The last string of the list that is not empty, [dflt] when all are. *)
Definition lastNonEmpty (dflt : string) (l : list string) : string :=
  fold_left (fun acc x => orElse x acc) l dflt.

(** ** What the user can do in a state of the session

    Read off what is rendered: the file input in [IDLE], the tab bar in
    [READY], the bookmarks and the segments with the content, the button
    into the shadowing view with the player, the button out of it with the
    view, and the reset button always. A pending call can settle at any
    time. *)
Definition isNotes (t : Tab) : bool :=
  match t with notes => true | _ => false end.

Definition available (s : Session) (e : Event) : bool :=
  match e with
  | FileSelected _ => showsUpload s
  | TranscriptionSettled _ => true
  | Reset => true
  | ToggleFavorite _ => showsContent s && negb (isNotes (activeTab s))
  | TabClicked _ => match appState s with READY => true | _ => false end
  | TimeChanged _ =>
      (showsContent s && negb (isNotes (activeTab s))) || showsPlayer s
  | EnterShadowing => showsPlayer s
  | CloseShadowing => showsShadowing s
  end.

Definition isFavoritesCount (segs : list TranscriptionSegment) : nat :=
  length (List.filter (fun seg => truthy (isFavorite seg)) segs).

(** Whether a computation ended in a throw. *)
Definition failed {A : Type} (r : result A) : bool :=
  match r with
  | Ok _ => false
  | Throw _ => true
  end.

(** One step of a session in which the user only does what the rendered
    page offers: anything else does not happen. *)
Definition step (s : Session) (e : Event) : Session :=
  if available s e then handleEvent s e else s.

Definition interact (s : Session) (events : list Event) : Session :=
  fold_left step events s.

(** The blob URL of the current file, if there is one. *)
Definition currentUrls (s : Session) : list nat :=
  match audioFile s with
  | Some f => [url f]
  | None => []
  end.

(** Of the blob URLs that the component created, the one of the current
    file is the only one that is not revoked, and the next URL is a new
    one. *)
Definition urlsAccounted (s : Session) : Prop :=
  liveUrls s = currentUrls s
  /\ forall f, audioFile s = Some f -> url f < nextUrl s.

(** What holds of a session in which the user only does what is offered. *)
Definition consistent (s : Session) : Prop :=
  match appState s with
  | IDLE => audioFile s = None /\ transcription s = None
  | PROCESSING => is_Some (audioFile s)
  | READY => is_Some (transcription s)
  | SHADOWING => is_Some (transcription s) /\ is_Some (audioFile s)
  | ERROR => True
  end.

(** The request of a transcription. *)
Definition transcriptionRequest (env : ProcessEnv) (file : File) (dataURL : string)
    : AudioRequest :=
  GenerateFromAudio (API_KEY env) TRANSCRIPTION_MODEL
    (orElse (fileType file) "audio/mp3") (base64OfDataURL dataURL) transcribePrompt.

(** The answer of the provider to it. *)
Definition transcriptionAnswer (env : ProcessEnv) (services : AudioServices)
    (file : File) (dataURL : string) : result (option string) :=
  generateFromAudio services (API_KEY env) TRANSCRIPTION_MODEL
    (orElse (fileType file) "audio/mp3") (base64OfDataURL dataURL) transcribePrompt.

(** ** Pronunciation scores (types.ts; geminiService.ts, scorePronunciation) *)

Record PronunciationScore : Type := mkScore {
  score : float;
  feedback : string;
  accuracy : string
}.

Definition scoringFailed : exn := Error "Scoring failed".

(** The template of the prompt, with its line breaks and indentation. *)
Definition scorePrompt (referenceText : string) : string :=
  newline ++ "    Listen to this user recording and compare it to the text: "
    ++ dquote ++ referenceText ++ dquote ++ "." ++ newline
    ++ "    Grade the pronunciation accuracy from 0 to 100." ++ newline
    ++ "    Provide brief feedback." ++ newline
    ++ "    Return JSON: { score: number, feedback: string, accuracy: 'good'|'average'|'poor' }"
    ++ newline ++ "  ".

Section Scoring.
Variable JSON_parse : string -> option PronunciationScore.
Variable env : ProcessEnv.
Variable services : AudioServices.

Definition scorePronunciation (userAudio : File) (referenceText : string)
    : Logged PronunciationScore :=
  base64Audio <~ liftL (fileToBase64 userAudio) ;;
  catchL
    (ai <~ getAiL env ;;
     responseText <~
       sendL (GenerateFromAudio ai TRANSCRIPTION_MODEL "audio/webm" base64Audio
                (scorePrompt referenceText))
             (generateFromAudio services ai TRANSCRIPTION_MODEL "audio/webm"
                base64Audio (scorePrompt referenceText)) ;;
     match responseText with
     | Some (String c t) =>
         match JSON_parse (String c t) with
         | Some value => pureL value
         | None => throwL (SyntaxError "Unexpected token")
         end
     | Some EmptyString | None => throwL scoringFailed
     end)
    (fun error => throwL error).
End Scoring.

(** ** Handlers of the shadowing view (components/ShadowingView.tsx) *)

(** What a handler leaves behind: the state (or what it handed to the audio
    context), the log, and the error its promise is rejected with, if it
    is. *)
Record Handled (S : Type) : Type := mkHandled {
  stateAfter : S;
  requestsAfter : list AudioRequest;
  rejection : option exn
}.

Arguments mkHandled {S} _ _ _.
Arguments stateAfter {S} _.
Arguments requestsAfter {S} _.
Arguments rejection {S} _.

(** The state [score] of the view is [shownScore] here. *)
Record ShadowingState : Type := mkShadowing {
  isRecording : bool;
  shownScore : option PronunciationScore;
  isProcessing : bool
}.

Definition undefinedSegment : exn := TypeError "Cannot read properties of undefined".

(** [playPcmData(audio)] without [await]: a failure of the playback stays
    in its own promise. *)
Definition startPlayback (audio : string) : option (list float) :=
  match playPcmData audio with
  | Ok samples => Some samples
  | Throw _ => None
  end.

Section ShadowingHandlers.
Variable JSON_parse : string -> option PronunciationScore.
Variable env : ProcessEnv.
Variable services : AudioServices.
(** [recorder.start()] and [recorder.stop()]: the first throws when the
    microphone is refused, the second gives the recorded blob. *)
Variable recorderStart : result unit.
Variable recorderStop : result File.

Definition handleRecordToggle (current : option TranscriptionSegment)
    (st : ShadowingState) (log : list AudioRequest) : Handled ShadowingState :=
  if isRecording st then
    match recorderStop with
    | Throw e =>
        mkHandled (mkShadowing false (shownScore st) (isProcessing st)) log (Some e)
    | Ok audioBlob =>
        match current with
        | None => mkHandled (mkShadowing false (shownScore st) false) log None
        | Some segment =>
            match scorePronunciation JSON_parse env services audioBlob (text segment) log with
            | (Ok result, log') =>
                mkHandled (mkShadowing false (Some result) false) log' None
            | (Throw _, log') =>
                mkHandled (mkShadowing false (shownScore st) false) log' None
            end
        end
    end
  else
    match recorderStart with
    | Throw e => mkHandled (mkShadowing (isRecording st) None (isProcessing st)) log (Some e)
    | Ok _ => mkHandled (mkShadowing true None (isProcessing st)) log None
    end.

Definition playOriginal (current : option TranscriptionSegment)
    (log : list AudioRequest) : Handled (option (list float)) :=
  match current with
  | None => mkHandled None log None
  | Some segment =>
      match generateSpeech env services (text segment) log with
      | (Ok audio, log') => mkHandled (startPlayback audio) log' None
      | (Throw _, log') => mkHandled None log' None
      end
  end.

Definition playIdiom (current : option TranscriptionSegment)
    (log : list AudioRequest) : Handled (option (list float)) :=
  match current with
  | None => mkHandled None log (Some undefinedSegment)
  | Some segment =>
      if isEmpty (idiomatic segment) then mkHandled None log None
      else
        match generateSpeech env services (idiomatic segment) log with
        | (Ok audio, log') => mkHandled (startPlayback audio) log' None
        | (Throw e, log') => mkHandled None log' (Some e)
        end
  end.
End ShadowingHandlers.

(** ** Recording an idiom in the transcript (components/TranscriptView.tsx) *)

(** Objects used as maps from text: the entry set last for a key is the one
    that is read, and [delete] removes the key. *)
Fixpoint lookupKey {V : Type} (entries : list (string * V)) (key : string) : option V :=
  match entries with
  | [] => None
  | (k, v) :: entries' => if String.eqb k key then Some v else lookupKey entries' key
  end.

Definition setKey {V : Type} (entries : list (string * V)) (key : string) (value : V)
    : list (string * V) :=
  (key, value) :: entries.

Definition deleteKey {V : Type} (entries : list (string * V)) (key : string)
    : list (string * V) :=
  List.filter (fun entry => negb (String.eqb entry.1 key)) entries.

(** The recording state of the view, and the blob URLs that the view
    created for recordings and that are not revoked, each with its number
    among the URLs that the view created. *)
Record RecordingState : Type := mkRecording {
  recordingIdiomText : option string;
  scoringIdiomText : option string;
  idiomScores : list (string * PronunciationScore);
  userRecordings : list (string * nat);
  recordingUrls : list nat;
  nextRecordingUrl : nat
}.

(** [recordingIdiomText === text] *)
Definition isText (t : option string) (text : string) : bool :=
  match t with
  | Some s => String.eqb s text
  | None => false
  end.

Section IdiomRecording.
Variable JSON_parse : string -> option PronunciationScore.
Variable env : ProcessEnv.
Variable services : AudioServices.
Variable recorderStart : result unit.
Variable recorderStop : result File.

Definition handleToggleRecordIdiom (contents : string) (st : RecordingState)
    (log : list AudioRequest) : RecordingState * list AudioRequest :=
  if isText (recordingIdiomText st) contents then
    match recorderStop with
    | Throw _ =>
        (mkRecording None None (idiomScores st) (userRecordings st)
           (recordingUrls st) (nextRecordingUrl st), log)
    | Ok blob =>
        let url := nextRecordingUrl st in
        let recordings := setKey (userRecordings st) contents url in
        match scorePronunciation JSON_parse env services blob contents log with
        | (Ok result, log') =>
            (mkRecording None None (setKey (idiomScores st) contents result)
               recordings (url :: recordingUrls st) (S url), log')
        | (Throw _, log') =>
            (mkRecording None None (idiomScores st) recordings
               (url :: recordingUrls st) (S url), log')
        end
    end
  else if truthyText (recordingIdiomText st) then (st, log)
  else
    match recorderStart with
    | Ok _ =>
        (mkRecording (Some contents) (scoringIdiomText st)
           (deleteKey (idiomScores st) contents) (userRecordings st)
           (recordingUrls st) (nextRecordingUrl st), log)
    | Throw _ => (st, log)
    end.
End IdiomRecording.

(** ** Blurred translation (components/TranscriptView.tsx, BlurredTranslation) *)

(** The component with the timers of the platform: the pending timers with
    their identifiers and the time at which they fire, in milliseconds.
    Identifiers are positive. *)
Record Blurred : Type := mkBlurred {
  isBlurred : bool;
  timeoutRef : option positive;
  timers : list (positive * N);
  nextTimer : positive;
  now : N
}.

Definition initialBlurred : Blurred :=
  {| isBlurred := true; timeoutRef := None; timers := []; nextTimer := 1%positive;
     now := 0%N |}.

Definition clearTimeout (id : positive) (pending : list (positive * N))
    : list (positive * N) :=
  List.filter (fun timer => negb (Pos.eqb timer.1 id)) pending.

Definition REVEAL_MS : N := 5000.

Definition blurHandleClick (s : Blurred) : Blurred :=
  let pending :=
    match timeoutRef s with
    | Some id => clearTimeout id (timers s)
    | None => timers s
    end in
  {| isBlurred := false;
     timeoutRef := Some (nextTimer s);
     timers := pending ++ [(nextTimer s, (now s + REVEAL_MS)%N)];
     nextTimer := Pos.succ (nextTimer s);
     now := now s |}.

(** Time passes: the timers that are due fire, each sets the blur again. *)
Definition elapse (d : N) (s : Blurred) : Blurred :=
  let t := (now s + d)%N in
  let due := List.filter (fun timer => (timer.2 <=? t)%N) (timers s) in
  {| isBlurred := match due with [] => isBlurred s | _ :: _ => true end;
     timeoutRef := timeoutRef s;
     timers := List.filter (fun timer => negb (timer.2 <=? t)%N) (timers s);
     nextTimer := nextTimer s;
     now := t |}.

Inductive BlurEvent : Type := Click | Elapse (d : N).

Definition blurStep (s : Blurred) (e : BlurEvent) : Blurred :=
  match e with
  | Click => blurHandleClick s
  | Elapse d => elapse d s
  end.

(** The one timer of the last click is pending and the text is revealed, or
    nothing is pending and the text is blurred. *)
Definition blurSettled (s : Blurred) : Prop :=
  (isBlurred s = true /\ timers s = [])
  \/ (isBlurred s = false
      /\ exists id deadline,
           timeoutRef s = Some id /\ timers s = [(id, deadline)]
           /\ (now s < deadline <= now s + REVEAL_MS)%N).

(** ** Segments in the order of time *)

(** [start <= end] for a segment, and each segment of a list ending no
    later than the next one starts. *)
Definition startsBeforeEnd (segment : TranscriptionSegment) : bool :=
  (start segment <=? end_ segment)%float.

Fixpoint inTimeOrder (segs : list TranscriptionSegment) : bool :=
  match segs with
  | a :: (b :: _) as rest => (end_ a <=? start b)%float && inTimeOrder rest
  | _ => true
  end.

(** A list that may follow a segment that ends at [e]. *)
Definition follows (e : float) (rest : list TranscriptionSegment) : bool :=
  match rest with
  | [] => true
  | b :: _ => (e <=? start b)%float && inTimeOrder rest
  end.

(** What the shadowing view renders of its current segment: the text and
    the translation. Reading them of a segment that is not there throws. *)
Definition renderCurrentSegment (segs : list TranscriptionSegment)
    (currentIndex : Z) : result (string * string) :=
  match currentSegment segs currentIndex with
  | Some segment => Ok (text segment, translation segment)
  | None => Throw undefinedSegment
  end.

(** * Properties *)

(** ** Order of binary64 numbers

    The comparisons of [float] are specified through [SFcompare]; the two
    facts used below are that [<] excludes the converse [<=] and that
    [<] followed by [<=] gives [<]. *)

Ltac fold_pos_compare :=
  repeat match goal with
  | |- context [PosDef.Pos.compare_cont Eq ?a ?b] =>
      change (PosDef.Pos.compare_cont Eq a b) with (Pos.compare a b)
  | H : context [PosDef.Pos.compare_cont Eq ?a ?b] |- _ =>
      change (PosDef.Pos.compare_cont Eq a b) with (Pos.compare a b) in H
  end.

Ltac compare_cases :=
  repeat match goal with
  | H : context [Z.compare ?a ?b] |- _ =>
      let E := fresh "E" in destruct (Z.compare_spec a b) as [E|E|E]
  | |- context [Z.compare ?a ?b] =>
      let E := fresh "E" in destruct (Z.compare_spec a b) as [E|E|E]
  | H : context [Pos.compare ?a ?b] |- _ =>
      let E := fresh "E" in destruct (Pos.compare_spec a b) as [E|E|E]
  | |- context [Pos.compare ?a ?b] =>
      let E := fresh "E" in destruct (Pos.compare_spec a b) as [E|E|E]
  end.

Lemma SFcompare_antisym (x y : spec_float) (c : comparison) :
  SFcompare x y = Some c -> SFcompare y x = Some (CompOpp c).
Proof.
  destruct x as [[]|[]| |[] mx ex], y as [[]|[]| |[] my ey]; simpl;
    intros H; inversion H; subst; clear H; try reflexivity;
    fold_pos_compare; f_equal;
    rewrite (Z.compare_antisym ex ey), (Pos.compare_antisym mx my);
    destruct (ex ?= ey)%Z, (mx ?= my)%positive; reflexivity.
Qed.

Lemma SFltb_SFleb_trans (x y z : spec_float) :
  SFltb x y = true -> SFleb y z = true -> SFltb x z = true.
Proof.
  unfold SFltb, SFleb.
  destruct x as [[]|[]| |[] mx ex], y as [[]|[]| |[] my ey],
    z as [[]|[]| |[] mz ez]; simpl; try congruence;
    intros H1 H2; fold_pos_compare;
    compare_cases; simpl in *; subst; try congruence; try lia.
Qed.

Lemma ltb_leb_false (x y : float) :
  (x <? y)%float = true -> (y <=? x)%float = false.
Proof.
  rewrite ltb_spec, leb_spec. unfold SFltb, SFleb.
  destruct (SFcompare (Prim2SF x) (Prim2SF y)) as [c|] eqn:E; [|discriminate].
  apply SFcompare_antisym in E. rewrite E. destruct c; simpl; congruence.
Qed.

Lemma leb_ltb_false (x y : float) :
  (x <=? y)%float = true -> (y <? x)%float = false.
Proof.
  intros H. destruct (y <? x)%float eqn:E; [|reflexivity].
  apply ltb_leb_false in E. congruence.
Qed.

Lemma ltb_leb_trans (x y z : float) :
  (x <? y)%float = true -> (y <=? z)%float = true -> (x <? z)%float = true.
Proof. rewrite !ltb_spec, leb_spec. apply SFltb_SFleb_trans. Qed.

(** ** Strings *)

Lemma append_assoc (a b c : string) : ((a ++ b) ++ c = a ++ (b ++ c))%string.
Proof. induction a as [|x a IH]; simpl; [reflexivity | now rewrite IH]. Qed.

Lemma append_empty_r (a : string) : (a ++ "")%string = a.
Proof. induction a as [|x a IH]; simpl; [reflexivity | now rewrite IH]. Qed.

Lemma concat_cons_cons (sep x y : string) (l : list string) :
  String.concat sep (x :: y :: l) = (x ++ sep ++ String.concat sep (y :: l))%string.
Proof. reflexivity. Qed.

Lemma concat_merge_head (sep a b : string) (l : list string) :
  String.concat sep ((a ++ sep ++ b)%string :: l) = String.concat sep (a :: b :: l).
Proof.
  destruct l as [|x l]; [reflexivity|].
  rewrite !concat_cons_cons, !append_assoc. reflexivity.
Qed.

Lemma concat_snoc (sep x : string) (l : list string) :
  l <> [] ->
  String.concat sep (l ++ [x]) = (String.concat sep l ++ sep ++ x)%string.
Proof.
  induction l as [|a [|b l] IH]; intros Hne; [contradiction|reflexivity|].
  change ((a :: b :: l) ++ [x]) with (a :: b :: (l ++ [x])).
  rewrite !concat_cons_cons.
  change (b :: l ++ [x]) with ((b :: l) ++ [x]).
  rewrite IH by discriminate. rewrite !append_assoc. reflexivity.
Qed.

(** The number of fields of [split] is one more than the number of
    separators. *)
Lemma splitLoop_length (s piece : string) (inSep : bool) :
  length (splitLoop s piece inSep) = S (countSeparators s inSep).
Proof.
  revert piece inSep. induction s as [|c s IH]; intros piece inSep; simpl.
  - reflexivity.
  - destruct (isSpace c); [destruct inSep|]; simpl; rewrite IH; reflexivity.
Qed.

Lemma splitWhitespace_length (s : string) :
  length (splitWhitespace s) = whitespaceDelimitedCount s.
Proof. apply splitLoop_length. Qed.

Lemma noSpace_snoc (w : string) (c : ascii) :
  noSpace w = true -> isSpace c = false ->
  noSpace (w ++ String c "") = true.
Proof.
  intros Hw Hc. induction w as [|d w IH]; simpl in *; [now rewrite Hc|].
  apply andb_true_iff in Hw as [-> Hw]. simpl. auto.
Qed.

Lemma splitLoop_words (s piece : string) (inSep : bool) :
  (inSep = false -> isWord piece) -> noSpace piece = true ->
  lastIsSpace s inSep = false ->
  Forall isWord (splitLoop s piece inSep).
Proof.
  revert piece inSep.
  induction s as [|c s IH]; intros piece inSep Hpiece Hns Hlast; simpl in *.
  - subst inSep. constructor; [auto | constructor].
  - destruct (isSpace c) eqn:Ec.
    + destruct inSep.
      * apply IH; [discriminate | reflexivity | exact Hlast].
      * constructor; [auto|].
        apply IH; [discriminate | reflexivity | exact Hlast].
    + apply IH; [| apply noSpace_snoc; assumption | exact Hlast].
      intros _. split; [destruct piece; discriminate|].
      apply noSpace_snoc; assumption.
Qed.

(** On a text that starts and ends with a character that is not
    whitespace, every field of [split] is a word: there the number of
    fields is the number of words. *)
Lemma splitWhitespace_words (c : ascii) (s : string) :
  isSpace c = false -> lastIsSpace (String c s) false = false ->
  Forall isWord (splitWhitespace (String c s)).
Proof.
  intros Hc Hlast. unfold splitWhitespace. simpl in *. rewrite Hc in *.
  apply splitLoop_words; simpl; rewrite ?Hc; auto.
  intros _. split; [discriminate | simpl; rewrite Hc; reflexivity].
Qed.

(** ** Segment merger *)

Lemma isShort_meetsMergeCondition (s : TranscriptionSegment) :
  isShort s = meetsMergeCondition s.
Proof.
  unfold isShort, meetsMergeCondition, MIN_WORDS.
  rewrite splitWhitespace_length. reflexivity.
Qed.

Lemma mergeInto_mergedWith (current next : TranscriptionSegment) :
  mergeInto current next = mergedWith current next.
Proof.
  unfold mergeInto, mergedWith, orElse. destruct (idiomatic next); reflexivity.
Qed.

(** The loop invariant: what has been committed, then the accumulator
    folded over the segments that are still to be read. *)
Lemma mergeLoop_foldSegments (rest pre merged : list TranscriptionSegment)
    (current : TranscriptionSegment) :
  (mergeLoop (pre ++ rest) (length rest) (length pre) (merged, current)).1
    ++ [(mergeLoop (pre ++ rest) (length rest) (length pre) (merged, current)).2]
  = merged ++ foldSegments current rest.
Proof.
  revert pre merged current.
  induction rest as [|next rest IH]; intros pre merged current; simpl.
  - reflexivity.
  - rewrite list_lookup_middle by reflexivity.
    replace (pre ++ next :: rest) with ((pre ++ [next]) ++ rest)
      by (rewrite <- app_assoc; reflexivity).
    replace (S (length pre)) with (length (pre ++ [next]))
      by (rewrite length_app; simpl; lia).
    unfold mergeStep.
    rewrite isShort_meetsMergeCondition, mergeInto_mergedWith.
    destruct (meetsMergeCondition current).
    + apply IH.
    + rewrite IH, <- app_assoc. reflexivity.
Qed.

Lemma mergeShortSegments_segmentMerger (input : list TranscriptionSegment) :
  mergeShortSegments input = segmentMerger input.
Proof.
  destruct input as [|first rest]; [reflexivity|].
  unfold mergeShortSegments, segmentMerger. simpl.
  rewrite Nat.sub_0_r.
  pose proof (mergeLoop_foldSegments rest [first] [] first) as H.
  simpl in H.
  destruct (mergeLoop (first :: rest) (length rest) 1 ([], first)) as [m c].
  exact H.
Qed.

Lemma foldSegments_nonempty (rest : list TranscriptionSegment)
    (acc : TranscriptionSegment) :
  foldSegments acc rest <> [].
Proof.
  revert acc. induction rest as [|next rest IH]; intros acc; simpl.
  - discriminate.
  - destruct (meetsMergeCondition acc); [apply IH | discriminate].
Qed.

Lemma foldSegments_join (rest : list TranscriptionSegment)
    (acc : TranscriptionSegment) :
  String.concat " " (map text (foldSegments acc rest))
  = String.concat " " (text acc :: map text rest).
Proof.
  revert acc. induction rest as [|next rest IH]; intros acc; simpl foldSegments.
  - reflexivity.
  - destruct (meetsMergeCondition acc).
    + rewrite IH.
      exact (concat_merge_head " " (text acc) (text next) (map text rest)).
    + pose proof (foldSegments_nonempty rest next) as Hne.
      specialize (IH next).
      destruct (foldSegments next rest) as [|o os]; [contradiction|].
      change (map text (acc :: o :: os))
        with (text acc :: text o :: map text os).
      rewrite concat_cons_cons.
      change (text o :: map text os) with (map text (o :: os)).
      rewrite IH. reflexivity.
Qed.

Lemma foldSegments_length (rest : list TranscriptionSegment)
    (acc : TranscriptionSegment) :
  length (foldSegments acc rest) <= S (length rest).
Proof.
  revert acc. induction rest as [|next rest IH]; intros acc; simpl.
  - lia.
  - destruct (meetsMergeCondition acc); simpl.
    + specialize (IH (mergedWith acc next)). lia.
    + specialize (IH next). lia.
Qed.

Lemma foldSegments_last_end (rest : list TranscriptionSegment)
    (acc : TranscriptionSegment) :
  end_ <$> last (foldSegments acc rest) = end_ <$> last (acc :: rest).
Proof.
  revert acc. induction rest as [|next rest IH]; intros acc; simpl foldSegments.
  - reflexivity.
  - destruct (meetsMergeCondition acc).
    + rewrite IH. rewrite !last_cons.
      destruct (last rest); reflexivity.
    + pose proof (foldSegments_nonempty rest next) as Hne.
      specialize (IH next).
      rewrite (last_cons acc (next :: rest)), (last_cons acc (foldSegments _ _)).
      destruct (last (foldSegments next rest)) eqn:E1.
      * destruct (last (next :: rest)) eqn:E2; [exact IH | discriminate IH].
      * apply last_None in E1. contradiction.
Qed.

(** Each output text is the single-space join of the texts of a block of
    consecutive input segments, and the blocks partition the input. *)
Lemma foldSegments_blocks (rest block : list TranscriptionSegment)
    (acc : TranscriptionSegment) :
  block <> [] ->
  text acc = String.concat " " (map text block) ->
  exists blocks : list (list TranscriptionSegment),
    concat blocks = block ++ rest
    /\ Forall (fun b => b <> []) blocks
    /\ map text (foldSegments acc rest)
       = map (fun b => String.concat " " (map text b)) blocks.
Proof.
  revert block acc.
  induction rest as [|next rest IH]; intros block acc Hne Hacc; simpl foldSegments.
  - exists [block]. simpl. rewrite app_nil_r, Hacc. repeat split.
    constructor; [exact Hne | constructor].
  - destruct (meetsMergeCondition acc).
    + destruct (IH (block ++ [next]) (mergedWith acc next)) as (bs & Hc & Hf & Ht).
      * destruct block; discriminate.
      * rewrite map_app. change (map text [next]) with [text next].
        rewrite concat_snoc, <- Hacc by (destruct block; [contradiction|discriminate]).
        reflexivity.
      * exists bs. rewrite Hc, <- app_assoc. repeat split; assumption.
    + destruct (IH [next] next) as (bs & Hc & Hf & Ht);
        [discriminate | reflexivity |].
      exists (block :: bs). simpl. rewrite Hc, Hacc, Ht. repeat split.
      constructor; assumption.
Qed.

Lemma foldSegments_above_threshold (rest : list TranscriptionSegment)
    (acc : TranscriptionSegment) :
  Forall (fun s => meetsMergeCondition s = false) (acc :: rest) ->
  foldSegments acc rest = acc :: rest.
Proof.
  revert acc. induction rest as [|next rest IH]; intros acc H; simpl.
  - reflexivity.
  - inversion H as [|? ? Hacc Hrest]; subst. rewrite Hacc.
    rewrite IH by exact Hrest. reflexivity.
Qed.

Lemma atOrAboveThreshold_not_short (s : TranscriptionSegment) :
  atOrAboveThreshold s -> meetsMergeCondition s = false.
Proof.
  rewrite <- isShort_meetsMergeCondition. unfold atOrAboveThreshold, isShort.
  intros [Hwords | Hduration].
  - apply Nat.ltb_ge in Hwords. rewrite Hwords. reflexivity.
  - apply leb_ltb_false in Hduration. rewrite Hduration.
    apply andb_false_r.
Qed.

Lemma mergeShortSegments_above_threshold (input : list TranscriptionSegment) :
  Forall atOrAboveThreshold input -> mergeShortSegments input = input.
Proof.
  intros H. rewrite mergeShortSegments_segmentMerger.
  destruct input as [|first rest]; [reflexivity|]. simpl.
  apply foldSegments_above_threshold.
  eapply Forall_impl; [exact H|]. apply atOrAboveThreshold_not_short.
Qed.

(** C2. For a non-empty input [first :: rest], the texts of the output
    joined with single spaces equal the texts of the input joined with
    single spaces: each output text is the single-space join of the texts
    of a block of consecutive input segments (the spaces put in at merge
    points), and the blocks make up the input in order. The output is not
    longer than the input, and the last output segment ends where the last
    input segment ends. *)
Theorem merge_preserves_text_length_end
    (first : TranscriptionSegment) (rest : list TranscriptionSegment) :
  let input := first :: rest in
  let output := mergeShortSegments input in
  String.concat " " (map text output) = String.concat " " (map text input)
  /\ (exists blocks : list (list TranscriptionSegment),
        concat blocks = input
        /\ Forall (fun b => b <> []) blocks
        /\ map text output
           = map (fun b => String.concat " " (map text b)) blocks)
  /\ length output <= length input
  /\ exists o i : TranscriptionSegment,
       last output = Some o /\ last input = Some i /\ end_ o = end_ i.
Proof.
  intros input output. subst input output.
  rewrite mergeShortSegments_segmentMerger. simpl segmentMerger.
  split; [apply foldSegments_join|].
  split; [apply (foldSegments_blocks rest [first] first); [discriminate | reflexivity]|].
  split; [apply foldSegments_length|].
  pose proof (foldSegments_last_end rest first) as H.
  destruct (last (foldSegments first rest)) as [o|] eqn:Eo.
  - destruct (last (first :: rest)) as [i|] eqn:Ei; [|discriminate H].
    exists o, i. repeat split. injection H. trivial.
  - apply last_None in Eo. destruct (foldSegments_nonempty rest first Eo).
Qed.

(** The loop is a left-to-right accumulator fold: the accumulator
    whose text has fewer than 4 whitespace-delimited fields (what
    [text.split(/\s+/).length] counts: the words of a text that starts and
    ends with a word) and whose duration [end - start] is below 2.0 takes
    the next segment in ([end] of the next one, texts and translations
    joined by one space, the next [idiomatic] unless it is empty), any
    other accumulator is committed and the next segment starts a new one.
    The empty input gives the empty output and a single segment is returned
    unchanged. *)
Theorem merger_is_accumulator_fold :
  (forall input : list TranscriptionSegment,
     mergeShortSegments input = segmentMerger input)
  /\ mergeShortSegments [] = []
  /\ (forall s : TranscriptionSegment, mergeShortSegments [s] = [s])
  /\ (forall (acc next : TranscriptionSegment) (rest : list TranscriptionSegment),
        (whitespaceDelimitedCount (text acc) < 4)%nat ->
        (end_ acc - start acc <? 2.0)%float = true ->
        mergeShortSegments (acc :: next :: rest)
        = mergeShortSegments
            ({| start := start acc;
                end_ := end_ next;
                text := text acc ++ " " ++ text next;
                translation := translation acc ++ " " ++ translation next;
                idiomatic := if isEmpty (idiomatic next) then idiomatic acc
                             else idiomatic next;
                isFavorite := isFavorite acc |} :: rest))
  /\ (forall (acc next : TranscriptionSegment) (rest : list TranscriptionSegment),
        ~ ((whitespaceDelimitedCount (text acc) < 4)%nat
           /\ (end_ acc - start acc <? 2.0)%float = true) ->
        mergeShortSegments (acc :: next :: rest)
        = acc :: mergeShortSegments (next :: rest)).
Proof.
  split; [exact mergeShortSegments_segmentMerger|].
  split; [reflexivity|]. split; [reflexivity|].
  split; intros acc next rest.
  - intros Hwords Hduration. rewrite !mergeShortSegments_segmentMerger.
    simpl. unfold meetsMergeCondition at 1.
    apply Nat.ltb_lt in Hwords. rewrite Hwords, Hduration. simpl.
    unfold mergedWith, isEmpty. destruct (idiomatic next); reflexivity.
  - intros Hnot. rewrite !mergeShortSegments_segmentMerger.
    simpl. unfold meetsMergeCondition at 1.
    destruct (whitespaceDelimitedCount (text acc) <? 4)%nat eqn:Ew;
      [|reflexivity].
    destruct (end_ acc - start acc <? 2.0)%float eqn:Ed; [|reflexivity].
    exfalso. apply Hnot. split; [apply Nat.ltb_lt; exact Ew | reflexivity].
Qed.

Lemma merger_is_accumulator_fold_witness :
  mergeShortSegments
    [mkSegment 0 1 "Okay, now," "a" "" None;
     mkSegment 1 4 "I want to share this" "b" "c" None]
  = [mkSegment 0 4 "Okay, now, I want to share this" "a b" "c" None].
Proof.
  destruct merger_is_accumulator_fold as (_ & _ & Hone & Hmerge & _).
  rewrite Hmerge; [apply Hone | vm_compute; lia | reflexivity].
Defined.

Lemma countWords_countSeparators (s : string) :
  (lastIsSpace s false = false -> countWords s true = countSeparators s false)
  /\ (lastIsSpace s true = false -> countWords s false = S (countSeparators s true)).
Proof.
  induction s as [|c s [IHword IHsep]]; simpl.
  - split; [reflexivity | discriminate].
  - destruct (isSpace c); split; intros H; auto.
Qed.

(** In a text that starts and ends with a word there are as many words as
    fields. *)
Lemma numberOfWords_fields (s : string) :
  wordsAtEnds s = true -> numberOfWords s = whitespaceDelimitedCount s.
Proof.
  destruct s as [|c s]; [discriminate|].
  unfold wordsAtEnds, numberOfWords, whitespaceDelimitedCount. simpl.
  destruct (isSpace c); [discriminate|]. simpl. intros H.
  apply negb_true_iff in H.
  rewrite (proj1 (countWords_countSeparators s) H). reflexivity.
Qed.

Lemma lastIsSpace_app (a b : string) (dflt : bool) :
  lastIsSpace (a ++ b) dflt = lastIsSpace b (lastIsSpace a dflt).
Proof.
  revert dflt. induction a as [|c a IH]; intros dflt; simpl; [reflexivity|].
  apply IH.
Qed.

Lemma wordsAtEnds_join (a b : string) :
  wordsAtEnds a = true -> wordsAtEnds b = true ->
  wordsAtEnds (a ++ " " ++ b) = true.
Proof.
  destruct a as [|c a]; [discriminate|]. destruct b as [|d b]; [discriminate|].
  intros Ha Hb.
  apply andb_true_iff in Ha. destruct Ha as [Hc _].
  apply andb_true_iff in Hb. destruct Hb as [_ Hb].
  change (wordsAtEnds (String c a ++ " " ++ String d b))
    with (negb (isSpace c)
          && negb (lastIsSpace (String c a ++ (" " ++ String d b)) false)).
  rewrite Hc, lastIsSpace_app. exact Hb.
Qed.

Lemma documentedFold_foldSegments (rest : list TranscriptionSegment)
    (acc : TranscriptionSegment) :
  wordsAtEnds (text acc) = true ->
  Forall (fun s => wordsAtEnds (text s) = true) rest ->
  documentedFold acc rest = foldSegments acc rest.
Proof.
  revert acc. induction rest as [|next rest IH]; intros acc Hacc Hrest;
    [reflexivity|].
  inversion Hrest as [|? ? Hnext Hrest']; subst. simpl.
  unfold documentedMergeCondition, meetsMergeCondition.
  rewrite (numberOfWords_fields (text acc) Hacc).
  destruct ((whitespaceDelimitedCount (text acc) <? 4)%nat
            && (end_ acc - start acc <? 2.0)%float).
  - apply IH; [|exact Hrest']. simpl. apply wordsAtEnds_join; assumption.
  - rewrite (IH next Hnext Hrest'). reflexivity.
Qed.

(** C4. The code counts fields where the design document counts words.
    On [{0,1," so then okay"}, {1,3,"we can start now"}] the first text has
    3 words and lasts 1 second, so the fold of the document merges the two
    segments into [{0,3," so then okay we can start now"}]; the code splits
    the text into 4 fields, the first of them empty, commits the first
    segment and returns the input as it is. Wherever every text starts and
    ends with a word, the code is the fold of the document. *)
Theorem merge_miscounts_leading_whitespace :
  let first := mkSegment 0 1 " so then okay" "a" "b" None in
  let next := mkSegment 1 3 "we can start now" "c" "d" None in
  numberOfWords (text first) = 3%nat
  /\ (end_ first - start first <? 2.0)%float = true
  /\ documentedMerger [first; next]
     = [mkSegment 0 3 " so then okay we can start now" "a c" "d" None]
  /\ splitWhitespace (text first) = [""; "so"; "then"; "okay"]
  /\ mergeShortSegments [first; next] = [first; next]
  /\ (forall input : list TranscriptionSegment,
        Forall (fun s => wordsAtEnds (text s) = true) input ->
        mergeShortSegments input = documentedMerger input).
Proof.
  cbv zeta. do 5 (split; [reflexivity|]).
  intros input Hinput. rewrite mergeShortSegments_segmentMerger.
  destruct input as [|first rest]; [reflexivity|].
  inversion Hinput; subst. simpl. symmetry.
  apply documentedFold_foldSegments; assumption.
Qed.

(** C5. On [{0,1,"Hi"}, {1,1.5,"there"}, {1.5,4,"welcome to the show
    today"}], whatever the other fields are: the first segment has 1 word
    and lasts 1s, so it is merged into the second; the accumulator then
    reads "Hi there", has 2 words and lasts 1.5s, so it is merged into the
    third; the output is the one segment {0, 4, "Hi there welcome to the
    show today"}. *)
Theorem merge_hi_there_welcome
    (tr1 tr2 tr3 id1 id2 id3 : string) (fav1 fav2 fav3 : option bool) :
  let s1 := mkSegment 0 1 "Hi" tr1 id1 fav1 in
  let s2 := mkSegment 1 1.5 "there" tr2 id2 fav2 in
  let s3 := mkSegment 1.5 4 "welcome to the show today" tr3 id3 fav3 in
  let acc := mergeInto s1 s2 in
  (length (splitWhitespace (text s1)) = 1%nat
   /\ (end_ s1 - start s1)%float = 1%float
   /\ isShort s1 = true)
  /\ (text acc = "Hi there"
      /\ length (splitWhitespace (text acc)) = 2%nat
      /\ (end_ acc - start acc)%float = 1.5%float
      /\ isShort acc = true)
  /\ exists out : TranscriptionSegment,
       mergeShortSegments [s1; s2; s3] = [out]
       /\ start out = 0%float
       /\ end_ out = 4%float
       /\ text out = "Hi there welcome to the show today".
Proof.
  intros s1 s2 s3 acc.
  split; [repeat split|].
  split; [repeat split|].
  exists (mergeInto (mergeInto s1 s2) s3).
  repeat split.
Qed.

(** C6. When every segment has at least 4 words or lasts at least 2.0
    seconds, merging twice gives what merging once gives. *)
Theorem merge_idempotent_above_threshold (input : list TranscriptionSegment) :
  Forall atOrAboveThreshold input ->
  mergeShortSegments (mergeShortSegments input) = mergeShortSegments input.
Proof.
  intros H. rewrite (mergeShortSegments_above_threshold input H).
  apply mergeShortSegments_above_threshold. exact H.
Qed.

Lemma merge_idempotent_above_threshold_witness :
  let input :=
    [mkSegment 0 3 "No!" "a" "" None;
     mkSegment 3 4 "I want to share" "b" "c" None] in
  mergeShortSegments (mergeShortSegments input) = mergeShortSegments input.
Proof.
  apply merge_idempotent_above_threshold.
  constructor; [right; reflexivity|].
  constructor; [left; vm_compute; lia|].
  constructor.
Defined.

(** ** Favourite toggle *)

Lemma withFavoriteInverted_twice (s : TranscriptionSegment) :
  withFavoriteInverted (withFavoriteInverted s) = withFavoriteSet s.
Proof.
  unfold withFavoriteInverted, withFavoriteSet. simpl.
  rewrite negb_involutive. reflexivity.
Qed.

Lemma withFavoriteSet_present (s : TranscriptionSegment) :
  is_Some (isFavorite s) -> withFavoriteSet s = s.
Proof. destruct s as [? ? ? ? ? [b|]]; intros [x Hx]; [reflexivity | discriminate]. Qed.

Lemma handleToggleFavorite_in_bounds (tr : TranscriptionResponse) (i : nat)
    (s : TranscriptionSegment) :
  segments tr !! i = Some s ->
  handleToggleFavorite i (Some tr)
  = Ok (Some {| language := language tr;
                segments := <[i := withFavoriteInverted s]> (segments tr);
                meta := meta tr |}).
Proof. intros H. unfold handleToggleFavorite. rewrite H. reflexivity. Qed.

Lemma toggleTwice_in_bounds (tr : TranscriptionResponse) (i : nat)
    (s : TranscriptionSegment) :
  segments tr !! i = Some s ->
  toggleTwice i (Some tr)
  = Ok (Some {| language := language tr;
                segments := <[i := withFavoriteSet s]> (segments tr);
                meta := meta tr |}).
Proof.
  intros H. unfold toggleTwice.
  rewrite (handleToggleFavorite_in_bounds tr i s H).
  erewrite handleToggleFavorite_in_bounds; simpl.
  - rewrite list_insert_insert_eq, withFavoriteInverted_twice. reflexivity.
  - apply list_lookup_insert_eq. eapply lookup_lt_Some. exact H.
Qed.

(** C3, as the code has it. At an in-bounds position [i] the toggle gives a
    new transcription whose segment list has the same length, the same
    segment at every other position, and at [i] the same segment with only
    [isFavorite] changed, to the negation of what the flag counted as (an
    absent flag counts as false). Toggling twice leaves at [i] the segment
    with its flag set to what it counted as: this is the original
    transcription when the flag was present. *)
Theorem toggle_favorite_frame (tr : TranscriptionResponse) (i : nat)
    (s : TranscriptionSegment) :
  segments tr !! i = Some s ->
  (exists tr' s' : _,
     handleToggleFavorite i (Some tr) = Ok (Some tr')
     /\ language tr' = language tr /\ meta tr' = meta tr
     /\ length (segments tr') = length (segments tr)
     /\ (forall j : nat, j <> i -> segments tr' !! j = segments tr !! j)
     /\ segments tr' !! i = Some s'
     /\ start s' = start s /\ end_ s' = end_ s
     /\ text s' = text s /\ translation s' = translation s
     /\ idiomatic s' = idiomatic s
     /\ isFavorite s' = Some (negb (truthy (isFavorite s))))
  /\ (exists tr'' : _,
        toggleTwice i (Some tr) = Ok (Some tr'')
        /\ segments tr'' = <[i := withFavoriteSet s]> (segments tr)
        /\ (is_Some (isFavorite s) -> tr'' = tr)).
Proof.
  intros H. split.
  - eexists _, (withFavoriteInverted s).
    split; [apply handleToggleFavorite_in_bounds; exact H|]. simpl.
    split; [reflexivity|]. split; [reflexivity|].
    split; [apply length_insert|].
    split; [intros j Hj; apply list_lookup_insert_ne; congruence|].
    split; [apply list_lookup_insert_eq; eapply lookup_lt_Some; exact H|].
    repeat split.
  - eexists. split; [apply toggleTwice_in_bounds; exact H|]. simpl.
    split; [reflexivity|].
    intros Hfav. rewrite withFavoriteSet_present by exact Hfav.
    rewrite list_insert_id by exact H. destruct tr; reflexivity.
Qed.

Lemma toggle_favorite_frame_witness :
  let tr :=
    mkResponse "en"
      [mkSegment 0 1 "Hi" "a" "" (Some false); mkSegment 1 2 "there" "b" "" None]
      (mkMeta 2 "A1" "120 wpm") in
  toggleTwice 0 (Some tr) = Ok (Some tr).
Proof.
  intros tr.
  destruct (toggle_favorite_frame tr 0 (mkSegment 0 1 "Hi" "a" "" (Some false))
              eq_refl) as [_ (tr'' & Htwice & _ & Hsame)].
  rewrite Htwice, Hsame; [reflexivity | eexists; reflexivity].
Defined.

(** C3 as stated fails where the flag is absent, as it is on every segment
    that the transcription call returns: two toggles leave [isFavorite:
    false] on a segment that had no such field. *)
Lemma toggle_twice_absent_flag_not_restored :
  let tr :=
    mkResponse "en" [mkSegment 0 1 "Hi" "a" "" None] (mkMeta 1 "A1" "120 wpm") in
  segments tr !! 0%nat = Some (mkSegment 0 1 "Hi" "a" "" None)
  /\ toggleTwice 0 (Some tr)
     = Ok (Some (mkResponse "en" [mkSegment 0 1 "Hi" "a" "" (Some false)]
                   (mkMeta 1 "A1" "120 wpm")))
  /\ toggleTwice 0 (Some tr) <> Ok (Some tr).
Proof.
  intros tr. split; [reflexivity|]. split; [reflexivity|].
  intros H. discriminate H.
Qed.

(** ** Active segment *)

Lemma SFcompare_refl (x : spec_float) (c : comparison) :
  SFcompare x x = Some c -> c = Eq.
Proof.
  destruct x as [[]|[]| |[] m e]; simpl; intros H; inversion H; subst; clear H;
    try reflexivity; fold_pos_compare;
    rewrite Z.compare_refl, Pos.compare_refl; reflexivity.
Qed.

Lemma ltb_irrefl (x : float) : (x <? x)%float = false.
Proof.
  rewrite ltb_spec. unfold SFltb.
  destruct (SFcompare (Prim2SF x) (Prim2SF x)) as [c|] eqn:E; [|reflexivity].
  apply SFcompare_refl in E. subst c. reflexivity.
Qed.

Lemma ltb_leb_refl (x y : float) : (x <? y)%float = true -> (x <=? x)%float = true.
Proof.
  rewrite ltb_spec, leb_spec. unfold SFltb, SFleb. intros H.
  destruct (SFcompare (Prim2SF x) (Prim2SF x)) as [c|] eqn:E.
  - apply SFcompare_refl in E. subst c. reflexivity.
  - destruct (Prim2SF x) as [[]|[]| |[] m e], (Prim2SF y) as [[]|[]| |[] m' e'];
      simpl in *; discriminate.
Qed.

(** C7. A segment is active exactly when [start <= currentTime] and
    [currentTime < end]: the end itself is never inside, the start is inside
    whenever [start < end]. For a segment from 1 to 2, the time 1.999999 is
    inside and the time 2.0 is not. *)
#[warnings="-inexact-float"]
Theorem active_half_open_interval :
  (forall (t : float) (s : TranscriptionSegment),
     isActive t s = true
     <-> (start s <=? t)%float = true /\ (t <? end_ s)%float = true)
  /\ (forall s : TranscriptionSegment, isActive (end_ s) s = false)
  /\ (forall s : TranscriptionSegment,
        (start s <? end_ s)%float = true -> isActive (start s) s = true)
  /\ (forall (txt tr idiom : string) (fav : option bool),
        isActive 1.999999 (mkSegment 1 2 txt tr idiom fav) = true
        /\ isActive 2.0 (mkSegment 1 2 txt tr idiom fav) = false).
Proof.
  split; [intros t s; unfold isActive; apply andb_true_iff|].
  split; [intros s; unfold isActive; rewrite ltb_irrefl; apply andb_false_r|].
  split.
  - intros s H. unfold isActive. rewrite H, (ltb_leb_refl _ _ H). reflexivity.
  - intros txt tr idiom fav. split; reflexivity.
Qed.

Lemma active_half_open_interval_witness :
  isActive 1 (mkSegment 1 2 "Hi" "a" "" None) = true.
Proof.
  destruct active_half_open_interval as (_ & _ & Hstart & _).
  apply (Hstart (mkSegment 1 2 "Hi" "a" "" None)). reflexivity.
Defined.

Lemma endsBeforeLaterStart_nonOverlapping (segs : list TranscriptionSegment) :
  endsBeforeLaterStart segs -> nonOverlapping segs.
Proof.
  assert (Hord : forall a b : TranscriptionSegment,
             (end_ a <=? start b)%float = true -> ~ overlap a b).
  { intros a b Hab (t & Ha & Hb). unfold isActive in Ha, Hb.
    apply andb_true_iff in Ha as [_ Ha], Hb as [Hb _].
    pose proof (ltb_leb_trans _ _ _ Ha Hab) as Hlt.
    apply ltb_leb_false in Hlt. congruence. }
  intros H i j a b Hij Hi Hj Hov.
  destruct (Nat.lt_total i j) as [Hlt | [Heq | Hgt]]; [|contradiction|].
  - exact (Hord a b (H i j a b Hlt Hi Hj) Hov).
  - destruct Hov as (t & Ha & Hb).
    apply (Hord b a (H j i b a Hgt Hj Hi)). exists t. split; assumption.
Qed.

Lemma nonOverlapping_tail (a : TranscriptionSegment)
    (segs : list TranscriptionSegment) :
  nonOverlapping (a :: segs) -> nonOverlapping segs.
Proof.
  intros H i j x y Hij Hi Hj.
  apply (H (S i) (S j) x y); [congruence | exact Hi | exact Hj].
Qed.

Lemma activeSegments_none (t : float) (segs : list TranscriptionSegment) :
  (forall (k : nat) (b : TranscriptionSegment),
     segs !! k = Some b -> isActive t b = false) ->
  activeSegments t segs = [].
Proof.
  induction segs as [|b segs IH]; intros H; [reflexivity|].
  unfold activeSegments in *. simpl.
  rewrite (H 0%nat b eq_refl).
  apply IH. intros k c Hk. exact (H (S k) c Hk).
Qed.

(** C8. In a list of pairwise non-overlapping segments, at any time at most
    one segment is active: the list of active segments has length 0 or 1,
    and two positions that are both active are the same position. *)
Theorem at_most_one_active (segs : list TranscriptionSegment) (t : float) :
  nonOverlapping segs ->
  length (activeSegments t segs) <= 1
  /\ forall (i j : nat) (a b : TranscriptionSegment),
       segs !! i = Some a -> segs !! j = Some b ->
       isActive t a = true -> isActive t b = true -> i = j.
Proof.
  intros H. split.
  - induction segs as [|a segs IH]; [simpl; lia|].
    unfold activeSegments in *. simpl.
    destruct (isActive t a) eqn:Ea.
    + fold (activeSegments t segs). rewrite activeSegments_none; [simpl; lia|].
      intros k b Hk. destruct (isActive t b) eqn:Eb; [|reflexivity].
      exfalso. apply (H 0%nat (S k) a b); [lia | reflexivity | exact Hk |].
      exists t. split; assumption.
    + apply IH. eapply nonOverlapping_tail. exact H.
  - intros i j a b Hi Hj Ha Hb.
    destruct (Nat.eq_dec i j) as [Heq | Hne]; [exact Heq|].
    exfalso. apply (H i j a b Hne Hi Hj). exists t. split; assumption.
Qed.

Lemma at_most_one_active_witness :
  let segs := [mkSegment 0 1 "Hi" "a" "" None; mkSegment 1 2.5 "there" "b" "" None] in
  length (activeSegments 1 segs) <= 1.
Proof.
  intros segs. apply (at_most_one_active segs 1).
  apply endsBeforeLaterStart_nonOverlapping.
  intros [|[|i]] [|[|j]] a b Hij Hi Hj; try lia;
    try discriminate Hi; try discriminate Hj.
  injection Hi as <-. injection Hj as <-. reflexivity.
Defined.

(** Between two segments no segment is active. *)
Lemma no_active_segment_in_gap :
  let segs := [mkSegment 0 1 "Hi" "a" "" None; mkSegment 2 3 "there" "b" "" None] in
  nonOverlapping segs /\ activeSegments 1.5 segs = [].
Proof.
  intros segs. split; [|reflexivity].
  apply endsBeforeLaterStart_nonOverlapping.
  intros [|[|i]] [|[|j]] a b Hij Hi Hj; try lia;
    try discriminate Hi; try discriminate Hj.
  injection Hi as <-. injection Hj as <-. reflexivity.
Qed.

(** ** Response parsing *)

Lemma stripPrefix_app (p s : string) : stripPrefix p (p ++ s) = Some s.
Proof.
  induction p as [|a p IH]; simpl; [destruct s; reflexivity|].
  rewrite Ascii.eqb_refl. exact IH.
Qed.

Lemma dropSpaces_allSpace_app (ws s : string) :
  allSpace ws = true -> dropSpaces (ws ++ s) = dropSpaces s.
Proof.
  induction ws as [|c ws IH]; simpl; [reflexivity|].
  intros H. apply andb_true_iff in H as [Hc Hws]. rewrite Hc. auto.
Qed.

Lemma dropSpaces_allSpace (ws : string) :
  allSpace ws = true -> dropSpaces ws = "".
Proof.
  intros H. rewrite <- (append_empty_r ws).
  rewrite dropSpaces_allSpace_app by exact H. reflexivity.
Qed.

Lemma dropSpaces_not_allSpace_app (x s : string) :
  allSpace x = false ->
  dropSpaces (x ++ s) = (dropSpaces x ++ s)%string /\ dropSpaces x <> "".
Proof.
  induction x as [|c x IH]; simpl; [discriminate|].
  destruct (isSpace c); simpl; [exact IH|].
  intros _. split; [reflexivity | discriminate].
Qed.

Lemma length_append (a b : string) :
  String.length (a ++ b) = String.length a + String.length b.
Proof. induction a as [|c a IH]; simpl; [reflexivity | now rewrite IH]. Qed.

Lemma matchesClosingFence_allSpace (ws : string) :
  allSpace ws = true -> matchesClosingFence (ws ++ closingFence) = true.
Proof.
  intros H. unfold matchesClosingFence.
  rewrite dropSpaces_allSpace_app by exact H. reflexivity.
Qed.

Lemma matchesClosingFence_not_allSpace (x ws : string) :
  allSpace x = false -> matchesClosingFence (x ++ ws ++ closingFence) = false.
Proof.
  intros H. unfold matchesClosingFence.
  destruct (dropSpaces_not_allSpace_app x (ws ++ closingFence) H) as [-> Hne].
  apply String.eqb_neq. intros E.
  apply (f_equal String.length) in E.
  rewrite !length_append in E. simpl in E.
  destruct (dropSpaces x); [contradiction | simpl in E; lia].
Qed.

Lemma removeClosingFence_unfold (s : string) :
  removeClosingFence s
  = if matchesClosingFence s then ""
    else match s with
         | "" => ""
         | String c s' => String c (removeClosingFence s')
         end.
Proof. destruct s; reflexivity. Qed.

(** The closing marker and the whitespace before it go; the text before
    them stays up to its own trailing whitespace. *)
Lemma removeClosingFence_fenced (pre ws : string) :
  allSpace ws = true ->
  removeClosingFence (pre ++ ws ++ closingFence) = trimEnd pre.
Proof.
  intros Hws. induction pre as [|c pre IH].
  - simpl append. rewrite removeClosingFence_unfold.
    rewrite matchesClosingFence_allSpace by exact Hws. reflexivity.
  - rewrite removeClosingFence_unfold.
    destruct (allSpace (String c pre)) eqn:E.
    + replace (String c pre ++ ws ++ closingFence)%string
        with ((String c pre ++ ws) ++ closingFence)%string
        by apply append_assoc.
      rewrite matchesClosingFence_allSpace.
      * simpl. simpl in E. rewrite E. reflexivity.
      * clear IH. revert E. generalize (String c pre) as x.
        induction x as [|d x IHx]; simpl; [intros _; exact Hws|].
        intros H. apply andb_true_iff in H as [-> Hx]. auto.
    + rewrite matchesClosingFence_not_allSpace by exact E.
      change ((String c pre ++ ws ++ closingFence)%string)
        with (String c (pre ++ ws ++ closingFence)).
      cbv iota. rewrite IH.
      change (trimEnd (String c pre))
        with (if allSpace (String c pre) then "" else String c (trimEnd pre)).
      rewrite E. reflexivity.
Qed.

(** The opening marker and the whitespace after it go. *)
Lemma removeOpeningFence_fenced (ws rest : string) :
  allSpace ws = true ->
  removeOpeningFence (openingFence ++ ws ++ rest) = dropSpaces rest.
Proof.
  intros H. unfold removeOpeningFence.
  rewrite stripPrefix_app. apply dropSpaces_allSpace_app. exact H.
Qed.

Lemma removeOpeningFence_absent (text : string) :
  stripPrefix openingFence text = None -> removeOpeningFence text = text.
Proof. intros H. unfold removeOpeningFence. rewrite H. reflexivity. Qed.

Lemma dropSpaces_decompose (s : string) :
  exists ws : string, s = (ws ++ dropSpaces s)%string.
Proof.
  induction s as [|c s [ws IH]]; simpl; [exists ""; reflexivity|].
  destruct (isSpace c).
  - exists (String c ws). simpl. rewrite <- IH. reflexivity.
  - exists "". reflexivity.
Qed.

Lemma removeClosingFence_absent (text : string) :
  ~ endsWithClosingFence text -> removeClosingFence text = text.
Proof.
  induction text as [|c s IH]; intros H; rewrite removeClosingFence_unfold.
  - reflexivity.
  - destruct (matchesClosingFence (String c s)) eqn:E.
    + exfalso. apply H. unfold matchesClosingFence in E.
      apply String.eqb_eq in E.
      destruct (dropSpaces_decompose (String c s)) as [ws Hws].
      exists ws. rewrite Hws at 1. rewrite E. reflexivity.
    + rewrite IH; [reflexivity|].
      intros [pre Hpre]. apply H. exists (String c pre). simpl. now rewrite Hpre.
Qed.

Lemma cleanText_fenced (ws1 body ws2 : string) :
  allSpace ws1 = true -> allSpace ws2 = true ->
  cleanText (fenced ws1 body ws2) = trim body.
Proof.
  intros H1 H2. unfold cleanText, fenced, trim.
  rewrite removeOpeningFence_fenced by exact H1.
  destruct (allSpace body) eqn:E.
  - rewrite dropSpaces_allSpace_app by exact E.
    rewrite dropSpaces_allSpace_app by exact H2.
    rewrite (dropSpaces_allSpace body E). reflexivity.
  - destruct (dropSpaces_not_allSpace_app body (ws2 ++ closingFence) E) as [-> _].
    apply removeClosingFence_fenced. exact H2.
Qed.

Lemma cleanText_unfenced (text : string) :
  stripPrefix openingFence text = None -> ~ endsWithClosingFence text ->
  cleanText text = text.
Proof.
  intros H1 H2. unfold cleanText.
  rewrite removeOpeningFence_absent by exact H1.
  apply removeClosingFence_absent. exact H2.
Qed.

(** What the helper does. It strips the opening marker (three
    backquotes and [json] at the very start, with the whitespace after it)
    and the closing marker (three backquotes at the very end, with the
    whitespace before them) and parses what is left: a body fenced in this
    way parses as the body without the whitespace around it, hence as the
    unfenced body when that has no whitespace around it and no marker of
    its own; each marker is stripped without the other; and for every input
    a text that does not parse after stripping makes the helper throw, a
    value is returned only when the parse gave it. *)
Theorem cleanAndParseJson_tolerates_fence {T : Type}
    (JSON_parse : string -> option T) (ws1 body ws2 : string) :
  allSpace ws1 = true -> allSpace ws2 = true ->
  cleanText (fenced ws1 body ws2) = trim body
  /\ cleanAndParseJson JSON_parse (fenced ws1 body ws2)
     = match JSON_parse (trim body) with
       | Some value => Ok value
       | None => Throw parseFailure
       end
  /\ (trim body = body -> stripPrefix openingFence body = None ->
      ~ endsWithClosingFence body ->
      cleanAndParseJson JSON_parse (fenced ws1 body ws2)
      = cleanAndParseJson JSON_parse body)
  /\ (forall rest : string,
        removeOpeningFence (openingFence ++ ws1 ++ rest) = dropSpaces rest)
  /\ (forall pre : string,
        removeClosingFence (pre ++ ws2 ++ closingFence) = trimEnd pre)
  /\ (forall input : string,
        (JSON_parse (cleanText input) = None ->
         cleanAndParseJson JSON_parse input = Throw parseFailure)
        /\ (forall value : T,
              cleanAndParseJson JSON_parse input = Ok value ->
              JSON_parse (cleanText input) = Some value)).
Proof.
  intros H1 H2.
  pose proof (cleanText_fenced ws1 body ws2 H1 H2) as Hclean.
  split; [exact Hclean|].
  split; [unfold cleanAndParseJson; rewrite Hclean; reflexivity|].
  split.
  { intros Htrim Hopen Hclose. unfold cleanAndParseJson.
    rewrite Hclean, Htrim, (cleanText_unfenced body Hopen Hclose). reflexivity. }
  split; [intros rest; apply removeOpeningFence_fenced; exact H1|].
  split; [intros pre; apply removeClosingFence_fenced; exact H2|].
  intros input. unfold cleanAndParseJson.
  split; [intros ->; reflexivity|].
  intros value. destruct (JSON_parse (cleanText input)); intros H;
    [injection H as ->; reflexivity | discriminate H].
Qed.

Lemma cleanAndParseJson_tolerates_fence_witness :
  cleanAndParseJson parseEmptyObject fencedAnswer = Ok tt
  /\ cleanAndParseJson parseEmptyObject fencedAnswer
     = cleanAndParseJson parseEmptyObject "{}".
Proof.
  destruct (cleanAndParseJson_tolerates_fence parseEmptyObject newline "{}" newline
              eq_refl eq_refl) as (_ & Hparse & Hsame & _).
  split; [exact Hparse|].
  apply Hsame; [reflexivity | reflexivity |].
  intros [pre Hpre]. apply (f_equal String.length) in Hpre.
  rewrite length_append in Hpre. simpl in Hpre. lia.
Defined.

(** C9. The helper is to parse an answer wrapped in a code fence, and
    does when the text ends with the closing fence. A line break after the
    closing fence is enough to defeat it: in the answer made of the opening
    fence with [json], a line break, [{}], a line break, the closing fence
    and a line break, the pattern of the closing fence is anchored at the
    end of the text and does not match, so the closing fence stays, what is
    left does not parse and the helper throws, although [{}] parses and
    the same answer without the last line break parses. Whatever the
    parser, the text that it is given still ends with the closing fence and
    the line break. *)
Theorem fenced_answer_with_line_break_throws :
  fencedAnswerThenNewline
  = (openingFence ++ newline ++ "{}" ++ newline ++ closingFence ++ newline)%string
  /\ cleanAndParseJson parseEmptyObject "{}" = Ok tt
  /\ cleanAndParseJson parseEmptyObject fencedAnswer = Ok tt
  /\ cleanText fencedAnswerThenNewline
     = ("{}" ++ newline ++ closingFence ++ newline)%string
  /\ cleanAndParseJson parseEmptyObject fencedAnswerThenNewline = Throw parseFailure
  /\ (forall (T : Type) (JSON_parse : string -> option T),
        cleanAndParseJson JSON_parse fencedAnswerThenNewline
        = match JSON_parse ("{}" ++ newline ++ closingFence ++ newline)%string with
          | Some value => Ok value
          | None => Throw parseFailure
          end).
Proof. repeat split. Qed.

(** Two shapes of a fenced answer that the helper does not unwrap. A line
    break after the closing fence keeps the closing marker in place, and a
    fence without the [json] tag keeps the opening marker in place: what is
    left does not parse and the helper throws, although the unfenced
    answer parses. *)
Lemma fence_markers_left_in_place :
  cleanAndParseJson parseEmptyObject "{}" = Ok tt
  /\ cleanText fencedAnswerThenNewline
     = ("{}" ++ newline ++ closingFence ++ newline)%string
  /\ cleanAndParseJson parseEmptyObject fencedAnswerThenNewline = Throw parseFailure
  /\ cleanText bareFencedAnswer = (closingFence ++ newline ++ "{}")%string
  /\ cleanAndParseJson parseEmptyObject bareFencedAnswer = Throw parseFailure.
Proof. repeat split. Qed.

(** ** Word definitions *)

Lemma tryCatch_rethrow {A : Type} (m : M A) (log : list Request) :
  tryCatch m (fun e => throw e) log = m log.
Proof. unfold tryCatch, throw. destruct (m log) as [[a|e] log']; reflexivity. Qed.

Lemma secondaryRequests_app (l1 l2 : list Request) :
  secondaryRequests (l1 ++ l2) = secondaryRequests l1 + secondaryRequests l2.
Proof. unfold secondaryRequests. rewrite List.filter_app, length_app. reflexivity. Qed.

(** The primary attempt sends nothing to the secondary provider. *)
Lemma askGemini_log (JSON_parse : string -> option WordDefinition)
    (env : ProcessEnv) (services : Services) (prompt : string)
    (log : list Request) :
  let log' := (askGemini JSON_parse env services prompt log).2 in
  log' = log
  \/ log' = log ++ [GeminiGenerateContent (API_KEY env) "gemini-2.5-flash" prompt].
Proof.
  unfold askGemini, getAi, bind, send, throw, ret, parseResponseText.
  destruct (isEmpty (API_KEY env)); simpl; [left; reflexivity|].
  right.
  destruct (generateContent services (API_KEY env) "gemini-2.5-flash" prompt)
    as [[s|]|e]; simpl; try reflexivity.
  destruct (JSON_parse s); reflexivity.
Qed.

(** The ways in which the primary attempt fails: no key, a failed request,
    an answer without text, or a text that does not parse. *)
Lemma askGemini_failure (JSON_parse : string -> option WordDefinition)
    (env : ProcessEnv) (services : Services) (prompt : string)
    (log log1 : list Request) (geminiError : exn) :
  askGemini JSON_parse env services prompt log = (Throw geminiError, log1) ->
  API_KEY env = ""
  \/ generateContent services (API_KEY env) "gemini-2.5-flash" prompt
     = Throw geminiError
  \/ generateContent services (API_KEY env) "gemini-2.5-flash" prompt = Ok None
  \/ exists s : string,
       generateContent services (API_KEY env) "gemini-2.5-flash" prompt
       = Ok (Some s)
       /\ JSON_parse s = None.
Proof.
  unfold askGemini, getAi, bind, send, throw, ret, parseResponseText.
  destruct (API_KEY env) as [|c k]; simpl; [left; reflexivity|].
  intros H. right.
  destruct (generateContent services (String c k) "gemini-2.5-flash" prompt)
    as [[s|]|e]; simpl in H.
  - destruct (JSON_parse s) eqn:E; [discriminate H|].
    right. right. exists s. split; [reflexivity | exact E].
  - right. left. reflexivity.
  - left. congruence.
Qed.

(** With a credential, the fallback sends exactly one request. *)
Lemma askDeepSeek_log (JSON_parse : string -> option WordDefinition)
    (env : ProcessEnv) (services : Services) (prompt : string)
    (log : list Request) :
  DEEPSEEK_API_KEY env <> "" ->
  (askDeepSeek JSON_parse env services prompt log).2
  = log ++ [DeepSeekChatCompletion (DEEPSEEK_API_KEY env) dictionaryPrompt prompt].
Proof.
  intros Hkey.
  unfold askDeepSeek, callDeepSeek, bind, send, throw, liftResult.
  destruct (DEEPSEEK_API_KEY env) as [|c k] eqn:E; [contradiction|]. simpl.
  fold dictionaryPrompt.
  destruct (fetchChatCompletion services (String c k) dictionaryPrompt prompt)
    as [response|e]; simpl; [|reflexivity].
  destruct (ok response); simpl; [|reflexivity].
  destruct (messageContent response); reflexivity.
Qed.

(** C1, as the code has it. When the request to the primary provider fails:
    with a secondary credential the operation sends one request to the
    secondary provider and its outcome is the outcome of that attempt, so a
    failure of the retry surfaces as the secondary failure; without a
    secondary credential no request is sent to the secondary provider and
    the primary failure surfaces. *)
Theorem getWordDefinition_fallback
    (JSON_parse : string -> option WordDefinition) (env : ProcessEnv)
    (services : Services) (word contextSentence : string)
    (log log1 : list Request) (geminiError : exn) :
  let prompt := definitionPrompt word contextSentence in
  let outcome := getWordDefinition JSON_parse env services word contextSentence log in
  askGemini JSON_parse env services prompt log = (Throw geminiError, log1) ->
  secondaryRequests log1 = secondaryRequests log
  /\ (DEEPSEEK_API_KEY env <> "" ->
      outcome = askDeepSeek JSON_parse env services prompt log1
      /\ outcome.2
         = log1 ++ [DeepSeekChatCompletion (DEEPSEEK_API_KEY env) dictionaryPrompt prompt]
      /\ secondaryRequests outcome.2 = S (secondaryRequests log)
      /\ (forall deepSeekError : exn,
            (askDeepSeek JSON_parse env services prompt log1).1 = Throw deepSeekError ->
            outcome.1 = Throw deepSeekError))
  /\ (DEEPSEEK_API_KEY env = "" -> outcome = (Throw geminiError, log1)).
Proof.
  intros prompt outcome Hprimary.
  assert (Hcount : secondaryRequests log1 = secondaryRequests log).
  { pose proof (askGemini_log JSON_parse env services prompt log) as Hlog.
    simpl in Hlog. rewrite Hprimary in Hlog. simpl in Hlog.
    destruct Hlog as [-> | ->]; [reflexivity|].
    rewrite secondaryRequests_app. unfold secondaryRequests. simpl. lia. }
  split; [exact Hcount|].
  assert (Hrun : outcome
                 = if isEmpty (DEEPSEEK_API_KEY env) then (Throw geminiError, log1)
                   else askDeepSeek JSON_parse env services prompt log1).
  { subst outcome. unfold getWordDefinition. fold prompt.
    unfold tryCatch at 1. rewrite Hprimary.
    destruct (isEmpty (DEEPSEEK_API_KEY env)); simpl; [reflexivity|].
    apply tryCatch_rethrow. }
  split.
  - intros Hkey.
    assert (Hne : isEmpty (DEEPSEEK_API_KEY env) = false)
      by (destruct (DEEPSEEK_API_KEY env); [contradiction | reflexivity]).
    rewrite Hne in Hrun. rewrite Hrun.
    pose proof (askDeepSeek_log JSON_parse env services prompt log1 Hkey) as Hlog.
    split; [reflexivity|].
    split; [exact Hlog|].
    split; [|intros e He; exact He].
    rewrite Hlog, secondaryRequests_app, Hcount.
    unfold secondaryRequests. simpl. lia.
  - intros Hkey. rewrite Hrun, Hkey. reflexivity.
Qed.

Lemma getWordDefinition_fallback_witness :
  BothFail.run.2
  = [GeminiGenerateContent "primary-key" "gemini-2.5-flash"
       (definitionPrompt "shadow" "Shadow the speaker.");
     DeepSeekChatCompletion "secondary-key" dictionaryPrompt
       (definitionPrompt "shadow" "Shadow the speaker.")]
  /\ secondaryRequests BothFail.run.2 = 1%nat.
Proof.
  destruct (getWordDefinition_fallback BothFail.JSON_parse BothFail.env
              BothFail.services "shadow" "Shadow the speaker." []
              [GeminiGenerateContent "primary-key" "gemini-2.5-flash"
                 (definitionPrompt "shadow" "Shadow the speaker.")]
              BothFail.primaryFailure eq_refl) as (_ & Hretry & _).
  destruct Hretry as (_ & Hlog & Hcount & _); [discriminate|].
  split; [exact Hlog | exact Hcount].
Defined.

(** C1 as stated fails when both providers fail: the failure that surfaces
    is the one of the retry, not the original one. *)
Lemma both_fail_surfaces_secondary_failure :
  askGemini BothFail.JSON_parse BothFail.env BothFail.services
    (definitionPrompt "shadow" "Shadow the speaker.") []
  = (Throw BothFail.primaryFailure,
     [GeminiGenerateContent "primary-key" "gemini-2.5-flash"
        (definitionPrompt "shadow" "Shadow the speaker.")])
  /\ DEEPSEEK_API_KEY BothFail.env = "secondary-key"
  /\ BothFail.run.1 = Throw BothFail.secondaryFailure
  /\ BothFail.run.1 <> Throw BothFail.primaryFailure.
Proof.
  split; [reflexivity|]. split; [reflexivity|]. split; [reflexivity|].
  intros H. discriminate H.
Qed.

(** When the primary provider answers, its answer is the result and no
    request goes to the secondary provider. *)
Lemma getWordDefinition_primary_success
    (JSON_parse : string -> option WordDefinition) (env : ProcessEnv)
    (services : Services) (word contextSentence : string)
    (log log1 : list Request) (value : WordDefinition) :
  askGemini JSON_parse env services (definitionPrompt word contextSentence) log
  = (Ok value, log1) ->
  getWordDefinition JSON_parse env services word contextSentence log = (Ok value, log1)
  /\ secondaryRequests log1 = secondaryRequests log.
Proof.
  intros H. split.
  - unfold getWordDefinition, tryCatch. rewrite H. reflexivity.
  - pose proof (askGemini_log JSON_parse env services
                  (definitionPrompt word contextSentence) log) as Hlog.
    simpl in Hlog. rewrite H in Hlog. simpl in Hlog.
    destruct Hlog as [-> | ->]; [reflexivity|].
    rewrite secondaryRequests_app. unfold secondaryRequests. simpl. lia.
Qed.

(** ** PCM playback *)

Lemma pairs_ind {A : Type} (P : list A -> Prop) :
  P [] -> (forall x : A, P [x]) ->
  (forall (x y : A) (l : list A), P l -> P (x :: y :: l)) ->
  forall l : list A, P l.
Proof.
  intros Hnil Hone Hstep l.
  assert (H : P l /\ forall x : A, P (x :: l)).
  { induction l as [|y l [IH1 IH2]]; [split; [exact Hnil | exact Hone]|].
    split; [apply IH2|]. intros x. apply Hstep. exact IH1. }
  exact (proj1 H).
Qed.

Lemma int16Elements_length (bytes : list Z) :
  length (int16Elements bytes) = length bytes / 2.
Proof.
  induction bytes as [| x | x y l IH] using pairs_ind; [reflexivity..|].
  simpl int16Elements. simpl length. rewrite IH.
  change (S (S (length l))) with (1 * 2 + length l).
  rewrite Nat.div_add_l by lia. lia.
Qed.

Lemma int16Elements_lookup (bytes : list Z) (i : nat) (lo hi : Z) :
  bytes !! (2 * i) = Some lo -> bytes !! (2 * i + 1) = Some hi ->
  int16Elements bytes !! i = Some (int16Of lo hi).
Proof.
  revert i. induction bytes as [| x | x y l IH] using pairs_ind; intros i Hlo Hhi.
  - discriminate Hlo.
  - destruct i as [|i]; [discriminate Hhi|].
    replace (2 * S i) with (S (S (2 * i))) in Hlo by lia. discriminate Hlo.
  - destruct i as [|i].
    + simpl in Hlo, Hhi. injection Hlo as ->. injection Hhi as ->. reflexivity.
    + replace (2 * S i) with (S (S (2 * i))) in Hlo by lia.
      replace (2 * S i + 1) with (S (S (2 * i + 1))) in Hhi by lia.
      simpl in Hlo, Hhi. simpl. apply IH; assumption.
Qed.

Lemma int16Elements_from_bytes (bytes : list Z) :
  Forall (fun b => In b byteValues) bytes ->
  Forall (fun v => exists lo hi : Z,
            In lo byteValues /\ In hi byteValues /\ v = int16Of lo hi)
         (int16Elements bytes).
Proof.
  induction bytes as [| x | x y l IH] using pairs_ind; intros H; simpl;
    [constructor..|].
  inversion H as [|? ? Hx H']; subst. inversion H' as [|? ? Hy Hl]; subst.
  constructor; [exists x, y; auto | apply IH; exact Hl].
Qed.

Lemma charCodes_bytes (s : string) :
  Forall (fun b => In b byteValues) (charCodes s).
Proof.
  unfold charCodes. apply Forall_forall. intros b Hb.
  apply list_elem_of_In, in_map_iff in Hb as (c & <- & _).
  unfold byteValues. apply in_map, in_seq.
  pose proof (nat_ascii_bounded c). lia.
Qed.

Lemma all_samples_in_range :
  forallb (fun lo => forallb (fun hi => sampleInRange (sampleOf (int16Of lo hi)))
                       byteValues) byteValues = true.
Proof. vm_compute. reflexivity. Qed.

Lemma sample_in_range (lo hi : Z) :
  In lo byteValues -> In hi byteValues ->
  sampleInRange (sampleOf (int16Of lo hi)) = true.
Proof.
  intros Hlo Hhi. pose proof all_samples_in_range as H.
  rewrite forallb_forall in H. specialize (H lo Hlo).
  rewrite forallb_forall in H. exact (H hi Hhi).
Qed.

Lemma byteValues_In (b : Z) : (0 <= b < 256)%Z -> In b byteValues.
Proof.
  intros Hb. unfold byteValues. apply in_map_iff.
  exists (Z.to_nat b). split; [lia | apply in_seq; lia].
Qed.

(** The conversion of a 16-bit integer to a number is exact: it maps 0 to
    0 and the successor to the successor. *)
Lemma numberOfInt16_succ_all :
  forallb (fun lo => forallb (fun hi =>
             let v := (lo + 256 * hi - 32768)%Z in
             (32767 <=? v)%Z
             || Leibniz.eqb (numberOfInt16 (v + 1)) (numberOfInt16 v + 1)%float)
             byteValues) byteValues = true.
Proof. vm_compute. reflexivity. Qed.

Lemma numberOfInt16_zero : numberOfInt16 0 = 0%float.
Proof. reflexivity. Qed.

Lemma numberOfInt16_succ (v : Z) :
  (-32768 <= v < 32767)%Z ->
  numberOfInt16 (v + 1) = (numberOfInt16 v + 1)%float.
Proof.
  intros Hv. pose proof numberOfInt16_succ_all as H.
  rewrite forallb_forall in H.
  assert (Hlo : In ((v + 32768) mod 256)%Z byteValues)
    by (apply byteValues_In, Z.mod_pos_bound; lia).
  assert (Hhi : In ((v + 32768) / 256)%Z byteValues).
  { apply byteValues_In.
    split; [apply Z.div_pos; lia | apply Z.div_lt_upper_bound; lia]. }
  specialize (H _ Hlo). rewrite forallb_forall in H.
  specialize (H _ Hhi). cbv zeta in H.
  replace ((v + 32768) mod 256 + 256 * ((v + 32768) / 256) - 32768)%Z
    with v in H
    by (pose proof (Z.div_mod (v + 32768) 256); lia).
  apply Leibniz.eqb_spec.
  destruct (32767 <=? v)%Z eqn:E; [apply Z.leb_le in E; lia | exact H].
Qed.

(** The two bytes, low byte first, as a signed 16-bit integer. *)
Lemma all_int16Of_value :
  forallb (fun lo => forallb (fun hi =>
             let u := (lo + 256 * hi)%Z in
             Z.eqb (int16Of lo hi) (if (u <? 32768)%Z then u else (u - 65536)%Z))
             byteValues) byteValues = true.
Proof. vm_compute. reflexivity. Qed.

Lemma int16Of_value (lo hi : Z) :
  In lo byteValues -> In hi byteValues ->
  int16Of lo hi
  = if (lo + 256 * hi <? 32768)%Z then (lo + 256 * hi)%Z
    else (lo + 256 * hi - 65536)%Z.
Proof.
  intros Hlo Hhi. pose proof all_int16Of_value as H.
  rewrite forallb_forall in H. specialize (H lo Hlo).
  rewrite forallb_forall in H. specialize (H hi Hhi).
  apply Z.eqb_eq in H. exact H.
Qed.

Lemma fillChannel_all (int16Data : list Z) (channelData : list float) :
  length channelData = length int16Data ->
  fillChannel int16Data channelData = map sampleOf int16Data.
Proof.
  revert channelData. induction int16Data as [|v vs IH]; intros [|x xs] H;
    simpl in *; try discriminate; [reflexivity|].
  rewrite IH by lia. reflexivity.
Qed.

Lemma playPcmData_even (base64String decoded : string) :
  atob base64String = Ok decoded ->
  Nat.even (length (charCodes decoded)) = true ->
  charCodes decoded <> [] ->
  playPcmData base64String = Ok (map sampleOf (int16Elements (charCodes decoded))).
Proof.
  intros Hatob Heven Hne. unfold playPcmData, newInt16Array.
  rewrite Hatob, Heven.
  destruct (charCodes decoded) as [|lo [|hi rest]]; [contradiction|discriminate|].
  cbn [int16Elements length createBuffer].
  rewrite fillChannel_all; [reflexivity|]. apply repeat_length.
Qed.

(** C10, as the code has it. When the decoded byte string has an even
    length that is not zero, the decoder produces length / 2 samples,
    sample [i] is the [i]-th little-endian signed 16-bit integer of the
    bytes divided by 32768, and every sample lies in [-1, 1). When the
    length is odd the 16-bit view is refused: the decoder throws a
    [RangeError] and produces no samples. When no byte is decoded the audio
    context refuses the buffer of no frames: the decoder throws a
    [NotSupportedError]. *)
Theorem playPcmData_samples (base64String decoded : string) :
  atob base64String = Ok decoded ->
  let bytes := charCodes decoded in
  (Nat.even (length bytes) = true -> bytes <> [] ->
   exists samples : list float,
     playPcmData base64String = Ok samples
     /\ length samples = length bytes / 2
     /\ (forall (i : nat) (lo hi : Z),
           bytes !! (2 * i) = Some lo -> bytes !! (2 * i + 1) = Some hi ->
           samples !! i = Some (numberOfInt16 (int16Of lo hi) / 32768)%float
           /\ int16Of lo hi
              = if (lo + 256 * hi <? 32768)%Z then (lo + 256 * hi)%Z
                else (lo + 256 * hi - 65536)%Z)
     /\ Forall (fun x => (-1 <=? x)%float = true /\ (x <? 1)%float = true) samples)
  /\ (Nat.even (length bytes) = false ->
      playPcmData base64String = Throw oddLength)
  /\ (bytes = [] -> playPcmData base64String = Throw noFrames).
Proof.
  intros Hatob bytes. split; [|split].
  2:{ intros Hodd. unfold playPcmData, newInt16Array. rewrite Hatob.
      fold bytes. rewrite Hodd. reflexivity. }
  2:{ intros Hnil. unfold playPcmData, newInt16Array. rewrite Hatob.
      fold bytes. rewrite Hnil. reflexivity. }
  intros Heven Hne.
  exists (map sampleOf (int16Elements bytes)).
  split; [exact (playPcmData_even base64String decoded Hatob Heven Hne)|].
  split; [rewrite length_map; apply int16Elements_length|].
  pose proof (charCodes_bytes decoded) as Hbytes. fold bytes in Hbytes.
  split.
  - intros i lo hi Hlo Hhi. split.
    + change (map sampleOf (int16Elements bytes))
        with (sampleOf <$> int16Elements bytes).
      rewrite list_lookup_fmap, (int16Elements_lookup bytes i lo hi Hlo Hhi).
      reflexivity.
    + rewrite Forall_forall in Hbytes.
      apply int16Of_value; apply Hbytes;
        eapply list_elem_of_lookup_2; eassumption.
  - pose proof (int16Elements_from_bytes bytes Hbytes) as Hall.
    apply Forall_map. eapply Forall_impl; [exact Hall|].
    intros v (lo & hi & Hlo & Hhi & ->).
    apply andb_true_iff. exact (sample_in_range lo hi Hlo Hhi).
Qed.

Lemma playPcmData_samples_witness :
  exists samples : list float,
    playPcmData "AAD/fwCA" = Ok samples
    /\ length samples = 3%nat
    /\ samples !! 1%nat = Some 0.999969482421875%float
    /\ samples !! 2%nat = Some (-1)%float.
Proof.
  destruct (playPcmData_samples "AAD/fwCA" _ eq_refl) as [Heven _].
  destruct (Heven eq_refl ltac:(discriminate))
    as (samples & Hplay & Hlength & Hsample & _).
  exists samples. split; [exact Hplay|]. split; [exact Hlength|].
  split.
  - exact (proj1 (Hsample 1%nat 255%Z 127%Z eq_refl eq_refl)).
  - exact (proj1 (Hsample 2%nat 0%Z 128%Z eq_refl eq_refl)).
Defined.

(** C10 as stated fails on an odd number of bytes: the one byte that
    [AQ==] encodes gives no list of 1 / 2 = 0 samples, the decoder
    throws. *)
Lemma odd_byte_count_throws :
  atob "AQ==" = Ok (binaryString [1%Z])
  /\ length (charCodes (binaryString [1%Z])) = 1%nat
  /\ playPcmData "AQ==" = Throw oddLength
  /\ playPcmData "AQ==" <> Ok [].
Proof.
  split; [reflexivity|]. split; [reflexivity|]. split; [reflexivity|].
  intros H. discriminate H.
Qed.

(** A text of whitespace alone decodes to no byte, and the decoder throws
    on it too. *)
Lemma no_byte_throws :
  atob " " = Ok "" /\ playPcmData " " = Throw noFrames.
Proof. split; reflexivity. Qed.

(** * Properties of the rest of the client *)

(** ** The merger, block by block *)

Lemma collapse_snoc (first next : TranscriptionSegment)
    (others : list TranscriptionSegment) :
  collapse (first, others ++ [next]) = mergeInto (collapse (first, others)) next.
Proof. unfold collapse. simpl. rewrite fold_left_app. reflexivity. Qed.

Lemma foldSegments_collapse (rest : list TranscriptionSegment)
    (block : TranscriptionSegment * list TranscriptionSegment) :
  exists blocks : list (TranscriptionSegment * list TranscriptionSegment),
    concat (map blockSegments blocks) = blockSegments block ++ rest
    /\ foldSegments (collapse block) rest = map collapse blocks.
Proof.
  revert block. induction rest as [|next rest IH]; intros [first others].
  - exists [(first, others)]. simpl. rewrite !app_nil_r. split; reflexivity.
  - simpl foldSegments. destruct (meetsMergeCondition (collapse (first, others))).
    + rewrite <- mergeInto_mergedWith, <- collapse_snoc.
      destruct (IH (first, others ++ [next])) as (blocks & Hc & Hf).
      exists blocks. split; [|exact Hf].
      rewrite Hc. unfold blockSegments. simpl.
      rewrite <- app_assoc. reflexivity.
    + destruct (IH (next, [])) as (blocks & Hc & Hf).
      exists ((first, others) :: blocks). simpl. split.
      * rewrite Hc. reflexivity.
      * unfold collapse at 1 in Hf. simpl in Hf. rewrite Hf. reflexivity.
Qed.

Lemma collapse_fields (others : list TranscriptionSegment)
    (first : TranscriptionSegment) :
  start (collapse (first, others)) = start first
  /\ isFavorite (collapse (first, others)) = isFavorite first
  /\ Some (end_ (collapse (first, others))) = end_ <$> last (first :: others)
  /\ text (collapse (first, others))
     = String.concat " " (map text (first :: others))
  /\ translation (collapse (first, others))
     = String.concat " " (map translation (first :: others))
  /\ idiomatic (collapse (first, others))
     = lastNonEmpty (idiomatic first) (map idiomatic others).
Proof.
  induction others as [|next others IH] using rev_ind.
  - repeat split.
  - destruct IH as (Hs & Hf & He & Ht & Htr & Hi).
    rewrite collapse_snoc. unfold mergeInto.
    cbn [start isFavorite end_ text translation idiomatic].
    split; [exact Hs|]. split; [exact Hf|].
    split.
    { replace (first :: others ++ [next]) with ((first :: others) ++ [next])
        by reflexivity.
      rewrite last_snoc. reflexivity. }
    split.
    { rewrite Ht.
      replace (first :: others ++ [next]) with ((first :: others) ++ [next])
        by reflexivity.
      rewrite map_app. change (map text [next]) with [text next].
      rewrite concat_snoc; [reflexivity | simpl; intros Hnil; discriminate Hnil]. }
    split.
    { rewrite Htr.
      replace (first :: others ++ [next]) with ((first :: others) ++ [next])
        by reflexivity.
      rewrite map_app. change (map translation [next]) with [translation next].
      rewrite concat_snoc; [reflexivity | simpl; intros Hnil; discriminate Hnil]. }
    rewrite Hi. unfold lastNonEmpty. rewrite map_app, fold_left_app. reflexivity.
Qed.

(** X1. Every output segment of the merger is a block of consecutive input
    segments collapsed into one, and the blocks make up the input in
    order. A collapsed block has the start and the favourite flag of its
    first segment, the end of its last, the texts and the translations
    joined by single spaces, and the last idiomatic of the block that is
    not empty. So the starts of the output are starts of the input, in the
    same order. *)
Theorem merger_collapses_blocks (input : list TranscriptionSegment) :
  (exists blocks : list (TranscriptionSegment * list TranscriptionSegment),
     concat (map blockSegments blocks) = input
     /\ mergeShortSegments input = map collapse blocks)
  /\ (forall (first : TranscriptionSegment) (others : list TranscriptionSegment),
        start (collapse (first, others)) = start first
        /\ isFavorite (collapse (first, others)) = isFavorite first
        /\ Some (end_ (collapse (first, others))) = end_ <$> last (first :: others)
        /\ text (collapse (first, others))
           = String.concat " " (map text (first :: others))
        /\ translation (collapse (first, others))
           = String.concat " " (map translation (first :: others))
        /\ idiomatic (collapse (first, others))
           = lastNonEmpty (idiomatic first) (map idiomatic others))
  /\ sublist (map start (mergeShortSegments input)) (map start input).
Proof.
  assert (Hblocks : exists blocks,
             concat (map blockSegments blocks) = input
             /\ mergeShortSegments input = map collapse blocks).
  { rewrite mergeShortSegments_segmentMerger.
    destruct input as [|first rest]; [exists []; split; reflexivity|].
    exact (foldSegments_collapse rest (first, [])). }
  split; [exact Hblocks|].
  split; [intros first others; apply collapse_fields|].
  destruct Hblocks as (blocks & <- & ->). clear.
  induction blocks as [|[first others] blocks IH]; simpl; [constructor|].
  rewrite (proj1 (collapse_fields others first)).
  rewrite map_app. simpl. apply sublist_skip.
  apply sublist_inserts_l. exact IH.
Qed.

(** ** Splitting at a character *)

Lemma splitOnLoop_nonempty (sep : ascii) (s piece : string) :
  splitOnLoop sep s piece <> [].
Proof.
  revert piece. induction s as [|c s IH]; intros piece; simpl; [discriminate|].
  destruct (Ascii.eqb c sep); [discriminate | apply IH].
Qed.

Lemma concat_cons_nonempty (sep x : string) (l : list string) :
  l <> [] ->
  String.concat sep (x :: l) = (x ++ sep ++ String.concat sep l)%string.
Proof. destruct l; [contradiction | reflexivity]. Qed.

Lemma splitOnLoop_join (sep : ascii) (s piece : string) :
  String.concat (String sep "") (splitOnLoop sep s piece) = (piece ++ s)%string.
Proof.
  revert piece. induction s as [|c s IH]; intros piece; simpl splitOnLoop.
  - simpl. symmetry. apply append_empty_r.
  - destruct (Ascii.eqb c sep) eqn:E.
    + apply Ascii.eqb_eq in E. subst c.
      rewrite concat_cons_nonempty by apply splitOnLoop_nonempty.
      rewrite IH. reflexivity.
    + rewrite IH, append_assoc. reflexivity.
Qed.

Lemma splitOnLoop_app (sep : ascii) (a b piece : string) :
  splitOnLoop sep (a ++ String sep b) piece
  = splitOnLoop sep a piece ++ splitOnLoop sep b "".
Proof.
  revert piece. induction a as [|c a IH]; intros piece; simpl.
  - rewrite Ascii.eqb_refl. reflexivity.
  - destruct (Ascii.eqb c sep); [rewrite IH; reflexivity | apply IH].
Qed.

Lemma splitOnLoop_no_separator (sep : ascii) (s piece : string) :
  contains sep s = false -> splitOnLoop sep s piece = [(piece ++ s)%string].
Proof.
  revert piece. induction s as [|c s IH]; intros piece H; simpl in *.
  - rewrite append_empty_r. reflexivity.
  - apply orb_false_iff in H as [Hc Hs]. rewrite Hc.
    rewrite IH by exact Hs. rewrite append_assoc. reflexivity.
Qed.

(** X2. Reading a file as base64. On a data URL whose header and payload
    hold no comma, the payload is returned when it is not empty; when it is
    empty (an empty file) the whole data URL is returned, header included;
    a result without a comma is returned as it is; a failure of the reader
    is the failure of the function. *)
Theorem fileToBase64_payload (file : File) (header payload : string) :
  contains comma header = false ->
  contains comma payload = false ->
  readAsDataURL file = Ok (header ++ String comma payload)%string ->
  (payload <> "" -> fileToBase64 file = Ok payload)
  /\ (payload = "" -> fileToBase64 file = Ok (header ++ String comma "")%string)
  /\ base64OfDataURL header = header
  /\ (forall (other : File) (e : exn),
        readAsDataURL other = Throw e -> fileToBase64 other = Throw e).
Proof.
  intros Hheader Hpayload Hread.
  assert (Hsplit : splitOn comma (header ++ String comma payload)%string
                   = [header; payload]).
  { unfold splitOn. rewrite splitOnLoop_app.
    rewrite !splitOnLoop_no_separator by assumption. reflexivity. }
  unfold fileToBase64. rewrite Hread. unfold base64OfDataURL. rewrite Hsplit.
  split; [|split; [|split]].
  - intros Hne. simpl. destruct payload; [contradiction | reflexivity].
  - intros ->. reflexivity.
  - unfold splitOn. rewrite splitOnLoop_no_separator by exact Hheader.
    reflexivity.
  - intros other e He. rewrite He. reflexivity.
Qed.

Lemma fileToBase64_payload_witness :
  fileToBase64 (mkFile "clip.mp3" 3 "audio/mpeg" (Ok "data:audio/mpeg;base64,AAD/"))
  = Ok "AAD/".
Proof.
  apply (fileToBase64_payload
           (mkFile "clip.mp3" 3 "audio/mpeg" (Ok "data:audio/mpeg;base64,AAD/"))
           "data:audio/mpeg;base64" "AAD/"); [reflexivity..|].
  discriminate.
Defined.

(** X3. The words that the transcript renders for a segment, joined by
    single spaces, are the text of the segment; and the words of a merged
    segment are the words of the accumulator followed by the words of the
    segment that it took in. *)
Theorem renderedWords_join_and_merge :
  (forall segment : TranscriptionSegment,
     String.concat " " (renderedWords segment) = text segment)
  /\ (forall current next : TranscriptionSegment,
        renderedWords (mergeInto current next)
        = renderedWords current ++ renderedWords next).
Proof.
  split.
  - intros segment. unfold renderedWords, splitOn.
    exact (splitOnLoop_join space (text segment) "").
  - intros current next. unfold renderedWords, splitOn.
    exact (splitOnLoop_app space (text current) (text next) "").
Qed.

(** ** Word lookup *)

Lemma cleanWord_idempotent (w : string) : cleanWord (cleanWord w) = cleanWord w.
Proof.
  induction w as [|c w IH]; simpl; [reflexivity|].
  destruct (isWordChar c) eqn:E; simpl; rewrite ?E, IH; reflexivity.
Qed.

Lemma cleanWord_allWordChars (w : string) : allWordChars (cleanWord w) = true.
Proof.
  induction w as [|c w IH]; simpl; [reflexivity|].
  destruct (isWordChar c) eqn:E; simpl; rewrite ?E; exact IH.
Qed.

Lemma cleanWord_keeps (w : string) : allWordChars w = true -> cleanWord w = w.
Proof.
  induction w as [|c w IH]; simpl; [reflexivity|].
  intros H. apply andb_true_iff in H as [-> H]. rewrite IH by exact H.
  reflexivity.
Qed.

Lemma askGemini_requests (JSON_parse : string -> option WordDefinition)
    (env : ProcessEnv) (services : Services) (prompt : string)
    (log : list Request) :
  (askGemini JSON_parse env services prompt log).2
  = log ++ (if isEmpty (API_KEY env) then []
            else [GeminiGenerateContent (API_KEY env) "gemini-2.5-flash" prompt]).
Proof.
  unfold askGemini, getAi, bind, send, throw, ret, parseResponseText.
  destruct (API_KEY env) as [|c k]; simpl; [rewrite app_nil_r; reflexivity|].
  destruct (generateContent services (String c k) "gemini-2.5-flash" prompt)
    as [[s|]|e]; simpl; try reflexivity.
  destruct (JSON_parse s); reflexivity.
Qed.

Lemma askDeepSeek_requests (JSON_parse : string -> option WordDefinition)
    (env : ProcessEnv) (services : Services) (prompt : string)
    (log : list Request) :
  (askDeepSeek JSON_parse env services prompt log).2
  = log ++ (if isEmpty (DEEPSEEK_API_KEY env) then []
            else [DeepSeekChatCompletion (DEEPSEEK_API_KEY env) dictionaryPrompt prompt]).
Proof.
  unfold askDeepSeek, callDeepSeek, bind, send, throw, liftResult.
  destruct (DEEPSEEK_API_KEY env) as [|c k]; simpl;
    [rewrite app_nil_r; reflexivity|].
  fold dictionaryPrompt.
  destruct (fetchChatCompletion services (String c k) dictionaryPrompt prompt)
    as [response|e]; simpl; [|reflexivity].
  destruct (ok response); simpl; [|reflexivity].
  destruct (messageContent response); reflexivity.
Qed.

(** X4. The requests of a word definition: one to the primary provider
    unless its key is missing, then one to the secondary provider exactly
    when the primary attempt failed and the secondary key is there, and
    nothing else. With the primary key missing and the secondary one
    present the outcome is the one of the secondary provider; with both
    missing the operation throws the error of the missing primary key and
    sends nothing. *)
Theorem getWordDefinition_requests
    (JSON_parse : string -> option WordDefinition) (env : ProcessEnv)
    (services : Services) (word contextSentence : string) (log : list Request) :
  let prompt := definitionPrompt word contextSentence in
  let primary := askGemini JSON_parse env services prompt log in
  let outcome := getWordDefinition JSON_parse env services word contextSentence log in
  outcome.2
  = log
    ++ (if isEmpty (API_KEY env) then []
        else [GeminiGenerateContent (API_KEY env) "gemini-2.5-flash" prompt])
    ++ (if failed primary.1 && negb (isEmpty (DEEPSEEK_API_KEY env))
        then [DeepSeekChatCompletion (DEEPSEEK_API_KEY env) dictionaryPrompt prompt]
        else [])
  /\ (API_KEY env = "" -> DEEPSEEK_API_KEY env <> "" ->
      outcome = askDeepSeek JSON_parse env services prompt log)
  /\ (API_KEY env = "" -> DEEPSEEK_API_KEY env = "" ->
      outcome
      = (Throw (Error "API Key is missing. Please check your deployment environment variables."),
         log)).
Proof.
  intros prompt primary outcome.
  pose proof (askGemini_requests JSON_parse env services prompt log) as Hg.
  fold primary in Hg.
  assert (Hrun : outcome
                 = match primary.1 with
                   | Ok value => (Ok value, primary.2)
                   | Throw geminiError =>
                       if isEmpty (DEEPSEEK_API_KEY env)
                       then (Throw geminiError, primary.2)
                       else askDeepSeek JSON_parse env services prompt primary.2
                   end).
  { subst outcome. unfold getWordDefinition. fold prompt.
    unfold tryCatch at 1. fold primary.
    destruct primary as [[value|geminiError] log1]; simpl; [reflexivity|].
    destruct (isEmpty (DEEPSEEK_API_KEY env)); simpl; [reflexivity|].
    apply tryCatch_rethrow. }
  split.
  - rewrite Hrun. destruct primary.1 as [value|geminiError]; simpl.
    + rewrite Hg, app_nil_r. reflexivity.
    + destruct (isEmpty (DEEPSEEK_API_KEY env)) eqn:Ek; simpl.
      * rewrite Hg, app_nil_r. reflexivity.
      * rewrite askDeepSeek_requests, Ek, Hg, <- app_assoc. reflexivity.
  - assert (Hmissing : API_KEY env = "" ->
              primary
              = (Throw (Error "API Key is missing. Please check your deployment environment variables."),
                 log)).
    { intros Hkey. subst primary. unfold askGemini, getAi, bind, throw.
      rewrite Hkey. reflexivity. }
    split; intros Hkey Hdeep; rewrite Hrun, (Hmissing Hkey); simpl.
    + destruct (DEEPSEEK_API_KEY env); [contradiction | reflexivity].
    + rewrite Hdeep. reflexivity.
Qed.

Lemma getWordDefinition_requests_witness :
  (getWordDefinition BothFail.JSON_parse (mkEnv "" "") BothFail.services
     "shadow" "Shadow the speaker." []).2 = [].
Proof.
  destruct (getWordDefinition_requests BothFail.JSON_parse (mkEnv "" "")
              BothFail.services "shadow" "Shadow the speaker." [])
    as (_ & _ & Hnone).
  rewrite (Hnone eq_refl eq_refl). reflexivity.
Defined.

(** X5. The request to the secondary provider. Without a key it throws
    and sends nothing; with a key it sends one request, and then a failure
    of the request is thrown as it is, an answer that is not [ok] is thrown
    as an error that carries its status text, and an [ok] answer gives its
    message content. *)
Theorem callDeepSeek_outcomes (env : ProcessEnv) (services : Services)
    (systemPrompt userPrompt : string) (log : list Request) :
  let request :=
    DeepSeekChatCompletion (DEEPSEEK_API_KEY env) systemPrompt userPrompt in
  let answer :=
    fetchChatCompletion services (DEEPSEEK_API_KEY env) systemPrompt userPrompt in
  (DEEPSEEK_API_KEY env = "" ->
   callDeepSeek env services systemPrompt userPrompt log
   = (Throw (Error "DeepSeek API Key is missing"), log))
  /\ (DEEPSEEK_API_KEY env <> "" ->
      (forall e : exn, answer = Throw e ->
         callDeepSeek env services systemPrompt userPrompt log
         = (Throw e, log ++ [request]))
      /\ (forall response : HttpResponse, answer = Ok response ->
            callDeepSeek env services systemPrompt userPrompt log
            = (if ok response then messageContent response
               else Throw (Error ("DeepSeek API Error: " ++ statusText response)),
               log ++ [request]))).
Proof.
  intros request answer. subst request answer.
  unfold callDeepSeek, bind, send, throw, liftResult.
  split.
  - intros ->. reflexivity.
  - intros Hkey. destruct (DEEPSEEK_API_KEY env) as [|c k]; [contradiction|].
    simpl. split.
    + intros e ->. reflexivity.
    + intros response ->. destruct (ok response); reflexivity.
Qed.

Lemma callDeepSeek_outcomes_witness :
  callDeepSeek (mkEnv "k1" "k2")
    (mkServices (fun _ _ _ => Ok None)
       (fun _ _ _ => Ok (mkHttpResponse false "Too Many Requests" (Ok "{}"))))
    dictionaryPrompt "Define" []
  = (Throw (Error "DeepSeek API Error: Too Many Requests"),
     [DeepSeekChatCompletion "k2" dictionaryPrompt "Define"]).
Proof.
  destruct (callDeepSeek_outcomes (mkEnv "k1" "k2")
              (mkServices (fun _ _ _ => Ok None)
                 (fun _ _ _ => Ok (mkHttpResponse false "Too Many Requests" (Ok "{}"))))
              dictionaryPrompt "Define" []) as [_ Hkey].
  destruct Hkey as [_ Hanswer]; [discriminate|].
  exact (Hanswer _ eq_refl).
Defined.

(** X6. A click on a word never throws. A word without a letter, digit,
    underscore or apostrophe sends no request and leaves the shown
    definition as it is; otherwise the definition is asked for the cleaned
    word, a failure leaves the shown definition as it is and a success
    replaces it. Cleaning keeps only those characters and cleaning twice
    changes nothing more. *)
Theorem handleWordClick_outcomes
    (JSON_parse : string -> option WordDefinition) (env : ProcessEnv)
    (services : Services) (clicked segmentText : string)
    (definition : option WordDefinition) (log : list Request) :
  let outcome :=
    handleWordClick JSON_parse env services clicked segmentText definition log in
  let lookup :=
    getWordDefinition JSON_parse env services (cleanWord clicked) segmentText log in
  (cleanWord clicked = "" -> outcome = (Ok definition, log))
  /\ (cleanWord clicked <> "" ->
      outcome
      = (Ok match lookup.1 with
            | Ok def => Some def
            | Throw _ => definition
            end, lookup.2))
  /\ allWordChars (cleanWord clicked) = true
  /\ cleanWord (cleanWord clicked) = cleanWord clicked.
Proof.
  intros outcome lookup. subst outcome. unfold handleWordClick.
  split; [intros ->; reflexivity|].
  split; [|split; [apply cleanWord_allWordChars | apply cleanWord_idempotent]].
  intros Hne. fold lookup.
  destruct (cleanWord clicked) as [|c w] eqn:E; [contradiction|]. simpl.
  unfold tryCatch, bind, ret. fold lookup.
  destruct lookup as [[def|e] log1]; reflexivity.
Qed.

Lemma handleWordClick_outcomes_witness :
  handleWordClick BothFail.JSON_parse BothFail.env BothFail.services
    "..." "Well ... fine." None []
  = (Ok None, []).
Proof.
  apply (handleWordClick_outcomes BothFail.JSON_parse BothFail.env
           BothFail.services "..." "Well ... fine." None []).
  reflexivity.
Defined.

(** ** Transcription and speech *)

Lemma mergeShortSegments_join (input : list TranscriptionSegment) :
  String.concat " " (map text (mergeShortSegments input))
  = String.concat " " (map text input).
Proof.
  rewrite mergeShortSegments_segmentMerger.
  destruct input as [|first rest]; [reflexivity|].
  exact (foldSegments_join rest first).
Qed.

Lemma mergeShortSegments_length (input : list TranscriptionSegment) :
  length (mergeShortSegments input) <= length input.
Proof.
  rewrite mergeShortSegments_segmentMerger.
  destruct input as [|first rest]; [reflexivity|].
  exact (foldSegments_length rest first).
Qed.

Lemma mergeShortSegments_last_end (input : list TranscriptionSegment) :
  end_ <$> last (mergeShortSegments input) = end_ <$> last input.
Proof.
  rewrite mergeShortSegments_segmentMerger.
  destruct input as [|first rest]; [reflexivity|].
  exact (foldSegments_last_end rest first).
Qed.

Lemma transcribeAudio_run (JSON_parse : string -> option TranscriptionResponse)
    (env : ProcessEnv) (services : AudioServices) (file : File)
    (log : list AudioRequest) :
  transcribeAudio JSON_parse env services file log
  = match readAsDataURL file with
    | Throw e => (Throw e, log)
    | Ok dataURL =>
        if isEmpty (API_KEY env) then (Throw missingApiKey, log)
        else
          (match transcriptionAnswer env services file dataURL with
           | Throw e => Throw e
           | Ok None | Ok (Some EmptyString) => Throw emptyResponse
           | Ok (Some responseText) =>
               match JSON_parse responseText with
               | Some parsed => Ok (withMergedSegments parsed)
               | None => Throw (SyntaxError "Unexpected token")
               end
           end, log ++ [transcriptionRequest env file dataURL])
    end.
Proof.
  unfold transcribeAudio, fileToBase64, bindL at 1, liftL.
  destruct (readAsDataURL file) as [dataURL|e]; [|reflexivity].
  unfold catchL, bindL, getAiL, sendL, throwL, pureL, parseTranscription,
    transcriptionAnswer, transcriptionRequest.
  destruct (isEmpty (API_KEY env)); [reflexivity|].
  destruct (generateFromAudio services (API_KEY env) TRANSCRIPTION_MODEL
              (orElse (fileType file) "audio/mp3") (base64OfDataURL dataURL)
              transcribePrompt) as [[[|c t]|]|e]; try reflexivity.
  unfold throwL, pureL. destruct (JSON_parse (String c t)); reflexivity.
Qed.

Lemma isEmpty_false (s : string) : isEmpty s = false <-> s <> "".
Proof. destruct s; simpl; split; intros H; try congruence; discriminate. Qed.

(** X7. A transcription succeeds exactly when the file could be read,
    the key of the primary provider is there, the provider answered the one
    request with a text that is not empty and the text parses; the request
    carries the base64 part of the data URL and the MIME type of the file,
    or audio/mp3 when the file has none. The result is then the parsed
    answer with its segments merged: language and meta are the parsed ones,
    there are no more segments than parsed, their texts joined with single
    spaces are the parsed texts joined, and the last end is the parsed
    one. *)
Theorem transcribeAudio_success
    (JSON_parse : string -> option TranscriptionResponse) (env : ProcessEnv)
    (services : AudioServices) (file : File) (log log' : list AudioRequest)
    (response : TranscriptionResponse) :
  transcribeAudio JSON_parse env services file log = (Ok response, log')
  <-> exists (dataURL responseText : string) (parsed : TranscriptionResponse),
        readAsDataURL file = Ok dataURL
        /\ API_KEY env <> ""
        /\ transcriptionAnswer env services file dataURL = Ok (Some responseText)
        /\ responseText <> ""
        /\ JSON_parse responseText = Some parsed
        /\ log' = log ++ [transcriptionRequest env file dataURL]
        /\ language response = language parsed
        /\ meta response = meta parsed
        /\ segments response = mergeShortSegments (segments parsed)
        /\ length (segments response) <= length (segments parsed)
        /\ String.concat " " (map text (segments response))
           = String.concat " " (map text (segments parsed))
        /\ end_ <$> last (segments response) = end_ <$> last (segments parsed).
Proof.
  rewrite transcribeAudio_run. split.
  - destruct (readAsDataURL file) as [dataURL|e]; [|discriminate].
    destruct (isEmpty (API_KEY env)) eqn:Ek; [discriminate|].
    destruct (transcriptionAnswer env services file dataURL)
      as [[[|c t]|]|e] eqn:Ea; try discriminate.
    destruct (JSON_parse (String c t)) as [parsed|] eqn:Ep; [|discriminate].
    intros H. injection H as <- <-.
    exists dataURL, (String c t), parsed.
    split; [reflexivity|].
    split; [apply isEmpty_false; exact Ek|].
    split; [exact Ea|].
    split; [discriminate|].
    split; [exact Ep|].
    do 4 (split; [reflexivity|]).
    split; [apply mergeShortSegments_length|].
    split; [apply mergeShortSegments_join | apply mergeShortSegments_last_end].
  - intros (dataURL & responseText & parsed & Hread & Hkey & Hanswer & Hne
            & Hparse & -> & Hlang & Hmeta & Hsegs & _).
    rewrite Hread. apply isEmpty_false in Hkey. rewrite Hkey, Hanswer.
    destruct responseText as [|c t]; [contradiction|]. rewrite Hparse.
    destruct response as [l s m]. simpl in Hlang, Hmeta, Hsegs. subst.
    reflexivity.
Qed.

(** X8. How a transcription fails. A file that cannot be read throws
    the reader's error before anything is sent, a missing key throws before
    anything is sent, a failure of the provider is thrown again as it is
    after the one request, and an answer with no text or an empty text
    throws the error of the empty response. In every case the log grows by
    the one request when the file was read and the key is there, and by
    nothing otherwise. *)
Theorem transcribeAudio_failures
    (JSON_parse : string -> option TranscriptionResponse) (env : ProcessEnv)
    (services : AudioServices) (file : File) (log : list AudioRequest) :
  let outcome := transcribeAudio JSON_parse env services file log in
  (forall e : exn, readAsDataURL file = Throw e -> outcome = (Throw e, log))
  /\ (forall dataURL : string, readAsDataURL file = Ok dataURL ->
        (API_KEY env = "" -> outcome = (Throw missingApiKey, log))
        /\ (API_KEY env <> "" ->
            outcome.2 = log ++ [transcriptionRequest env file dataURL]
            /\ (forall e : exn,
                  transcriptionAnswer env services file dataURL = Throw e ->
                  outcome.1 = Throw e)
            /\ (transcriptionAnswer env services file dataURL = Ok None
                \/ transcriptionAnswer env services file dataURL = Ok (Some "") ->
                outcome.1 = Throw emptyResponse)))
  /\ (exists sent : list AudioRequest,
        outcome.2 = log ++ sent /\ length sent <= 1
        /\ (sent = [] <-> failed (readAsDataURL file) = true \/ API_KEY env = "")).
Proof.
  intros outcome. subst outcome. rewrite transcribeAudio_run.
  split; [intros e ->; reflexivity|].
  split.
  - intros dataURL ->. split; [intros ->; reflexivity|].
    intros Hkey. apply isEmpty_false in Hkey. rewrite Hkey. simpl.
    split; [reflexivity|]. split.
    + intros e ->. reflexivity.
    + intros [-> | ->]; reflexivity.
  - destruct (readAsDataURL file) as [dataURL|e]; simpl.
    + destruct (isEmpty (API_KEY env)) eqn:Ek.
      * exists []. rewrite app_nil_r. repeat split; auto.
        intros _. right. destruct (API_KEY env); [reflexivity | discriminate].
      * exists [transcriptionRequest env file dataURL]. simpl.
        repeat split; auto; try discriminate.
        intros [H | H]; [discriminate|]. rewrite H in Ek. discriminate.
    + exists []. rewrite app_nil_r. repeat split; auto.
Qed.

Lemma generateSpeech_run (env : ProcessEnv) (services : AudioServices)
    (contents : string) (log : list AudioRequest) :
  generateSpeech env services contents log
  = if isEmpty (API_KEY env) then (Throw missingApiKey, log)
    else
      (match generateAudio services (API_KEY env) TTS_MODEL "Kore" contents with
       | Throw e => Throw e
       | Ok None | Ok (Some EmptyString) => Throw noAudioData
       | Ok (Some audioData) => Ok audioData
       end, log ++ [GenerateSpeech (API_KEY env) TTS_MODEL "Kore" contents]).
Proof.
  unfold generateSpeech, catchL, bindL, getAiL, sendL, throwL, pureL.
  destruct (isEmpty (API_KEY env)); [reflexivity|].
  destruct (generateAudio services (API_KEY env) TTS_MODEL "Kore" contents)
    as [[[|c t]|]|e]; reflexivity.
Qed.

(** X9. Speech synthesis returns audio exactly when the key is there and
    the provider answered with audio data that is not empty, and then
    returns that data after one request: it never returns an empty string.
    Without the key it sends nothing. *)
Theorem generateSpeech_never_empty (env : ProcessEnv) (services : AudioServices)
    (contents : string) (log log' : list AudioRequest) (audioData : string) :
  (generateSpeech env services contents log = (Ok audioData, log')
   <-> API_KEY env <> ""
       /\ generateAudio services (API_KEY env) TTS_MODEL "Kore" contents
          = Ok (Some audioData)
       /\ audioData <> ""
       /\ log' = log ++ [GenerateSpeech (API_KEY env) TTS_MODEL "Kore" contents])
  /\ (API_KEY env = "" ->
      generateSpeech env services contents log = (Throw missingApiKey, log)).
Proof.
  rewrite generateSpeech_run. split; [split|].
  - destruct (isEmpty (API_KEY env)) eqn:Ek; [discriminate|].
    destruct (generateAudio services (API_KEY env) TTS_MODEL "Kore" contents)
      as [[[|c t]|]|e]; try discriminate.
    intros H. injection H as <- <-.
    repeat split; try reflexivity; [apply isEmpty_false; exact Ek | discriminate].
  - intros (Hkey & -> & Hne & ->). apply isEmpty_false in Hkey. rewrite Hkey.
    destruct audioData; [contradiction | reflexivity].
  - intros ->. reflexivity.
Qed.

(** ** Idiom playback *)

Lemma ownProperty_set (cache : AudioCache) (key value : string) :
  ownProperty (cacheSet cache key value) key = Some value.
Proof. simpl. rewrite String.eqb_refl. reflexivity. Qed.

Lemma cacheLookup_set (cache : AudioCache) (key value : string) :
  cacheLookup (cacheSet cache key value) key = Some (Audio value).
Proof. unfold cacheLookup. rewrite ownProperty_set. reflexivity. Qed.

Lemma cacheLookup_set_other (cache : AudioCache) (key value other : string) :
  other <> key ->
  cacheLookup (cacheSet cache key value) other = cacheLookup cache other.
Proof.
  intros Hne. unfold cacheLookup. simpl.
  destruct (String.eqb_spec key other); [|reflexivity].
  subst. contradiction.
Qed.

Lemma cacheLookup_inherited (cache : AudioCache) (key member : string) :
  cacheLookup cache key = Some (Inherited member) ->
  member = key /\ ownProperty cache key = None /\ inheritsFromObject key = true.
Proof.
  unfold cacheLookup. destruct (ownProperty cache key); [discriminate|].
  destruct (inheritsFromObject key); [|discriminate].
  intros H. injection H as <-. auto.
Qed.

(** No member of the prototype reads as base64: the playback of one
    throws. *)
Lemma playPcmData_inherited (member : string) :
  inheritsFromObject member = true ->
  exists e, playPcmData (inheritedText member) = Throw e.
Proof.
  unfold inheritsFromObject. intros H. apply existsb_exists in H.
  destruct H as (name & Hin & Heq). apply String.eqb_eq in Heq. subst name.
  simpl in Hin.
  repeat (destruct Hin as [<- | Hin]; [eexists; vm_compute; reflexivity|]).
  contradiction.
Qed.

Lemma playAndFinish_again (cache : AudioCache) (loading : option string)
    (audioData : string) (log log2 : list AudioRequest) :
  truthyText loading = false ->
  let first := playAndFinish cache loading audioData log in
  truthyText (loadingIdiomText (playbackState first)) = false
  /\ audioCache (playbackState first) = cache
  /\ requestLog first = log
  /\ playAndFinish cache (loadingIdiomText (playbackState first)) audioData log2
     = {| playbackState := playbackState first; requestLog := log2;
          played := played first |}.
Proof.
  intros Hloading. unfold playAndFinish.
  destruct (playPcmData audioData); simpl; auto.
Qed.

Lemma handlePlayIdiom_cached (env : ProcessEnv) (services : AudioServices)
    (contents : string) (st : IdiomPlayback) (log : list AudioRequest)
    (value : CacheValue) :
  truthyText (loadingIdiomText st) = false ->
  cacheLookup (audioCache st) contents = Some value ->
  truthyValue (Some value) = true ->
  handlePlayIdiom env services contents st log
  = playAndFinish (audioCache st) (loadingIdiomText st) (playedText value) log.
Proof.
  intros Hl Hc Htruthy. unfold handlePlayIdiom. rewrite Hl, Hc.
  destruct value as [[|c t]|member]; [discriminate | reflexivity | reflexivity].
Qed.

Lemma handlePlayIdiom_fetch (env : ProcessEnv) (services : AudioServices)
    (contents : string) (st : IdiomPlayback) (log : list AudioRequest) :
  truthyText (loadingIdiomText st) = false ->
  truthyValue (cacheLookup (audioCache st) contents) = false ->
  handlePlayIdiom env services contents st log
  = fetchAndPlay env services contents st log.
Proof.
  intros Hl Hfalsy. unfold handlePlayIdiom. rewrite Hl.
  destruct (cacheLookup (audioCache st) contents) as [[[|c t]|member]|];
    try discriminate; reflexivity.
Qed.

Lemma generateSpeech_nonempty (env : ProcessEnv) (services : AudioServices)
    (contents : string) (log log1 : list AudioRequest) (audioData : string) :
  generateSpeech env services contents log = (Ok audioData, log1) ->
  exists c t, audioData = String c t.
Proof.
  rewrite generateSpeech_run.
  destruct (isEmpty (API_KEY env)); [discriminate|].
  destruct (generateAudio services (API_KEY env) TTS_MODEL "Kore" contents)
    as [[[|c t]|]|e]; try discriminate.
  intros H. injection H as <- _. eauto.
Qed.

Lemma handlePlayIdiom_first (env : ProcessEnv) (services : AudioServices)
    (contents : string) (st : IdiomPlayback) (log : list AudioRequest) :
  truthyText (loadingIdiomText st) = false ->
  truthyValue (cacheLookup (audioCache st) contents) = true
  \/ failed (generateSpeech env services contents log).1 = false ->
  exists cache loading value log1,
    handlePlayIdiom env services contents st log
    = playAndFinish cache loading (playedText value) log1
    /\ truthyText loading = false
    /\ cacheLookup cache contents = Some value
    /\ truthyValue (Some value) = true.
Proof.
  intros Hloading Hsource.
  destruct (truthyValue (cacheLookup (audioCache st) contents)) eqn:Etruthy.
  - destruct (cacheLookup (audioCache st) contents) as [value|] eqn:Ecache;
      [|discriminate].
    exists (audioCache st), (loadingIdiomText st), value, log.
    split; [|auto]. apply handlePlayIdiom_cached; assumption.
  - destruct Hsource as [H | Hgen]; [discriminate|].
    rewrite (handlePlayIdiom_fetch env services contents st log Hloading Etruthy).
    unfold fetchAndPlay.
    destruct (generateSpeech env services contents log)
      as [[audioData|e] log1] eqn:Egen; [|discriminate].
    destruct (generateSpeech_nonempty _ _ _ _ _ _ Egen) as (c & t & ->).
    exists (cacheSet (audioCache st) contents (String c t)), None,
      (Audio (String c t)), log1.
    split; [reflexivity|]. split; [reflexivity|].
    split; [apply cacheLookup_set | reflexivity].
Qed.

(** X10. Synthesized speech is fetched at most once. When no playback
    is loading and reading the cache gives something truthy, or the
    synthesis of the text succeeds, then after the click reading the cache
    gives something truthy, and a later click on the same text sends no
    request, leaves the state of the first click in place and plays what
    the first click played. When the first click already read something
    truthy it sent no request and left the cache as it was; when it read
    nothing, the cache afterwards holds the audio that the synthesis
    returned, which is not empty. A text that names a member of the
    prototype of the cache object and has no audio of its own reads as
    that member: nothing is played for it, at the first click or later. *)
Theorem handlePlayIdiom_fetches_once (env : ProcessEnv) (services : AudioServices)
    (contents : string) (st : IdiomPlayback) (log log2 : list AudioRequest) :
  truthyText (loadingIdiomText st) = false ->
  truthyValue (cacheLookup (audioCache st) contents) = true
  \/ failed (generateSpeech env services contents log).1 = false ->
  let first := handlePlayIdiom env services contents st log in
  truthyValue (cacheLookup (audioCache (playbackState first)) contents) = true
  /\ handlePlayIdiom env services contents (playbackState first) log2
     = {| playbackState := playbackState first; requestLog := log2;
          played := played first |}
  /\ (truthyValue (cacheLookup (audioCache st) contents) = true ->
      requestLog first = log
      /\ audioCache (playbackState first) = audioCache st)
  /\ (truthyValue (cacheLookup (audioCache st) contents) = false ->
      exists c t,
        (generateSpeech env services contents log).1 = Ok (String c t)
        /\ cacheLookup (audioCache (playbackState first)) contents
           = Some (Audio (String c t)))
  /\ (forall member,
        cacheLookup (audioCache st) contents = Some (Inherited member) ->
        played first = None).
Proof.
  intros Hloading Hsource first.
  assert (Hreplay :
            truthyValue (cacheLookup (audioCache (playbackState first)) contents) = true
            /\ handlePlayIdiom env services contents (playbackState first) log2
               = {| playbackState := playbackState first; requestLog := log2;
                    played := played first |}).
  { subst first.
    destruct (handlePlayIdiom_first env services contents st log Hloading Hsource)
      as (cache & loading & value & log1 & -> & Hl & Hc & Htruthy).
    pose proof (playAndFinish_again cache loading (playedText value) log1 log2 Hl)
      as (Hl1 & Hc1 & _ & Hagain).
    split.
    - rewrite Hc1, Hc. exact Htruthy.
    - rewrite (handlePlayIdiom_cached env services contents _ log2 value Hl1);
        [| rewrite Hc1; exact Hc | exact Htruthy].
      rewrite Hc1. exact Hagain. }
  split; [exact (proj1 Hreplay)|]. split; [exact (proj2 Hreplay)|].
  split; [|split].
  - intros Htruthy. subst first.
    destruct (cacheLookup (audioCache st) contents) as [value|] eqn:Ecache;
      [|discriminate].
    rewrite (handlePlayIdiom_cached env services contents st log value
               Hloading Ecache Htruthy).
    pose proof (playAndFinish_again (audioCache st) (loadingIdiomText st)
                  (playedText value) log log Hloading) as (_ & Hc & Hlog & _).
    split; assumption.
  - intros Hfalsy. subst first.
    rewrite (handlePlayIdiom_fetch env services contents st log Hloading Hfalsy).
    destruct Hsource as [H | Hgen]; [congruence|].
    unfold fetchAndPlay.
    destruct (generateSpeech env services contents log)
      as [[audioData|e] log1] eqn:Egen; [|discriminate].
    destruct (generateSpeech_nonempty _ _ _ _ _ _ Egen) as (c & t & ->).
    exists c, t. split; [reflexivity|].
    pose proof (playAndFinish_again (cacheSet (audioCache st) contents (String c t))
                  None (String c t) log1 log1 eq_refl) as (_ & Hc & _).
    rewrite Hc. apply cacheLookup_set.
  - intros member Hmember. subst first.
    rewrite (handlePlayIdiom_cached env services contents st log (Inherited member)
               Hloading Hmember eq_refl).
    destruct (cacheLookup_inherited _ _ _ Hmember) as (-> & _ & Hin).
    destruct (playPcmData_inherited contents Hin) as [e He].
    unfold playAndFinish. simpl playedText. rewrite He. reflexivity.
Qed.

Lemma handlePlayIdiom_fetches_once_witness :
  let services :=
    mkAudioServices (fun _ _ _ _ _ => Ok None) (fun _ _ _ _ => Ok (Some "AAD/fwCA")) in
  let first :=
    handlePlayIdiom (mkEnv "k1" "") services "Break a leg"
      (mkIdiomPlayback [] None None) [] in
  length (requestLog first) = 1
  /\ handlePlayIdiom (mkEnv "k1" "") services "Break a leg"
       (playbackState first) (requestLog first)
     = first.
Proof.
  split; [reflexivity|].
  apply (handlePlayIdiom_fetches_once (mkEnv "k1" "")
           (mkAudioServices (fun _ _ _ _ _ => Ok None)
              (fun _ _ _ _ => Ok (Some "AAD/fwCA")))
           "Break a leg" (mkIdiomPlayback [] None None) []
           [GenerateSpeech "k1" TTS_MODEL "Kore" "Break a leg"]).
  - reflexivity.
  - right. reflexivity.
Defined.

(** X11. What a click on an idiom leaves behind, whatever happens. While
    a playback is loading the click changes nothing. Otherwise it leaves
    nothing marked as playing; it sends the one request of the synthesis
    when reading the cache gives nothing truthy and the key is there, and
    nothing else; reading the cache for any other text gives what it gave
    before; when the synthesis fails the cache is the one before the click,
    nothing is loading and nothing is played; and for a text that names a
    member of the prototype of the cache object and has no audio of its
    own, the click sends no request, caches nothing and plays nothing. *)
Theorem handlePlayIdiom_frame (env : ProcessEnv) (services : AudioServices)
    (contents : string) (st : IdiomPlayback) (log : list AudioRequest) :
  let outcome := handlePlayIdiom env services contents st log in
  (truthyText (loadingIdiomText st) = true ->
   outcome = {| playbackState := st; requestLog := log; played := None |})
  /\ (truthyText (loadingIdiomText st) = false ->
      playingIdiomText (playbackState outcome) = None
      /\ requestLog outcome
         = log ++ (if truthyValue (cacheLookup (audioCache st) contents)
                      || isEmpty (API_KEY env)
                   then []
                   else [GenerateSpeech (API_KEY env) TTS_MODEL "Kore" contents])
      /\ (forall other : string, other <> contents ->
            cacheLookup (audioCache (playbackState outcome)) other
            = cacheLookup (audioCache st) other)
      /\ (truthyValue (cacheLookup (audioCache st) contents) = false ->
          failed (generateSpeech env services contents log).1 = true ->
          playbackState outcome = mkIdiomPlayback (audioCache st) None None
          /\ played outcome = None)
      /\ (inheritsFromObject contents = true ->
          ownProperty (audioCache st) contents = None ->
          outcome
          = {| playbackState := mkIdiomPlayback (audioCache st) None None;
               requestLog := log; played := None |})).
Proof.
  intros outcome. subst outcome.
  split; [unfold handlePlayIdiom; intros ->; reflexivity|].
  intros Hloading.
  destruct (truthyValue (cacheLookup (audioCache st) contents)) eqn:Etruthy.
  - destruct (cacheLookup (audioCache st) contents) as [value|] eqn:Ecache;
      [|discriminate].
    rewrite (handlePlayIdiom_cached env services contents st log value
               Hloading Ecache Etruthy).
    cbn [orb]. rewrite app_nil_r.
    assert (Hshape : forall audioData,
              playingIdiomText
                (playbackState (playAndFinish (audioCache st) (loadingIdiomText st)
                                  audioData log)) = None
              /\ requestLog (playAndFinish (audioCache st) (loadingIdiomText st)
                               audioData log) = log
              /\ audioCache
                   (playbackState (playAndFinish (audioCache st) (loadingIdiomText st)
                                     audioData log)) = audioCache st).
    { intros audioData. unfold playAndFinish.
      destruct (playPcmData audioData); simpl; auto. }
    destruct (Hshape (playedText value)) as (Hplaying & Hlog & Hcache).
    split; [exact Hplaying|]. split; [exact Hlog|].
    split; [intros other _; rewrite Hcache; reflexivity|].
    split; [discriminate|].
    intros Hin Hown. unfold cacheLookup in Ecache. rewrite Hown, Hin in Ecache.
    injection Ecache as <-. simpl playedText.
    destruct (playPcmData_inherited contents Hin) as [e He].
    unfold playAndFinish. rewrite He. reflexivity.
  - rewrite (handlePlayIdiom_fetch env services contents st log Hloading Etruthy).
    cbn [orb]. unfold fetchAndPlay. rewrite generateSpeech_run.
    assert (Hnot : inheritsFromObject contents = true ->
                   ownProperty (audioCache st) contents = None -> False).
    { intros Hin Hown. unfold cacheLookup in Etruthy.
      rewrite Hown, Hin in Etruthy. discriminate. }
    destruct (isEmpty (API_KEY env)); simpl.
    { rewrite app_nil_r. repeat split; auto;
        try (intros Hin Hown; destruct (Hnot Hin Hown)). }
    destruct (generateAudio services (API_KEY env) TTS_MODEL "Kore" contents)
      as [[[|c t]|]|e]; simpl;
      try (repeat split; auto; try discriminate;
           try (intros Hin Hown; destruct (Hnot Hin Hown)); fail).
    unfold playAndFinish; destruct (playPcmData (String c t)); simpl;
      (split; [reflexivity|]); (split; [reflexivity|]);
      (split; [intros other Hne; apply cacheLookup_set_other; exact Hne|]);
      (split; [discriminate|]);
      intros Hin Hown; destruct (Hnot Hin Hown).
Qed.

Lemma handlePlayIdiom_frame_witness :
  handlePlayIdiom (mkEnv "k1" "")
    (mkAudioServices (fun _ _ _ _ _ => Ok None) (fun _ _ _ _ => Ok (Some "AAD/fwCA")))
    "constructor" (mkIdiomPlayback [("Hang on", "AAD/fwCA")] None None) []
  = {| playbackState := mkIdiomPlayback [("Hang on", "AAD/fwCA")] None None;
       requestLog := []; played := None |}.
Proof.
  destruct (handlePlayIdiom_frame (mkEnv "k1" "")
              (mkAudioServices (fun _ _ _ _ _ => Ok None)
                 (fun _ _ _ _ => Ok (Some "AAD/fwCA")))
              "constructor" (mkIdiomPlayback [("Hang on", "AAD/fwCA")] None None) [])
    as [_ Hidle].
  destruct (Hidle eq_refl) as (_ & _ & _ & _ & Hmember).
  exact (Hmember eq_refl eq_refl).
Defined.

(** ** Upload check *)

Lemma stripPrefix_Some (p s rest : string) :
  stripPrefix p s = Some rest -> s = (p ++ rest)%string.
Proof.
  revert s. induction p as [|a p IH]; intros s; simpl.
  - intros H. injection H as ->. reflexivity.
  - destruct s as [|b s]; [discriminate|].
    destruct (Ascii.eqb_spec a b); [|discriminate].
    intros H. subst. rewrite (IH s H). reflexivity.
Qed.

Lemma startsWith_spec (p s : string) :
  startsWith p s = true <-> exists rest, s = (p ++ rest)%string.
Proof.
  unfold startsWith. split.
  - destruct (stripPrefix p s) as [rest|] eqn:E; [|discriminate].
    intros _. exists rest. apply stripPrefix_Some. exact E.
  - intros [rest ->]. rewrite stripPrefix_app. reflexivity.
Qed.

Lemma endsWith_spec (suffix s : string) :
  endsWith suffix s = true <-> exists stem, s = (stem ++ suffix)%string.
Proof.
  split.
  - induction s as [|c s IH]; cbn [endsWith].
    + rewrite orb_false_r. intros H. apply String.eqb_eq in H. subst.
      exists ""%string. reflexivity.
    + intros H. apply orb_true_iff in H. destruct H as [H | H].
      * apply String.eqb_eq in H. exists ""%string. exact H.
      * destruct (IH H) as [stem ->]. exists (String c stem). reflexivity.
  - intros [stem ->]. induction stem as [|c stem IH].
    + destruct suffix; cbn [endsWith append]; rewrite String.eqb_refl; reflexivity.
    + cbn [endsWith append]. rewrite IH. apply orb_true_r.
Qed.

Lemma existsb_In_iff {A : Type} (f : A -> bool) (l : list A) :
  existsb f l = true <-> exists x, In x l /\ f x = true.
Proof. apply existsb_exists. Qed.

Lemma lowerChar_dot (c : ascii) : Ascii.eqb (lowerChar c) dot = Ascii.eqb c dot.
Proof.
  destruct c as [[] [] [] [] [] [] [] []]; vm_compute; reflexivity.
Qed.

Lemma contains_toLowerCase_dot (s : string) :
  contains dot (toLowerCase s) = contains dot s.
Proof.
  induction s as [|c s IH]; simpl; [reflexivity|].
  rewrite lowerChar_dot, IH. reflexivity.
Qed.

Lemma contains_app (c : ascii) (a b : string) :
  contains c (a ++ b) = contains c a || contains c b.
Proof.
  induction a as [|d a IH]; simpl; [reflexivity|].
  rewrite IH, orb_assoc. reflexivity.
Qed.

Lemma lowerChar_idempotent (c : ascii) : lowerChar (lowerChar c) = lowerChar c.
Proof.
  destruct c as [[] [] [] [] [] [] [] []]; vm_compute; reflexivity.
Qed.

Lemma toLowerCase_idempotent (s : string) :
  toLowerCase (toLowerCase s) = toLowerCase s.
Proof.
  induction s as [|c s IH]; simpl; [reflexivity|].
  rewrite lowerChar_idempotent, IH. reflexivity.
Qed.

(** X12. The upload check hands the file on exactly when its MIME type
    starts with one of the accepted types or its name, in lower case, ends
    with one of the accepted extensions, and then leaves no message;
    otherwise it hands nothing on and leaves the message. So the case of
    the letters of the name makes no difference, a name without a dot is
    accepted by its type only, and no selected file gives neither a message
    nor a file. *)
Theorem handleInputChange_accepts (f : File) :
  let byMime :=
    exists prefix rest,
      In prefix validAudioTypes /\ fileType f = (prefix ++ rest)%string in
  let byName :=
    exists suffix stem,
      In suffix audioSuffixes /\ toLowerCase (fileName f) = (stem ++ suffix)%string in
  (handleInputChange (Some f) = (None, Some f) <-> byMime \/ byName)
  /\ (handleInputChange (Some f) = (Some invalidFileMessage, None)
      <-> ~ (byMime \/ byName))
  /\ (forall g : File,
        fileType g = fileType f ->
        toLowerCase (fileName g) = toLowerCase (fileName f) ->
        fst (handleInputChange (Some g)) = fst (handleInputChange (Some f)))
  /\ (contains dot (fileName f) = false -> ~ byName)
  /\ handleInputChange None = (None, None).
Proof.
  intros byMime byName.
  assert (Hmime : isAudioByMime (fileType f) = true <-> byMime).
  { unfold isAudioByMime, byMime. rewrite existsb_In_iff. split.
    - intros (prefix & Hin & H). apply startsWith_spec in H.
      destruct H as [rest H]. eauto.
    - intros (prefix & rest & Hin & H). exists prefix. split; [exact Hin|].
      apply startsWith_spec. eauto. }
  assert (Hname : isAudioByName (fileName f) = true <-> byName).
  { unfold isAudioByName, byName. rewrite existsb_In_iff. split.
    - intros (suffix & Hin & H). apply endsWith_spec in H.
      destruct H as [stem H]. eauto.
    - intros (suffix & stem & Hin & H). exists suffix. split; [exact Hin|].
      apply endsWith_spec. eauto. }
  assert (Hor : isAudioByMime (fileType f) || isAudioByName (fileName f) = true
                <-> byMime \/ byName).
  { rewrite orb_true_iff, Hmime, Hname. reflexivity. }
  unfold handleInputChange.
  split; [|split; [|split; [|split]]].
  - rewrite <- Hor.
    destruct (isAudioByMime (fileType f) || isAudioByName (fileName f));
      split; intros H; try reflexivity; discriminate.
  - rewrite <- Hor.
    destruct (isAudioByMime (fileType f) || isAudioByName (fileName f));
      split; intros H; try reflexivity; try discriminate;
      exfalso; apply H; reflexivity.
  - intros g Htype Hlower. unfold isAudioByName. rewrite Htype, Hlower.
    destruct (isAudioByMime (fileType f)
              || existsb (fun suffix => endsWith suffix (toLowerCase (fileName f)))
                   audioSuffixes); reflexivity.
  - intros Hdot (suffix & stem & Hin & H).
    rewrite <- contains_toLowerCase_dot, H, contains_app in Hdot.
    apply orb_false_iff in Hdot. destruct Hdot as [_ Hdot].
    simpl in Hin.
    repeat (destruct Hin as [<- | Hin]; [discriminate Hdot|]).
    exact Hin.
  - reflexivity.
Qed.

(** ** Player *)

Lemma SF64sub_diag (x : spec_float) :
  match SF64sub x x with
  | S754_zero _ | S754_nan => True
  | _ => False
  end.
Proof.
  destruct x as [s|s| |s m e]; simpl.
  - destruct s; exact I.
  - destruct s; exact I.
  - exact I.
  - unfold SF64sub, SFsub. rewrite Z.min_id.
    destruct (shl_align m e e) as [a b]. cbn [fst snd].
    rewrite Z.sub_diag. exact I.
Qed.

Lemma sub_diag_within_half (x : float) : (0.5 <? abs (x - x))%float = false.
Proof.
  rewrite ltb_spec, abs_spec, sub_spec.
  pose proof (SF64sub_diag (Prim2SF x)) as H.
  destruct (SF64sub (Prim2SF x) (Prim2SF x)) as [s|s| |s m e]; try contradiction.
  - destruct s; vm_compute; reflexivity.
  - vm_compute; reflexivity.
Qed.

(** X13. The speed button always lands on one of the four rates: from
    a listed rate on the next one, from the last on the first, and from any
    other number (not-a-number too) on the first. From a listed rate it
    moves to a different one, and four presses come back to it. *)
Theorem changeSpeed_cycles (playbackRate : float) :
  In (changeSpeed playbackRate) rates
  /\ (forallb (fun rate => negb (rate =? playbackRate)%float) rates = true ->
      changeSpeed playbackRate = 0.75%float)
  /\ (In playbackRate rates ->
      changeSpeed playbackRate <> playbackRate
      /\ Nat.iter 4 changeSpeed playbackRate = playbackRate
      /\ nth_error rates
           (S (Z.to_nat (indexOf playbackRate rates)) mod length rates)
         = Some (changeSpeed playbackRate)).
Proof.
  split; [|split].
  - unfold changeSpeed, indexOf, rates. cbn [indexOfFrom].
    destruct (0.75 =? playbackRate)%float; [vm_compute; tauto|].
    destruct (1 =? playbackRate)%float; [vm_compute; tauto|].
    destruct (1.25 =? playbackRate)%float; [vm_compute; tauto|].
    destruct (1.5 =? playbackRate)%float; vm_compute; tauto.
  - unfold changeSpeed, indexOf, rates. cbn [indexOfFrom forallb].
    destruct (0.75 =? playbackRate)%float; [discriminate|].
    destruct (1 =? playbackRate)%float; [discriminate|].
    destruct (1.25 =? playbackRate)%float; [discriminate|].
    destruct (1.5 =? playbackRate)%float; [discriminate|].
    reflexivity.
  - intros H. simpl in H.
    repeat (destruct H as [<- | H];
            [split; [vm_compute; intros E; discriminate E
                    | split; vm_compute; reflexivity]|]).
    contradiction.
Qed.

(** X14. The effect that follows the session time with the audio
    element. Without an element it does nothing; with one it leaves the
    element where it is or moves it to the session time, and moves it
    exactly when the comparison of their distance with half a second
    holds, so only when the two are more than half a second apart: never
    when they are equal, whatever the number is, and never when the
    distance is not a number. So running the effect again with the
    same session time changes nothing more. *)
Theorem syncAudioElement_settles (elementTime : option float) (sessionTime : float) :
  syncAudioElement (Some sessionTime) sessionTime = Some sessionTime
  /\ syncAudioElement (syncAudioElement elementTime sessionTime) sessionTime
     = syncAudioElement elementTime sessionTime
  /\ (elementTime = None <-> syncAudioElement elementTime sessionTime = None)
  /\ (forall t : float, elementTime = Some t ->
        (syncAudioElement elementTime sessionTime = Some t
         \/ syncAudioElement elementTime sessionTime = Some sessionTime)
        /\ ((abs (t - sessionTime) <=? 0.5)%float = true ->
            syncAudioElement elementTime sessionTime = Some t)
        /\ ((0.5 <? abs (t - sessionTime))%float = true ->
            syncAudioElement elementTime sessionTime = Some sessionTime)
        /\ ((0.5 <? abs (t - sessionTime))%float = false ->
            syncAudioElement elementTime sessionTime = Some t)).
Proof.
  assert (Hdiag : syncAudioElement (Some sessionTime) sessionTime = Some sessionTime).
  { unfold syncAudioElement. rewrite sub_diag_within_half. reflexivity. }
  split; [exact Hdiag|]. split; [|split].
  - destruct elementTime as [t|]; [|reflexivity]. unfold syncAudioElement at 2 3.
    destruct (0.5 <? abs (t - sessionTime))%float eqn:E; [exact Hdiag|].
    unfold syncAudioElement. rewrite E. reflexivity.
  - destruct elementTime as [t|]; simpl.
    + destruct (0.5 <? abs (t - sessionTime))%float; split; discriminate.
    + split; reflexivity.
  - intros t ->. unfold syncAudioElement.
    destruct (0.5 <? abs (t - sessionTime))%float eqn:E.
    + split; [right; reflexivity|]. split; [|split; [reflexivity | discriminate]].
      intros Hle. apply leb_ltb_false in Hle. congruence.
    + split; [left; reflexivity|]. split; [reflexivity|].
      split; [discriminate | reflexivity].
Qed.

(** ** Shadowing view *)

Lemma navigate_in_bounds (len : nat) (i : Z) (n : Navigation) :
  (0 <= i < Z.of_nat len)%Z -> (0 <= navigate len i n < Z.of_nat len)%Z.
Proof. destruct n; unfold navigate, prevIndex, nextIndex; lia. Qed.

Lemma currentSegment_in_bounds (segs : list TranscriptionSegment) (i : Z) :
  is_Some (currentSegment segs i) <-> (0 <= i < Z.of_nat (length segs))%Z.
Proof.
  unfold currentSegment. destruct (Z.ltb_spec i 0).
  - split; [intros [x Hx]; discriminate | lia].
  - rewrite lookup_lt_is_Some. lia.
Qed.

(** X15. In the shadowing view of a list that is not empty, from an
    index inside the list (the view starts at 0) every sequence of presses
    on the two arrows stays inside the list, so there is always a current
    segment; going back from the first segment stays there and going on
    from the last stays there, and otherwise the arrows move by one. *)
Theorem navigation_stays_inside (segs : list TranscriptionSegment)
    (currentIndex : Z) (presses : list Navigation) :
  (0 <= currentIndex < Z.of_nat (length segs))%Z ->
  let final := fold_left (navigate (length segs)) presses currentIndex in
  (0 <= final < Z.of_nat (length segs))%Z
  /\ is_Some (currentSegment segs final)
  /\ navigate (length segs) 0 Prev = 0%Z
  /\ navigate (length segs) (Z.of_nat (length segs) - 1) Next
     = (Z.of_nat (length segs) - 1)%Z
  /\ (0 < currentIndex ->
      navigate (length segs) currentIndex Prev = currentIndex - 1)%Z
  /\ (currentIndex < Z.of_nat (length segs) - 1 ->
      navigate (length segs) currentIndex Next = currentIndex + 1)%Z.
Proof.
  intros Hin final.
  assert (Hfinal : (0 <= final < Z.of_nat (length segs))%Z).
  { subst final. revert currentIndex Hin.
    induction presses as [|n presses IH]; intros i Hi; simpl; [exact Hi|].
    apply IH, navigate_in_bounds, Hi. }
  split; [exact Hfinal|].
  split; [apply currentSegment_in_bounds; exact Hfinal|].
  unfold navigate, prevIndex, nextIndex. repeat split; lia.
Qed.

Lemma navigation_stays_inside_witness :
  let segs :=
    [mkSegment 0 1 "Hi" "a" "b" None; mkSegment 1 2 "there" "c" "d" None;
     mkSegment 2 4 "welcome" "e" "f" None] in
  is_Some
    (currentSegment segs
       (fold_left (navigate (length segs)) [Next; Next; Next; Prev; Next; Next] 0%Z)).
Proof.
  apply (navigation_stays_inside
           [mkSegment 0 1 "Hi" "a" "b" None; mkSegment 1 2 "there" "c" "d" None;
            mkSegment 2 4 "welcome" "e" "f" None]
           0 [Next; Next; Next; Prev; Next; Next]).
  simpl. lia.
Defined.

(** ** Session *)

Lemma urlsAccounted_initial : urlsAccounted initialSession.
Proof. split; [reflexivity | discriminate]. Qed.

Lemma urlsAccounted_handleEvent (s : Session) (e : Event) :
  urlsAccounted s -> urlsAccounted (handleEvent s e).
Proof.
  intros [Hlive Hnext]. unfold urlsAccounted, currentUrls in *.
  destruct e as [file|outcome| |index|t|t| |]; simpl; auto.
  - rewrite Hlive. split.
    + destruct (audioFile s) as [f|] eqn:Ef; simpl; [|reflexivity].
      specialize (Hnext f eq_refl).
      rewrite Nat.eqb_refl. simpl.
      destruct (Nat.eqb_spec (nextUrl s) (url f)); [lia | reflexivity].
    + intros f Hf. injection Hf as <-. simpl. lia.
  - destruct outcome; simpl; auto.
  - rewrite Hlive. split; [|discriminate].
    destruct (audioFile s) as [f|]; simpl; [|reflexivity].
    rewrite Nat.eqb_refl. reflexivity.
  - destruct (handleToggleFavorite index (transcription s)); simpl; auto.
Qed.

Lemma urlsAccounted_runEvents (events : list Event) (s : Session) :
  urlsAccounted s -> urlsAccounted (runEvents s events).
Proof.
  revert s. induction events as [|e events IH]; intros s H; simpl; [exact H|].
  apply IH, urlsAccounted_handleEvent, H.
Qed.

(** X16. The blob URLs of the selected files do not pile up. Of the
    URLs that the component creates in [handleFileSelected], after any
    sequence of its events, in any order, the ones that are not revoked
    are exactly the one of the current audio file, none when there is no
    file; every selected file gets a URL that was not in use before, and
    the URL of the file that it replaces is revoked. The URLs of
    recordings, which the transcript view creates, are another matter:
    a click on the record button of an idiom adds one or leaves them as
    they are, and none of them is ever revoked. *)
Theorem blob_urls_accounted (events : list Event) :
  let s := runEvents initialSession events in
  liveUrls s = currentUrls s
  /\ length (liveUrls s) <= 1
  /\ Forall (fun u => u < nextUrl s) (liveUrls s)
  /\ (forall file : File,
        liveUrls (handleEvent s (FileSelected file)) = [nextUrl s]
        /\ ~ In (nextUrl s) (liveUrls s))
  /\ (forall (JSON_parse : string -> option PronunciationScore) (env : ProcessEnv)
        (services : AudioServices) (recorderStart : result unit)
        (recorderStop : result File) (contents : string) (view : RecordingState)
        (log : list AudioRequest),
        let after :=
          (handleToggleRecordIdiom JSON_parse env services recorderStart
             recorderStop contents view log).1 in
        recordingUrls after = recordingUrls view
        \/ recordingUrls after = nextRecordingUrl view :: recordingUrls view).
Proof.
  intros s.
  pose proof (urlsAccounted_runEvents events initialSession urlsAccounted_initial)
    as Hs.
  fold s in Hs.
  assert (Hbelow : Forall (fun u => u < nextUrl s) (liveUrls s)).
  { destruct Hs as [Hlive Hnext]. rewrite Hlive. unfold currentUrls.
    destruct (audioFile s) as [f|]; constructor; auto. }
  split; [exact (proj1 Hs)|]. split; [|split; [exact Hbelow|split]].
  - rewrite (proj1 Hs). unfold currentUrls. destruct (audioFile s); simpl; lia.
  - intros file. split.
    + pose proof (urlsAccounted_handleEvent s (FileSelected file) Hs) as [H _].
      rewrite H. reflexivity.
    + intros Hin.
      pose proof (proj1 (List.Forall_forall _ _) Hbelow _ Hin) as Hlt.
      simpl in Hlt. lia.
  - intros JSON_parse env services recorderStart recorderStop contents view log.
    unfold handleToggleRecordIdiom.
    destruct (isText (recordingIdiomText view) contents).
    + destruct recorderStop as [blob|e]; [|left; reflexivity].
      destruct (scorePronunciation JSON_parse env services blob contents log)
        as [[result|e] log1]; right; reflexivity.
    + destruct (truthyText (recordingIdiomText view)); [left; reflexivity|].
      destruct recorderStart; left; reflexivity.
Qed.

(** X17. Reset, after any sequence of events, gives the initial session
    again but for the open tab, which stays the one it was, and the
    counter of the URLs: no file, no transcription, time 0, state IDLE,
    and every blob URL that the component created for a file is revoked;
    the upload is shown and no segment is displayed. *)
Theorem handleReset_clears (events : list Event) :
  let s := runEvents initialSession events in
  handleReset s
  = {| appState := IDLE; audioFile := None; transcription := None;
       currentTime := 0; activeTab := activeTab s; liveUrls := [];
       nextUrl := nextUrl s |}
  /\ showsUpload (handleReset s) = true
  /\ displayedSegments (handleReset s) = [].
Proof.
  intros s.
  pose proof (urlsAccounted_runEvents events initialSession urlsAccounted_initial)
    as [Hlive _].
  fold s in Hlive.
  assert (Hurls : liveUrls (handleReset s) = []).
  { simpl. rewrite Hlive. unfold currentUrls.
    destruct (audioFile s); simpl; [rewrite Nat.eqb_refl|]; reflexivity. }
  split; [|split].
  - unfold handleReset in *. simpl in Hurls. rewrite Hurls. reflexivity.
  - reflexivity.
  - unfold displayedSegments. simpl. destruct (activeTab s); reflexivity.
Qed.

Lemma consistent_step (s : Session) (e : Event) :
  consistent s -> consistent (step s e).
Proof.
  destruct s as [state file tr time tab live next].
  unfold consistent, step, available, showsUpload, showsContent, showsPlayer,
    showsShadowing.
  destruct e as [selected|outcome| |index|t|t| |]; simpl.
  - destruct state; simpl; eauto.
  - destruct outcome; simpl; eauto.
  - auto.
  - destruct state, tr as [r|], file, tab; simpl; auto.
    all: destruct (segments r !! index); simpl; eauto.
  - destruct state; simpl; auto.
  - destruct state, tr, file, tab; simpl; auto.
  - destruct state, file; simpl; auto.
  - destruct state, tr; simpl; auto.
Qed.

Lemma consistent_interact (events : list Event) (s : Session) :
  consistent s -> consistent (interact s events).
Proof.
  revert s. induction events as [|e events IH]; intros s H; simpl; [exact H|].
  apply IH, consistent_step, H.
Qed.

(** X18. In a session in which the user only does what the page
    offers, whatever the order and whenever the pending call settles: in
    IDLE there is neither a file nor a transcription, while PROCESSING
    there is a file, in READY there is a transcription, and in SHADOWING
    there are both, so the condition under which the component mounts the
    shadowing view holds there. The view, which starts at the first
    position, has a current segment to render exactly when the
    transcription has a segment: a transcription without segments leads to
    SHADOWING all the same, and there the render of the view throws. *)
Theorem session_consistent (events : list Event) :
  let s := interact initialSession events in
  (appState s = IDLE -> audioFile s = None /\ transcription s = None)
  /\ (appState s = PROCESSING -> is_Some (audioFile s))
  /\ (appState s = READY -> is_Some (transcription s))
  /\ (appState s = SHADOWING ->
      is_Some (transcription s) /\ is_Some (audioFile s)
      /\ showsShadowing s = true)
  /\ (forall tr : TranscriptionResponse,
        failed (renderCurrentSegment (segments tr) 0) = false
        <-> segments tr <> [])
  /\ (forall (file : File) (language : string) (meta : TranscriptionMeta),
        let empty := interact initialSession
                       [FileSelected file;
                        TranscriptionSettled (Ok (mkResponse language [] meta));
                        EnterShadowing] in
        appState empty = SHADOWING
        /\ showsShadowing empty = true
        /\ transcription empty = Some (mkResponse language [] meta)
        /\ renderCurrentSegment [] 0 = Throw undefinedSegment).
Proof.
  intros s.
  assert (H : consistent s).
  { apply consistent_interact. split; reflexivity. }
  split; [|split; [|split; [|split; [|split]]]].
  5:{ intros tr. unfold renderCurrentSegment, currentSegment. simpl.
      destruct (segments tr); simpl; split; intros Hr; try reflexivity;
        try discriminate; contradiction. }
  5:{ intros file language meta. repeat split. }
  all: unfold consistent, showsShadowing in H |- *.
  all: destruct (appState s); try discriminate; intros _; try exact H.
  destruct H as [Htr Hfile]. split; [exact Htr|]. split; [exact Hfile|].
  destruct Htr as [tr ->]. reflexivity.
Qed.

(** X19. A transcription that fails puts the session in ERROR and
    changes nothing else: the file, its URL and an earlier transcription
    stay. In that state no main part is rendered, neither the upload, the
    spinner, the content, the player nor the shadowing view, and the tab
    bar is not there; of what the user can do only the reset is offered,
    and it leads to IDLE with the upload. *)
Theorem failed_transcription_state (s : Session) (e : exn) :
  let s' := handleEvent s (TranscriptionSettled (Throw e)) in
  s' = setAppState ERROR s
  /\ showsUpload s' = false /\ showsSpinner s' = false /\ showsContent s' = false
  /\ showsPlayer s' = false /\ showsShadowing s' = false
  /\ (forall ev : Event,
        available s' ev = true <->
        ev = Reset \/ exists outcome, ev = TranscriptionSettled outcome)
  /\ showsUpload (step s' Reset) = true.
Proof.
  simpl. repeat split; try reflexivity.
  - destruct ev; simpl; try discriminate; eauto.
  - intros [-> | [outcome ->]]; reflexivity.
Qed.

(** X20. An answer that arrives after a reset is not dropped: the
    session goes to READY with the transcription of a file that is no
    longer there. The tab bar is rendered, and nothing else: neither the
    upload, the spinner, the content nor the player, and the transcription
    cannot be reached, since shadowing, favourites and seeking are not
    offered. *)
Theorem late_answer_after_reset (s : Session) (response : TranscriptionResponse) :
  let s' := handleEvent (handleReset s) (TranscriptionSettled (Ok response)) in
  appState s' = READY
  /\ audioFile s' = None
  /\ transcription s' = Some response
  /\ showsUpload s' = false /\ showsSpinner s' = false /\ showsContent s' = false
  /\ showsPlayer s' = false /\ showsShadowing s' = false
  /\ (forall ev : Event,
        available s' ev = true <->
        ev = Reset \/ (exists outcome, ev = TranscriptionSettled outcome)
        \/ exists t, ev = TabClicked t)
  /\ available (handleReset s) (TranscriptionSettled (Ok response)) = true.
Proof.
  simpl. repeat split; try reflexivity.
  - destruct ev; simpl; try discriminate; eauto.
  - intros [-> | [[outcome ->] | [t ->]]]; reflexivity.
Qed.

(** ** Favourites *)

Lemma filter_insert {A : Type} (p : A -> bool) (l : list A) (i : nat) (x y : A) :
  l !! i = Some x ->
  List.filter p l
  = List.filter p (take i l) ++ (if p x then [x] else []) ++ List.filter p (drop (S i) l)
  /\ List.filter p (<[i := y]> l)
     = List.filter p (take i l) ++ (if p y then [y] else [])
       ++ List.filter p (drop (S i) l).
Proof.
  intros Hx. split.
  - rewrite <- (take_drop_middle l i x Hx) at 1.
    rewrite List.filter_app. simpl. destruct (p x); reflexivity.
  - rewrite insert_take_drop by (eapply lookup_lt_Some; exact Hx).
    rewrite List.filter_app. simpl. destruct (p y); reflexivity.
Qed.

Lemma favorite_inverted (seg : TranscriptionSegment) :
  truthy (isFavorite (withFavoriteInverted seg)) = negb (truthy (isFavorite seg)).
Proof. reflexivity. Qed.

(** X21. A click on the bookmark of a segment of the transcription
    changes the number of favourites by exactly one: one more when the
    segment was not a favourite, one less when it was. The favourites that
    are displayed are then the ones before and after the segment, with the
    segment between them when it has become a favourite; and the list of
    segments that the other tabs show keeps its length. *)
Theorem toggle_moves_one_favorite (s : Session) (tr : TranscriptionResponse)
    (index : nat) (seg : TranscriptionSegment) :
  transcription s = Some tr ->
  segments tr !! index = Some seg ->
  let s' := handleEvent s (ToggleFavorite index) in
  let isFav := fun x => truthy (isFavorite x) in
  (exists tr', transcription s' = Some tr'
     /\ length (segments tr') = length (segments tr)
     /\ isFavoritesCount (segments tr') + (if isFav seg then 1 else 0)
        = isFavoritesCount (segments tr) + (if isFav seg then 0 else 1)
     /\ List.filter isFav (segments tr')
        = List.filter isFav (take index (segments tr))
          ++ (if isFav seg then [] else [withFavoriteInverted seg])
          ++ List.filter isFav (drop (S index) (segments tr)))
  /\ (activeTab s = favorites ->
      length (displayedSegments s') + (if isFav seg then 1 else 0)
      = length (displayedSegments s) + (if isFav seg then 0 else 1))
  /\ (activeTab s <> favorites ->
      length (displayedSegments s') = length (displayedSegments s)).
Proof.
  intros Htr Hseg s' isFav. subst s'. simpl.
  rewrite Htr, (handleToggleFavorite_in_bounds tr index seg Hseg).
  destruct (filter_insert isFav (segments tr) index seg (withFavoriteInverted seg) Hseg)
    as [Hbefore Hafter].
  assert (Hflip : isFav (withFavoriteInverted seg) = negb (isFav seg))
    by reflexivity.
  rewrite Hflip in Hafter.
  assert (Hcount : length (List.filter isFav (<[index := withFavoriteInverted seg]> (segments tr)))
                   + (if isFav seg then 1 else 0)
                   = length (List.filter isFav (segments tr))
                     + (if isFav seg then 0 else 1)).
  { rewrite Hbefore, Hafter, !length_app.
    destruct (isFav seg); simpl; lia. }
  split; [|split].
  - eexists. split; [reflexivity|]. simpl.
    split; [apply length_insert|]. split; [exact Hcount|].
    rewrite Hafter. destruct (isFav seg); reflexivity.
  - intros Htab. unfold displayedSegments. simpl. rewrite Htab, Htr. exact Hcount.
  - intros Htab. unfold displayedSegments. simpl. rewrite Htr.
    destruct (activeTab s); try contradiction; simpl; apply length_insert.
Qed.

Lemma toggle_moves_one_favorite_witness :
  let tr :=
    mkResponse "en"
      [mkSegment 0 1 "Hi" "a" "b" None; mkSegment 1 2 "there" "c" "d" (Some true)]
      (mkMeta 2 "A1" "slow") in
  let s := setActiveTab favorites (setTranscription (Some tr) initialSession) in
  length (displayedSegments (handleEvent s (ToggleFavorite 1))) + 1
  = length (displayedSegments s) + 0.
Proof.
  apply (toggle_moves_one_favorite
           (setActiveTab favorites
              (setTranscription
                 (Some (mkResponse "en"
                          [mkSegment 0 1 "Hi" "a" "b" None;
                           mkSegment 1 2 "there" "c" "d" (Some true)]
                          (mkMeta 2 "A1" "slow")))
                 initialSession))
           (mkResponse "en"
              [mkSegment 0 1 "Hi" "a" "b" None;
               mkSegment 1 2 "there" "c" "d" (Some true)]
              (mkMeta 2 "A1" "slow"))
           1 (mkSegment 1 2 "there" "c" "d" (Some true)));
    reflexivity.
Defined.

(** X22. Two clicks on the same bookmark leave the favourites as they
    were: the favourites tab displays the same segments as before the two
    clicks, whether the flag of the segment was present or absent, and the
    other tabs display as many segments as before with the same times,
    texts, translations and idioms. *)
Theorem toggle_twice_same_favorites (s : Session) (tr : TranscriptionResponse)
    (index : nat) (seg : TranscriptionSegment) :
  transcription s = Some tr ->
  segments tr !! index = Some seg ->
  let s'' := runEvents s [ToggleFavorite index; ToggleFavorite index] in
  let shown := fun x => (start x, end_ x, text x, translation x, idiomatic x,
                         truthy (isFavorite x)) in
  map shown (displayedSegments s'') = map shown (displayedSegments s)
  /\ (activeTab s = favorites -> displayedSegments s'' = displayedSegments s)
  /\ (is_Some (isFavorite seg) -> s'' = s).
Proof.
  intros Htr Hseg s'' shown.
  assert (Hrun : s'' = setTranscription
                         (Some {| language := language tr;
                                  segments := <[index := withFavoriteSet seg]> (segments tr);
                                  meta := meta tr |}) s).
  { subst s''. unfold runEvents. cbn [fold_left]. cbn [handleEvent].
    pose proof (toggleTwice_in_bounds tr index seg Hseg) as Htwice.
    unfold toggleTwice in Htwice. rewrite Htr.
    rewrite (handleToggleFavorite_in_bounds tr index seg Hseg) in Htwice |- *.
    cbn [setTranscription transcription]. rewrite Htwice. reflexivity. }
  assert (Hsame : shown (withFavoriteSet seg) = shown seg).
  { unfold shown, withFavoriteSet. simpl. destruct (isFavorite seg); reflexivity. }
  assert (Hfav : List.filter (fun x => truthy (isFavorite x))
                   (<[index := withFavoriteSet seg]> (segments tr))
                 = List.filter (fun x => truthy (isFavorite x)) (segments tr)).
  { destruct (filter_insert (fun x => truthy (isFavorite x)) (segments tr) index
                seg (withFavoriteSet seg) Hseg) as [Hbefore Hafter].
    rewrite Hafter, Hbefore. f_equal. f_equal.
    destruct seg as [? ? ? ? ? [[|]|]]; reflexivity. }
  assert (Hall : map shown (<[index := withFavoriteSet seg]> (segments tr))
                 = map shown (segments tr)).
  { rewrite list_fmap_insert, Hsame.
    apply list_insert_id. rewrite list_lookup_fmap, Hseg. reflexivity. }
  rewrite Hrun. unfold displayedSegments. cbn [setTranscription activeTab transcription segments].
  rewrite Htr. split; [|split].
  - destruct (activeTab s); [exact Hall | exact Hall | rewrite Hfav; reflexivity].
  - intros ->. exact Hfav.
  - intros Hpresent. rewrite (withFavoriteSet_present seg Hpresent).
    rewrite list_insert_id by exact Hseg.
    destruct s as [a f t c tab l n]. simpl in Htr. subst t.
    destruct tr. reflexivity.
Qed.

Lemma toggle_twice_same_favorites_witness :
  let tr :=
    mkResponse "en"
      [mkSegment 0 1 "Hi" "a" "b" None; mkSegment 1 2 "there" "c" "d" (Some true)]
      (mkMeta 2 "A1" "slow") in
  let s := setActiveTab favorites (setTranscription (Some tr) initialSession) in
  displayedSegments (runEvents s [ToggleFavorite 0; ToggleFavorite 0])
  = displayedSegments s.
Proof.
  apply (toggle_twice_same_favorites
           (setActiveTab favorites
              (setTranscription
                 (Some (mkResponse "en"
                          [mkSegment 0 1 "Hi" "a" "b" None;
                           mkSegment 1 2 "there" "c" "d" (Some true)]
                          (mkMeta 2 "A1" "slow")))
                 initialSession))
           (mkResponse "en"
              [mkSegment 0 1 "Hi" "a" "b" None;
               mkSegment 1 2 "there" "c" "d" (Some true)]
              (mkMeta 2 "A1" "slow"))
           0 (mkSegment 0 1 "Hi" "a" "b" None));
    reflexivity.
Defined.

(** ** Fallback with a fenced answer *)

(** X23. The fallback reads a fenced answer. When the primary attempt
    fails, the key of the secondary provider is there and its answer is ok
    with a content fenced by the json marker and the closing marker, the
    definition is what the body parses to, without the whitespace around
    it; and when that body does not parse, the error of the parsing
    helper is thrown. Two requests at most have been sent. *)
Theorem fallback_reads_fenced_answer
    (JSON_parse : string -> option WordDefinition) (env : ProcessEnv)
    (services : Services) (word contextSentence : string) (log : list Request)
    (response : HttpResponse) (ws1 body ws2 : string) :
  let prompt := definitionPrompt word contextSentence in
  failed (askGemini JSON_parse env services prompt log).1 = true ->
  DEEPSEEK_API_KEY env <> "" ->
  fetchChatCompletion services (DEEPSEEK_API_KEY env) dictionaryPrompt prompt
  = Ok response ->
  ok response = true ->
  messageContent response = Ok (fenced ws1 body ws2) ->
  allSpace ws1 = true -> allSpace ws2 = true ->
  let outcome := getWordDefinition JSON_parse env services word contextSentence log in
  outcome.1 = match JSON_parse (trim body) with
              | Some value => Ok value
              | None => Throw parseFailure
              end
  /\ length outcome.2 <= length log + 2.
Proof.
  intros prompt Hfail Hkey Hfetch Hok Hcontent Hws1 Hws2 outcome.
  apply isEmpty_false in Hkey.
  pose proof (askGemini_requests JSON_parse env services prompt log) as Hlog.
  assert (Hrun : outcome
                 = askDeepSeek JSON_parse env services prompt
                     (askGemini JSON_parse env services prompt log).2).
  { subst outcome. unfold getWordDefinition. fold prompt. unfold tryCatch at 1.
    destruct (askGemini JSON_parse env services prompt log) as [[value|e] log1];
      [discriminate|].
    rewrite Hkey. cbn [negb]. apply tryCatch_rethrow. }
  rewrite Hrun.
  assert (Hdeep : forall log1,
            askDeepSeek JSON_parse env services prompt log1
            = (match JSON_parse (trim body) with
               | Some value => Ok value
               | None => Throw parseFailure
               end,
               log1 ++ [DeepSeekChatCompletion (DEEPSEEK_API_KEY env)
                          dictionaryPrompt prompt])).
  { intros log1. unfold askDeepSeek, callDeepSeek, bind, send, throw, liftResult.
    rewrite Hkey. fold dictionaryPrompt. rewrite Hfetch, Hok, Hcontent.
    cbn [negb]. unfold cleanAndParseJson.
    rewrite cleanText_fenced by assumption. reflexivity. }
  rewrite Hdeep. cbn [fst snd]. split; [reflexivity|].
  rewrite Hlog. destruct (isEmpty (API_KEY env)); rewrite !length_app; simpl; lia.
Qed.

Lemma fallback_reads_fenced_answer_witness :
  (getWordDefinition
     (fun s => if String.eqb s "{}" then Some (mkWordDefinition "run" "to move fast" "I run." None)
               else None)
     (mkEnv "k1" "k2")
     (mkServices (fun _ _ _ => Throw (Error "429"))
        (fun _ _ _ => Ok (mkHttpResponse true "OK" (Ok fencedAnswer))))
     "run" "I run." []).1
  = Ok (mkWordDefinition "run" "to move fast" "I run." None).
Proof.
  apply (fallback_reads_fenced_answer
           (fun s => if String.eqb s "{}"
                     then Some (mkWordDefinition "run" "to move fast" "I run." None)
                     else None)
           (mkEnv "k1" "k2")
           (mkServices (fun _ _ _ => Throw (Error "429"))
              (fun _ _ _ => Ok (mkHttpResponse true "OK" (Ok fencedAnswer))))
           "run" "I run." [] (mkHttpResponse true "OK" (Ok fencedAnswer))
           newline "{}" newline); try reflexivity.
  discriminate.
Defined.

(** ** Pronunciation scoring *)

Lemma scorePronunciation_run (JSON_parse : string -> option PronunciationScore)
    (env : ProcessEnv) (services : AudioServices) (userAudio : File)
    (referenceText : string) (log : list AudioRequest) :
  scorePronunciation JSON_parse env services userAudio referenceText log
  = match readAsDataURL userAudio with
    | Throw e => (Throw e, log)
    | Ok dataURL =>
        if isEmpty (API_KEY env) then (Throw missingApiKey, log)
        else
          (match generateFromAudio services (API_KEY env) TRANSCRIPTION_MODEL
                   "audio/webm" (base64OfDataURL dataURL) (scorePrompt referenceText) with
           | Throw e => Throw e
           | Ok None | Ok (Some EmptyString) => Throw scoringFailed
           | Ok (Some responseText) =>
               match JSON_parse responseText with
               | Some value => Ok value
               | None => Throw (SyntaxError "Unexpected token")
               end
           end,
           log ++ [GenerateFromAudio (API_KEY env) TRANSCRIPTION_MODEL "audio/webm"
                     (base64OfDataURL dataURL) (scorePrompt referenceText)])
    end.
Proof.
  unfold scorePronunciation, fileToBase64, bindL at 1, liftL.
  destruct (readAsDataURL userAudio) as [dataURL|e]; [|reflexivity].
  unfold catchL, bindL, getAiL, sendL, throwL, pureL.
  destruct (isEmpty (API_KEY env)); [reflexivity|].
  destruct (generateFromAudio services (API_KEY env) TRANSCRIPTION_MODEL
              "audio/webm" (base64OfDataURL dataURL) (scorePrompt referenceText))
    as [[[|c t]|]|e]; try reflexivity.
  destruct (JSON_parse (String c t)); reflexivity.
Qed.

(** X24. Scoring a recording. It succeeds exactly when the recording
    was read, the key is there, the provider answered the one request with
    a text that is not empty and the text parses, and the score is then the
    parsed one. The request always says audio/webm, whatever the type of
    the blob, and its prompt holds the reference text between double
    quotes. It sends one request when the recording was read and the key
    is there and none otherwise, and an answer without a text throws the
    error of the failed scoring. *)
Theorem scorePronunciation_outcomes
    (JSON_parse : string -> option PronunciationScore) (env : ProcessEnv)
    (services : AudioServices) (userAudio : File) (referenceText : string)
    (log log' : list AudioRequest) (value : PronunciationScore) :
  let outcome := scorePronunciation JSON_parse env services userAudio referenceText log in
  let request := fun dataURL =>
    GenerateFromAudio (API_KEY env) TRANSCRIPTION_MODEL "audio/webm"
      (base64OfDataURL dataURL) (scorePrompt referenceText) in
  let answer := fun dataURL =>
    generateFromAudio services (API_KEY env) TRANSCRIPTION_MODEL "audio/webm"
      (base64OfDataURL dataURL) (scorePrompt referenceText) in
  (outcome = (Ok value, log')
   <-> exists dataURL responseText,
         readAsDataURL userAudio = Ok dataURL /\ API_KEY env <> ""
         /\ answer dataURL = Ok (Some responseText) /\ responseText <> ""
         /\ JSON_parse responseText = Some value
         /\ log' = log ++ [request dataURL])
  /\ (exists sent, outcome.2 = log ++ sent /\ length sent <= 1
        /\ (sent = [] <-> failed (readAsDataURL userAudio) = true \/ API_KEY env = ""))
  /\ (forall dataURL, readAsDataURL userAudio = Ok dataURL -> API_KEY env <> "" ->
        answer dataURL = Ok None \/ answer dataURL = Ok (Some "") ->
        outcome.1 = Throw scoringFailed)
  /\ (exists before after,
        scorePrompt referenceText
        = (before ++ dquote ++ referenceText ++ dquote ++ after)%string).
Proof.
  intros outcome request answer. subst outcome request answer. cbv beta.
  rewrite scorePronunciation_run.
  split; [split|split; [|split]].
  - destruct (readAsDataURL userAudio) as [dataURL|e]; [|discriminate].
    destruct (isEmpty (API_KEY env)) eqn:Ek; [discriminate|].
    destruct (generateFromAudio services (API_KEY env) TRANSCRIPTION_MODEL
                "audio/webm" (base64OfDataURL dataURL) (scorePrompt referenceText))
      as [[[|c t]|]|e] eqn:Ea; try discriminate.
    destruct (JSON_parse (String c t)) as [parsed|] eqn:Ep; [|discriminate].
    intros H. injection H as <- <-.
    exists dataURL, (String c t).
    split; [reflexivity|]. split; [apply isEmpty_false; exact Ek|].
    split; [exact Ea|]. split; [discriminate|]. split; [exact Ep | reflexivity].
  - intros (dataURL & responseText & Hread & Hkey & Hanswer & Hne & Hparse & ->).
    rewrite Hread. apply isEmpty_false in Hkey. rewrite Hkey, Hanswer.
    destruct responseText as [|c t]; [contradiction|]. rewrite Hparse.
    reflexivity.
  - destruct (readAsDataURL userAudio) as [dataURL|e]; simpl.
    + destruct (isEmpty (API_KEY env)) eqn:Ek.
      * exists []. rewrite app_nil_r. repeat split; auto.
        intros _. right. destruct (API_KEY env); [reflexivity | discriminate].
      * eexists [_]. simpl. repeat split; auto; try discriminate.
        intros [H | H]; [discriminate|]. rewrite H in Ek. discriminate.
    + exists []. rewrite app_nil_r. repeat split; auto.
  - intros dataURL -> Hkey Hanswer. apply isEmpty_false in Hkey. rewrite Hkey.
    destruct Hanswer as [-> | ->]; reflexivity.
  - unfold scorePrompt.
    exists (newline ++ "    Listen to this user recording and compare it to the text: ")%string.
    eexists. rewrite (append_assoc newline). reflexivity.
Qed.

(** ** Handlers of the shadowing view *)

(** X25. The record button of the shadowing view. Starting clears the
    score that is shown, also when the microphone is refused, in which case
    the handler is rejected and nothing is recording. After a start and the
    stop that follows it the view is neither recording nor processing and
    its score is the new one when the scoring succeeded and none otherwise,
    never the score of an earlier recording; the scoring is asked for the
    text of the current segment. *)
Theorem record_toggle_cycle
    (JSON_parse : string -> option PronunciationScore) (env : ProcessEnv)
    (services : AudioServices) (recorderStart : result unit) (blob : File)
    (segment : TranscriptionSegment) (st : ShadowingState)
    (log : list AudioRequest) :
  isRecording st = false ->
  let toggle :=
    handleRecordToggle JSON_parse env services recorderStart (Ok blob) (Some segment) in
  let started := toggle st log in
  let stopped := toggle (stateAfter started) (requestsAfter started) in
  let scoring := scorePronunciation JSON_parse env services blob (text segment) log in
  shownScore (stateAfter started) = None
  /\ requestsAfter started = log
  /\ (forall e, recorderStart = Throw e ->
        rejection started = Some e /\ isRecording (stateAfter started) = false)
  /\ (forall u, recorderStart = Ok u ->
        rejection started = None
        /\ isRecording (stateAfter started) = true
        /\ stateAfter stopped
           = mkShadowing false
               match scoring.1 with Ok result => Some result | Throw _ => None end
               false
        /\ requestsAfter stopped = scoring.2
        /\ rejection stopped = None).
Proof.
  intros Hidle toggle started stopped scoring.
  assert (Hstarted : started
                     = match recorderStart with
                       | Throw e =>
                           mkHandled (mkShadowing false None (isProcessing st)) log (Some e)
                       | Ok _ =>
                           mkHandled (mkShadowing true None (isProcessing st)) log None
                       end).
  { subst started toggle. unfold handleRecordToggle. rewrite Hidle.
    destruct recorderStart; reflexivity. }
  subst stopped. rewrite Hstarted. clear Hstarted started.
  subst toggle scoring.
  destruct recorderStart as [u|e]; unfold handleRecordToggle; simpl;
    (split; [reflexivity|]); (split; [reflexivity|]); split.
  - intros e H. discriminate H.
  - intros u' _.
    destruct (scorePronunciation JSON_parse env services blob (text segment) log)
      as [[result|e] log1]; repeat split; reflexivity.
  - intros e' H. injection H as <-. split; reflexivity.
  - intros u H. discriminate H.
Qed.

Lemma record_toggle_cycle_witness :
  let services := mkAudioServices (fun _ _ _ _ _ => Ok None) (fun _ _ _ _ => Ok None) in
  let toggle :=
    handleRecordToggle (fun _ => None) (mkEnv "k1" "") services (Ok tt)
      (Ok (mkFile "" 4 "audio/webm" (Ok "data:audio/webm;base64,AAD/")))
      (Some (mkSegment 0 1 "Hi" "a" "b" None)) in
  let started := toggle (mkShadowing false (Some (mkScore 90 "fine" "good")) false) [] in
  shownScore (stateAfter (toggle (stateAfter started) (requestsAfter started))) = None.
Proof.
  destruct (record_toggle_cycle (fun _ => None) (mkEnv "k1" "")
              (mkAudioServices (fun _ _ _ _ _ => Ok None) (fun _ _ _ _ => Ok None))
              (Ok tt) (mkFile "" 4 "audio/webm" (Ok "data:audio/webm;base64,AAD/"))
              (mkSegment 0 1 "Hi" "a" "b" None)
              (mkShadowing false (Some (mkScore 90 "fine" "good")) false) []
              eq_refl) as (_ & _ & _ & Hstarted).
  destruct (Hstarted tt eq_refl) as (_ & _ & Hstopped & _).
  cbv zeta. rewrite Hstopped. reflexivity.
Defined.

(** X26. The two play buttons of the shadowing view. Playing the
    original never rejects; playing the idiom is rejected exactly with the
    error of the synthesis when that fails, and does nothing, without a
    request, when the segment has no idiom. Neither keeps the audio: every
    press with the key in place sends a request of its own, so the log
    grows by one with each press. *)
Theorem shadowing_playback (env : ProcessEnv) (services : AudioServices)
    (segment : TranscriptionSegment) (log : list AudioRequest) :
  let original := playOriginal env services (Some segment) log in
  let idiom := playIdiom env services (Some segment) log in
  let speech := fun contents => generateSpeech env services contents log in
  rejection original = None
  /\ requestsAfter original = (speech (text segment)).2
  /\ (idiomatic segment = "" ->
      idiom = mkHandled None log None)
  /\ (idiomatic segment <> "" ->
      requestsAfter idiom = (speech (idiomatic segment)).2
      /\ rejection idiom
         = match (speech (idiomatic segment)).1 with
           | Ok _ => None
           | Throw e => Some e
           end)
  /\ (API_KEY env <> "" ->
      forall presses : nat,
        length (Nat.iter presses
                  (fun l => requestsAfter (playOriginal env services (Some segment) l))
                  log)
        = length log + presses)
  /\ (text segment = idiomatic segment -> idiomatic segment <> "" ->
      stateAfter original = stateAfter idiom).
Proof.
  intros original idiom speech. subst original idiom speech. cbv beta.
  unfold playOriginal, playIdiom.
  split; [|split; [|split; [|split; [|split]]]].
  - destruct (generateSpeech env services (text segment) log) as [[audio|e] log1];
      reflexivity.
  - destruct (generateSpeech env services (text segment) log) as [[audio|e] log1];
      reflexivity.
  - intros ->. reflexivity.
  - intros Hne. apply isEmpty_false in Hne. rewrite Hne.
    destruct (generateSpeech env services (idiomatic segment) log)
      as [[audio|e] log1]; split; reflexivity.
  - intros Hkey presses. apply isEmpty_false in Hkey.
    induction presses as [|n IH]; simpl; [lia|].
    rewrite generateSpeech_run, Hkey.
    destruct (generateAudio services (API_KEY env) TTS_MODEL "Kore" (text segment))
      as [[[|c t]|]|e]; simpl; rewrite length_app, IH; simpl; lia.
  - intros Heq Hne. apply isEmpty_false in Hne. rewrite Hne, Heq.
    destruct (generateSpeech env services (idiomatic segment) log)
      as [[audio|e] log1]; reflexivity.
Qed.

(** ** Recording an idiom *)

Lemma lookupKey_set {V : Type} (entries : list (string * V)) (key : string) (value : V) :
  lookupKey (setKey entries key value) key = Some value.
Proof. simpl. rewrite String.eqb_refl. reflexivity. Qed.

Lemma lookupKey_set_other {V : Type} (entries : list (string * V))
    (key other : string) (value : V) :
  other <> key -> lookupKey (setKey entries key value) other = lookupKey entries other.
Proof.
  intros Hne. simpl. destruct (String.eqb_spec key other); [|reflexivity].
  subst. contradiction.
Qed.

Lemma lookupKey_delete {V : Type} (entries : list (string * V)) (key : string) :
  lookupKey (deleteKey entries key) key = None.
Proof.
  induction entries as [|[k v] entries IH]; simpl; [reflexivity|].
  destruct (String.eqb_spec k key) as [->|Hne]; simpl; [exact IH|].
  destruct (String.eqb_spec k key); [contradiction | exact IH].
Qed.

Lemma lookupKey_delete_other {V : Type} (entries : list (string * V))
    (key other : string) :
  other <> key -> lookupKey (deleteKey entries key) other = lookupKey entries other.
Proof.
  intros Hne. induction entries as [|[k v] entries IH]; simpl; [reflexivity|].
  destruct (String.eqb_spec k key) as [->|Hk]; simpl.
  - destruct (String.eqb_spec key other); [subst; contradiction | exact IH].
  - rewrite IH. reflexivity.
Qed.

(** X27. Recording an idiom in the transcript. While another text is
    being recorded a click does nothing. From a state in which nothing is
    recorded, a click starts the recording of the text and a second click
    on it stops the recording: then nothing is recorded or scored any
    more, the score of the text is the new one when the scoring succeeded
    and is absent otherwise, never an earlier one, the recording of the
    text is a new blob URL, also when the scoring failed, the scores and
    recordings of every other text are as before, and no blob URL has been
    revoked: the URLs of earlier recordings stay allocated. *)
Theorem record_idiom_cycle
    (JSON_parse : string -> option PronunciationScore) (env : ProcessEnv)
    (services : AudioServices) (recorderStart : result unit) (blob : File)
    (contents : string) (st : RecordingState) (log : list AudioRequest) :
  recordingIdiomText st = None ->
  recorderStart = Ok tt ->
  let toggle :=
    handleToggleRecordIdiom JSON_parse env services recorderStart (Ok blob) in
  let started := toggle contents st log in
  let stopped := toggle contents started.1 started.2 in
  let scoring := scorePronunciation JSON_parse env services blob contents log in
  recordingIdiomText started.1 = Some contents
  /\ lookupKey (idiomScores started.1) contents = None
  /\ (forall other, other <> contents -> truthyText (Some contents) = true ->
        toggle other started.1 started.2 = started)
  /\ recordingIdiomText stopped.1 = None
  /\ scoringIdiomText stopped.1 = None
  /\ stopped.2 = scoring.2
  /\ lookupKey (idiomScores stopped.1) contents
     = match scoring.1 with Ok result => Some result | Throw _ => None end
  /\ lookupKey (userRecordings stopped.1) contents = Some (nextRecordingUrl st)
  /\ recordingUrls stopped.1 = nextRecordingUrl st :: recordingUrls st
  /\ (forall other, other <> contents ->
        lookupKey (idiomScores stopped.1) other = lookupKey (idiomScores st) other
        /\ lookupKey (userRecordings stopped.1) other
           = lookupKey (userRecordings st) other).
Proof.
  intros Hidle Hstart toggle started stopped scoring.
  assert (Hstarted : started
                     = (mkRecording (Some contents) (scoringIdiomText st)
                          (deleteKey (idiomScores st) contents) (userRecordings st)
                          (recordingUrls st) (nextRecordingUrl st), log)).
  { subst started toggle. unfold handleToggleRecordIdiom.
    rewrite Hidle, Hstart. reflexivity. }
  assert (Hstopped : stopped
                     = (mkRecording None None
                          match scoring.1 with
                          | Ok result =>
                              setKey (deleteKey (idiomScores st) contents) contents result
                          | Throw _ => deleteKey (idiomScores st) contents
                          end
                          (setKey (userRecordings st) contents (nextRecordingUrl st))
                          (nextRecordingUrl st :: recordingUrls st)
                          (S (nextRecordingUrl st)), scoring.2)).
  { subst stopped. rewrite Hstarted. subst toggle scoring.
    unfold handleToggleRecordIdiom. simpl. rewrite String.eqb_refl.
    destruct (scorePronunciation JSON_parse env services blob contents log)
      as [[result|e] log1]; reflexivity. }
  rewrite Hstopped. rewrite Hstarted at 1 2. simpl.
  split; [reflexivity|]. split; [apply lookupKey_delete|].
  split.
  { intros other Hne Htruthy. rewrite Hstarted. subst toggle.
    unfold handleToggleRecordIdiom. simpl.
    destruct (String.eqb_spec contents other) as [->|_]; [contradiction|].
    simpl in Htruthy. rewrite Htruthy. reflexivity. }
  do 3 (split; [reflexivity|]).
  split.
  { destruct scoring.1; [apply lookupKey_set | apply lookupKey_delete]. }
  split; [apply lookupKey_set|]. split; [reflexivity|].
  intros other Hne. split.
  - destruct scoring.1.
    + rewrite lookupKey_set_other by exact Hne.
      apply lookupKey_delete_other. exact Hne.
    + apply lookupKey_delete_other. exact Hne.
  - apply lookupKey_set_other. exact Hne.
Qed.

Lemma record_idiom_cycle_witness :
  let toggle :=
    handleToggleRecordIdiom (fun _ => None) (mkEnv "k1" "")
      (mkAudioServices (fun _ _ _ _ _ => Ok None) (fun _ _ _ _ => Ok None))
      (Ok tt) (Ok (mkFile "" 4 "audio/webm" (Ok "data:audio/webm;base64,AAD/"))) in
  let st :=
    mkRecording None None [("Break a leg", mkScore 90 "fine" "good")]
      [("Break a leg", 0)] [0] 1 in
  let started := toggle "Break a leg" st [] in
  let stopped := toggle "Break a leg" started.1 started.2 in
  lookupKey (idiomScores stopped.1) "Break a leg" = None
  /\ recordingUrls stopped.1 = [1; 0].
Proof.
  destruct (record_idiom_cycle (fun _ => None) (mkEnv "k1" "")
              (mkAudioServices (fun _ _ _ _ _ => Ok None) (fun _ _ _ _ => Ok None))
              (Ok tt) (mkFile "" 4 "audio/webm" (Ok "data:audio/webm;base64,AAD/"))
              "Break a leg"
              (mkRecording None None [("Break a leg", mkScore 90 "fine" "good")]
                 [("Break a leg", 0)] [0] 1)
              [] eq_refl eq_refl)
    as (_ & _ & _ & _ & _ & _ & Hscore & _ & Hurls & _).
  split; [exact Hscore | exact Hurls].
Defined.

(** ** Blurred translation *)

Lemma blurSettled_click (s : Blurred) :
  blurSettled s ->
  blurSettled (blurHandleClick s)
  /\ timers (blurHandleClick s) = [(nextTimer s, (now s + REVEAL_MS)%N)].
Proof.
  intros Hs.
  assert (Htimers : timers (blurHandleClick s) = [(nextTimer s, (now s + REVEAL_MS)%N)]).
  { unfold blurHandleClick. simpl.
    destruct Hs as [[_ Hnone] | (_ & id & deadline & Href & Hone & _)].
    - rewrite Hnone. destruct (timeoutRef s); reflexivity.
    - rewrite Href, Hone. simpl. rewrite Pos.eqb_refl. reflexivity. }
  split; [|exact Htimers].
  right. split; [reflexivity|].
  exists (nextTimer s), (now s + REVEAL_MS)%N.
  split; [reflexivity|]. split; [exact Htimers|].
  unfold blurHandleClick, REVEAL_MS. simpl. lia.
Qed.

Lemma blurSettled_elapse (d : N) (s : Blurred) :
  blurSettled s -> blurSettled (elapse d s).
Proof.
  intros [[Hblur Hnone] | (Hclear & id & deadline & Href & Hone & Hdeadline)];
    unfold blurSettled, elapse; simpl.
  - rewrite Hnone, Hblur. simpl. left. split; reflexivity.
  - rewrite Hone. simpl. destruct (N.leb_spec deadline (now s + d)); simpl.
    + left. split; reflexivity.
    + right. split; [exact Hclear|]. exists id, deadline.
      split; [exact Href|]. split; [reflexivity|]. lia.
Qed.

Lemma blurSettled_run (events : list BlurEvent) (s : Blurred) :
  blurSettled s -> blurSettled (fold_left blurStep events s).
Proof.
  revert s. induction events as [|e events IH]; intros s Hs; simpl; [exact Hs|].
  apply IH. destruct e; [apply blurSettled_click | apply blurSettled_elapse]; exact Hs.
Qed.

(** X28. The blurred translation. After any sequence of clicks and
    lapses of time the text is revealed exactly while a timer is pending,
    and at most one is: the one of the last click, which fires within five
    seconds. A click reveals the text; it stays revealed for every lapse
    shorter than five seconds after the click, however long ago the click
    before was, and is blurred again once five seconds have passed. *)
Theorem blur_follows_last_click (events : list BlurEvent) :
  let s := fold_left blurStep events initialBlurred in
  (isBlurred s = false <-> timers s <> [])
  /\ length (timers s) <= 1
  /\ Forall (fun timer =>
               timeoutRef s = Some timer.1
               /\ (now s < timer.2 <= now s + REVEAL_MS)%N) (timers s)
  /\ isBlurred (blurStep s Click) = false
  /\ (forall d : N,
        isBlurred (elapse d (blurStep s Click)) = negb (d <? REVEAL_MS)%N).
Proof.
  intros s.
  assert (Hs : blurSettled s).
  { apply blurSettled_run. left. split; reflexivity. }
  split; [|split; [|split; [|split]]].
  - destruct Hs as [[Hblur Hnone] | (Hclear & id & deadline & _ & Hone & _)].
    + rewrite Hblur, Hnone. split; [discriminate | intros H; contradiction].
    + rewrite Hclear, Hone. split; [discriminate | reflexivity].
  - destruct Hs as [[_ Hnone] | (_ & id & deadline & _ & Hone & _)];
      [rewrite Hnone | rewrite Hone]; simpl; lia.
  - destruct Hs as [[_ Hnone] | (_ & id & deadline & Href & Hone & Hdeadline)].
    + rewrite Hnone. constructor.
    + rewrite Hone. constructor; [|constructor]. simpl. split; assumption.
  - reflexivity.
  - intros d. simpl blurStep.
    destruct (blurSettled_click s Hs) as [_ Htimers].
    unfold elapse. rewrite Htimers. simpl.
    destruct (N.leb_spec (now s + REVEAL_MS) (now s + d)),
      (N.ltb_spec d REVEAL_MS); simpl; try reflexivity; lia.
Qed.

(** ** Merged segments and time *)

Lemma SFleb_trans (x y z : spec_float) :
  SFleb x y = true -> SFleb y z = true -> SFleb x z = true.
Proof.
  unfold SFleb.
  destruct x as [[]|[]| |[] mx ex], y as [[]|[]| |[] my ey],
    z as [[]|[]| |[] mz ez]; simpl; try congruence;
    intros H1 H2; fold_pos_compare;
    compare_cases; simpl in *; subst; try congruence; try lia.
Qed.

Lemma leb_trans (x y z : float) :
  (x <=? y)%float = true -> (y <=? z)%float = true -> (x <=? z)%float = true.
Proof. rewrite !leb_spec. apply SFleb_trans. Qed.

Lemma inTimeOrder_cons (a : TranscriptionSegment) (rest : list TranscriptionSegment) :
  inTimeOrder (a :: rest) = follows (end_ a) rest.
Proof. destruct rest; reflexivity. Qed.

Lemma follows_inTimeOrder (e : float) (rest : list TranscriptionSegment) :
  follows e rest = true -> inTimeOrder rest = true.
Proof.
  destruct rest as [|b rest]; [reflexivity|]. unfold follows.
  intros H. apply andb_true_iff in H. exact (proj2 H).
Qed.

Lemma foldSegments_head (rest : list TranscriptionSegment) (acc : TranscriptionSegment) :
  exists m others, foldSegments acc rest = m :: others /\ start m = start acc.
Proof.
  revert acc. induction rest as [|next rest IH]; intros acc; simpl.
  - eauto.
  - destruct (meetsMergeCondition acc); [|eauto].
    destruct (IH (mergedWith acc next)) as (m & others & -> & Hstart). eauto.
Qed.

Lemma foldSegments_inTimeOrder (rest : list TranscriptionSegment)
    (acc : TranscriptionSegment) :
  follows (end_ acc) rest = true -> inTimeOrder (foldSegments acc rest) = true.
Proof.
  revert acc. induction rest as [|next rest IH]; intros acc H; [reflexivity|].
  cbn [foldSegments]. unfold follows in H. apply andb_true_iff in H.
  destruct H as [Hle Horder]. rewrite inTimeOrder_cons in Horder.
  destruct (meetsMergeCondition acc).
  - apply IH. exact Horder.
  - destruct (foldSegments_head rest next) as (m & others & Heq & Hstart).
    specialize (IH next Horder). rewrite Heq in *.
    rewrite inTimeOrder_cons. unfold follows. rewrite Hstart, Hle, IH. reflexivity.
Qed.

Lemma foldSegments_startsBeforeEnd (rest : list TranscriptionSegment)
    (acc : TranscriptionSegment) :
  follows (end_ acc) rest = true ->
  startsBeforeEnd acc = true -> forallb startsBeforeEnd rest = true ->
  forallb startsBeforeEnd (foldSegments acc rest) = true.
Proof.
  revert acc. induction rest as [|next rest IH]; intros acc H Hacc Hrest.
  - simpl. rewrite Hacc. reflexivity.
  - cbn [foldSegments]. unfold follows in H. apply andb_true_iff in H.
    destruct H as [Hle Horder]. rewrite inTimeOrder_cons in Horder.
    cbn [forallb] in Hrest. apply andb_true_iff in Hrest.
    destruct Hrest as [Hnext Hrest].
    destruct (meetsMergeCondition acc).
    + apply IH; [exact Horder | | exact Hrest].
      unfold startsBeforeEnd in *. simpl.
      eapply leb_trans; [exact Hacc|]. eapply leb_trans; [exact Hle | exact Hnext].
    + cbn [forallb]. rewrite Hacc. apply IH; assumption.
Qed.

Lemma foldSegments_active (rest : list TranscriptionSegment)
    (acc : TranscriptionSegment) (t : float) :
  follows (end_ acc) rest = true ->
  startsBeforeEnd acc = true -> forallb startsBeforeEnd rest = true ->
  (exists s, In s (acc :: rest) /\ isActive t s = true) ->
  exists m, In m (foldSegments acc rest) /\ isActive t m = true.
Proof.
  revert acc. induction rest as [|next rest IH]; intros acc H Hacc Hrest Hactive.
  - exact Hactive.
  - cbn [foldSegments]. unfold follows in H. apply andb_true_iff in H.
    destruct H as [Hle Horder]. rewrite inTimeOrder_cons in Horder.
    cbn [forallb] in Hrest. apply andb_true_iff in Hrest.
    destruct Hrest as [Hnext Hrest].
    destruct Hactive as (s & Hin & Hs).
    destruct (meetsMergeCondition acc).
    + apply IH; [exact Horder | | exact Hrest |].
      * unfold startsBeforeEnd in *. simpl.
        eapply leb_trans; [exact Hacc|]. eapply leb_trans; [exact Hle | exact Hnext].
      * unfold startsBeforeEnd in *.
        destruct Hin as [<- | [<- | Hin]].
        -- exists (mergedWith acc next). split; [left; reflexivity|].
           unfold isActive in *. simpl. apply andb_true_iff in Hs.
           destruct Hs as [Hs1 Hs2]. rewrite Hs1. simpl.
           eapply ltb_leb_trans; [exact Hs2|].
           eapply leb_trans; [exact Hle | exact Hnext].
        -- exists (mergedWith acc next). split; [left; reflexivity|].
           unfold isActive in *. simpl. apply andb_true_iff in Hs.
           destruct Hs as [Hs1 Hs2]. rewrite Hs2, andb_true_r.
           eapply leb_trans; [exact Hacc|]. eapply leb_trans; [exact Hle | exact Hs1].
        -- exists s. split; [right; exact Hin | exact Hs].
    + destruct Hin as [<- | Hin].
      * exists acc. split; [left; reflexivity | exact Hs].
      * destruct (IH next Horder Hnext Hrest) as (m & Hm & Hactive).
        { exists s. split; assumption. }
        exists m. split; [right; exact Hm | exact Hactive].
Qed.

(** X29. Merging keeps the segments in the order of time. When each
    segment of the input ends no later than the next one starts, the same
    holds of the output; when moreover no segment ends before it starts,
    that holds of the output too, and a time at which a segment of the
    input is active is a time at which a segment of the output is active:
    the merge hides no highlighted moment. *)
Theorem merge_keeps_time_order (input : list TranscriptionSegment) :
  inTimeOrder input = true ->
  inTimeOrder (mergeShortSegments input) = true
  /\ (forallb startsBeforeEnd input = true ->
      forallb startsBeforeEnd (mergeShortSegments input) = true
      /\ forall (t : float) (s : TranscriptionSegment),
           In s input -> isActive t s = true ->
           exists m, In m (mergeShortSegments input) /\ isActive t m = true).
Proof.
  intros Horder. rewrite mergeShortSegments_segmentMerger.
  destruct input as [|first rest]; simpl segmentMerger.
  - split; [reflexivity|]. intros _. split; [reflexivity|].
    intros t s [].
  - rewrite inTimeOrder_cons in Horder.
    split; [apply foldSegments_inTimeOrder; exact Horder|].
    intros Hall. cbn [forallb] in Hall. apply andb_true_iff in Hall.
    destruct Hall as [Hfirst Hrest]. split.
    + apply foldSegments_startsBeforeEnd; assumption.
    + intros t s Hin Hs. apply foldSegments_active; try assumption.
      exists s. split; assumption.
Qed.

#[warnings="-inexact-float"]
Lemma merge_keeps_time_order_witness :
  let input :=
    [mkSegment 0 1 "Hi" "a" "b" None; mkSegment 1 1.5 "there" "c" "d" None;
     mkSegment 1.5 4 "welcome to the show today" "e" "f" None] in
  inTimeOrder (mergeShortSegments input) = true
  /\ exists m, In m (mergeShortSegments input) /\ isActive 1.25 m = true.
Proof.
  destruct (merge_keeps_time_order
              [mkSegment 0 1 "Hi" "a" "b" None; mkSegment 1 1.5 "there" "c" "d" None;
               mkSegment 1.5 4 "welcome to the show today" "e" "f" None]
              eq_refl) as [Horder Hrest].
  split; [exact Horder|].
  destruct (Hrest eq_refl) as [_ Hactive].
  apply (Hactive 1.25%float (mkSegment 1 1.5 "there" "c" "d" None)).
  - right. left. reflexivity.
  - reflexivity.
Defined.
